(** * Ingestion pipeline of agent-builder: a shallow embedding

    The development follows the two handlers of the repository,
    [handlers/document_converter.py] (text chunking, chunk identifiers,
    document-chunk storage) and [handlers/product_importer.py] (catalog
    normalisation, synthetic identifiers, embedding batches, product storage).

    Python strings are sequences of characters: they are modelled as lists of
    8-bit characters (code points 0..255); integers are [Z]. *)

From Stdlib Require Import Ascii String DecimalString DecimalNat DecimalZ.
From Stdlib Require Import ZArith Lia Bool Arith FinFun List.
Import ListNotations.

Open Scope list_scope.
Open Scope Z_scope.

Definition str := list ascii.

(** String literals of the source, as character lists. *)
Definition lit (s : String.string) : str := String.list_ascii_of_string s.
Arguments lit s%_string.

(** [len(s)] *)
Definition len {A} (s : list A) : Z := Z.of_nat (length s).

(* ------------------------------------------------------------------ *)
(** ** Python string primitives used by the handlers *)

Module Py.

(** [str.isspace] on one character (code points below 256). *)
Definition isspace (c : ascii) : bool :=
  let n := Z.of_nat (nat_of_ascii c) in
  ((9 <=? n) && (n <=? 13)) || ((28 <=? n) && (n <=? 32))
  || (n =? 133) || (n =? 160).

Fixpoint lstrip_by (f : ascii -> bool) (s : str) : str :=
  match s with
  | [] => []
  | c :: s' => if f c then lstrip_by f s' else s
  end.

Definition rstrip_by (f : ascii -> bool) (s : str) : str :=
  rev (lstrip_by f (rev s)).

(** [s.strip(chars)]: both ends are trimmed. *)
Definition strip_by (f : ascii -> bool) (s : str) : str :=
  lstrip_by f (rstrip_by f s).

(** [s.strip()] *)
Definition strip (s : str) : str := strip_by isspace s.

(** [s.split(sep)] for a separator [sep] of two characters [a b]: pieces are
    cut left to right at non-overlapping occurrences; [cur] holds the piece
    being read, reversed. *)
Fixpoint split2_from (a b : ascii) (s : str) (cur : str) : list str :=
  match s with
  | [] => [rev cur]
  | c :: s' =>
      match s' with
      | d :: s'' =>
          if Ascii.eqb c a && Ascii.eqb d b
          then rev cur :: split2_from a b s'' []
          else split2_from a b s' (c :: cur)
      | [] => [rev (c :: cur)]
      end
  end.

Definition split2 (a b : ascii) (s : str) : list str := split2_from a b s [].

(** [s.find(ch)]: index of the first occurrence, or -1. *)
Fixpoint find_char (ch : ascii) (s : str) : Z :=
  match s with
  | [] => -1
  | c :: s' =>
      if Ascii.eqb c ch then 0
      else let r := find_char ch s' in if r <? 0 then -1 else r + 1
  end.

(** A slice bound: negative bounds count from the end, and everything is
    clamped to the string. *)
Definition bound {A} (s : list A) (i : Z) : nat :=
  Z.to_nat (if i <? 0 then Z.max 0 (i + len s) else i).

(** [s[i:]] *)
Definition slice_from {A} (s : list A) (i : Z) : list A := skipn (bound s i) s.

(** [s[:j]] *)
Definition slice_to {A} (s : list A) (j : Z) : list A := firstn (bound s j) s.

(** [s.split()]: the maximal runs of non-whitespace characters, in order.
    [cur] is the run being read, reversed. *)
Fixpoint words_from (cur : str) (s : str) : list str :=
  match s with
  | [] => match cur with [] => [] | _ => [rev cur] end
  | c :: s' =>
      if isspace c
      then match cur with
           | [] => words_from [] s'
           | _ => rev cur :: words_from [] s'
           end
      else words_from (c :: cur) s'
  end.

Definition words (s : str) : list str := words_from [] s.

(** [a == b] on strings. *)
Fixpoint str_eqb (a b : str) : bool :=
  match a, b with
  | [], [] => true
  | c :: a', d :: b' => Ascii.eqb c d && str_eqb a' b'
  | _, _ => false
  end.

(** A string made of whitespace only. *)
Definition blank (w : str) : Prop := Forall (fun c => isspace c = true) w.

(** A string that is empty or ends in whitespace. *)
Definition closed (x : str) : Prop :=
  x = [] \/ exists y c, x = y ++ [c] /\ isspace c = true.

(** [x] ends with [y]. *)
Definition ends_with (x y : str) : Prop := exists pre, x = pre ++ y.

End Py.

(* ------------------------------------------------------------------ *)
(** ** The Chunker: [DocumentConverter._split_text] *)

Module Chunker.
Import Py.

Definition NL : ascii := "010"%char.
Definition para_sep : str := [NL; NL].
Definition sent_sep : str := lit ". ".

(** [if current_chunk: segments.append(current_chunk.strip())] *)
Definition flush (segments : list str) (current : str) : list str :=
  match current with
  | [] => segments
  | _ => segments ++ [strip current]
  end.

(** One turn of the inner loop [for sentence in sentences]. *)
Definition sentence_step (max_size : Z) (st : list str * str) (sentence : str)
  : list str * str :=
  let '(segments, current) := st in
  if len current + len sentence + 2 <=? max_size
  then (segments, current ++ sentence ++ sent_sep)
  else (flush segments current, sentence ++ sent_sep).

(** One turn of the outer loop [for paragraph in paragraphs]. *)
Definition paragraph_step (max_size : Z) (st : list str * str) (paragraph : str)
  : list str * str :=
  let '(segments, current) := st in
  if len current + len paragraph + 2 <=? max_size
  then (segments, current ++ paragraph ++ para_sep)
  else
    let segments := flush segments current in
    if max_size <? len paragraph
    then fold_left (sentence_step max_size)
                   (split2 "."%char " "%char paragraph) (segments, [])
    else (segments, paragraph ++ para_sep).

(** First pass: the segments before overlap is injected. *)
Definition first_pass (text : str) (max_size : Z) : list str :=
  let '(segments, current) :=
    fold_left (paragraph_step max_size) (split2 NL NL text) ([], []) in
  flush segments current.

(** [prev[-overlap:] if len(prev) > overlap else prev] *)
Definition tail_window (prev : str) (overlap : Z) : str :=
  if overlap <? len prev then slice_from prev (- overlap) else prev.

(** The overlap text taken from the previous segment. *)
Definition overlap_text (prev : str) (overlap : Z) : str :=
  let overlap_text := tail_window prev overlap in
  let space_idx := find_char " "%char overlap_text in
  if 0 <? space_idx then slice_from overlap_text (space_idx + 1)
  else overlap_text.

(** The body of the second loop for one segment. *)
Definition overlap_chunk (prev seg : str) (max_size overlap : Z) : str :=
  let chunk := overlap_text prev overlap ++ lit " " ++ seg in
  let chunk := if max_size <? len chunk then slice_to chunk max_size else chunk in
  strip chunk.

(** [for i in range(1, len(segments))], with [prev = segments[i - 1]]. *)
Fixpoint add_overlap (prev : str) (rest : list str) (max_size overlap : Z)
  : list str :=
  match rest with
  | [] => []
  | seg :: rest' =>
      overlap_chunk prev seg max_size overlap
        :: add_overlap seg rest' max_size overlap
  end.

Definition _split_text (text : str) (max_size overlap : Z) : list str :=
  if len text <=? max_size then [text]
  else
    let segments := first_pass text max_size in
    if (overlap <=? 0) || (len segments <=? 1) then segments
    else match segments with
         | [] => []
         | s0 :: rest => s0 :: add_overlap s0 rest max_size overlap
         end.

(** *** The same run, keeping for every returned chunk the segment it was
    built from and the overlap text that was put in front of it. *)

Record traced := {
  injected : option str;   (* [overlap_text], when the second loop ran *)
  segment : str;           (* [segments[i]] *)
  chunk : str              (* the returned chunk *)
}.

Definition plain (seg : str) : traced :=
  {| injected := None; segment := seg; chunk := seg |}.

Fixpoint add_overlap_traced (prev : str) (rest : list str) (max_size overlap : Z)
  : list traced :=
  match rest with
  | [] => []
  | seg :: rest' =>
      {| injected := Some (overlap_text prev overlap);
         segment := seg;
         chunk := overlap_chunk prev seg max_size overlap |}
        :: add_overlap_traced seg rest' max_size overlap
  end.

Definition split_text_traced (text : str) (max_size overlap : Z) : list traced :=
  if len text <=? max_size then [plain text]
  else
    let segments := first_pass text max_size in
    if (overlap <=? 0) || (len segments <=? 1) then map plain segments
    else match segments with
         | [] => []
         | s0 :: rest => plain s0 :: add_overlap_traced s0 rest max_size overlap
         end.

(** The reading of the overlap rule on returned chunks: the text injected in
    front of a chunk ends the previous returned chunk, and starts there at a
    word boundary. *)
Definition overlap_from_previous_chunk (tr : list traced) : Prop :=
  forall i t' t o,
    nth_error tr i = Some t' -> nth_error tr (S i) = Some t ->
    injected t = Some o ->
    exists pre, chunk t' = pre ++ o /\ closed pre.

(** The words a chunk contributes once the words of its injected overlap
    text are taken off its front. *)
Definition deoverlap (t : traced) : list str :=
  match injected t with
  | None => words (chunk t)
  | Some o => skipn (length (words o)) (words (chunk t))
  end.

(** A chunk made of one sentence piece that does not fit: a piece [s] of a
    paragraph longer than [max_size], with [len s + 2 > max_size], emitted
    with the sentence separator put back and the whole stripped. *)
Definition lone_sentence (text : str) (max_size : Z) (c : str) : Prop :=
  exists p s,
    In p (split2 NL NL text) /\ max_size < len p
    /\ In s (split2 "."%char " "%char p) /\ max_size < len s + 2
    /\ c = strip (s ++ sent_sep).

(** A chunk within the bound, or a lone sentence piece. *)
Definition fits_or_lone (text : str) (max_size : Z) (c : str) : Prop :=
  len c <= max_size \/ lone_sentence text max_size c.

(** The loop invariant of the first pass for chunk sizes. *)
Definition state_ok (text : str) (max_size : Z) (st : list str * str) : Prop :=
  Forall (fits_or_lone text max_size) (fst st)
  /\ fits_or_lone text max_size (strip (snd st)).

(** [c] occurs in [text] as it is. *)
Definition occurs_in (c text : str) : Prop :=
  exists pre post, text = pre ++ c ++ post.

(** The words held by a loop state of the first pass: those of the finished
    segments followed by those of the running buffer. *)
Definition held (st : list str * str) : list str :=
  concat (map words (fst st)) ++ words (snd st).

(** The words the first pass emits for one paragraph: those of the paragraph,
    or, for a paragraph longer than [max_size], those of its sentence pieces,
    each followed by the sentence separator. *)
Definition para_words (max_size : Z) (p : str) : list str :=
  if max_size <? len p
  then concat (map (fun s => words (s ++ sent_sep)) (split2 "."%char " "%char p))
  else words p.

End Chunker.

(* ------------------------------------------------------------------ *)
(** ** Chunk identifiers: [DocumentConverter._convert_single_document] *)

Module DocId.
Import Py Chunker.

(** [str(i)] for an index [i] of [enumerate]. *)
Definition str_of_nat (i : nat) : str :=
  lit (NilEmpty.string_of_uint (Nat.to_uint i)).

(** [s.rfind(ch)] *)
Definition rfind_char (ch : ascii) (s : str) : Z :=
  let r := find_char ch (rev s) in
  if r <? 0 then -1 else len s - 1 - r.

(** [os.path.basename(p)] *)
Definition basename (p : str) : str :=
  slice_from p (rfind_char "/"%char p + 1).

(** [os.path.splitext(p)[0]]: the extension starts at the last dot of the
    last path component, unless only dots come before it there. *)
Definition splitext_root (p : str) : str :=
  let sepIndex := rfind_char "/"%char p in
  let dotIndex := rfind_char "."%char p in
  if sepIndex <? dotIndex then
    let filenameIndex := sepIndex + 1 in
    if forallb (Ascii.eqb "."%char)
               (slice_to (slice_from p filenameIndex) (dotIndex - filenameIndex))
    then p
    else slice_to p dotIndex
  else p.

Definition between (lo hi : Z) (c : ascii) : bool :=
  let n := Z.of_nat (nat_of_ascii c) in (lo <=? n) && (n <=? hi).

Definition is_digit (c : ascii) : bool := between 48 57 c.

(** The character class [[a-zA-Z0-9-_]]. *)
Definition id_char (c : ascii) : bool :=
  between 97 122 c || between 65 90 c || is_digit c
  || Ascii.eqb c "-"%char || Ascii.eqb c "_"%char.

Definition is_hyphen (c : ascii) : bool := Ascii.eqb c "-"%char.

(** [re.sub(r'[^a-zA-Z0-9-_]', '-', s)] *)
Definition replace_invalid (s : str) : str :=
  map (fun c => if id_char c then c else "-"%char) s.

(** [re.sub(r'-+', '-', s)]: of a run of hyphens only the last is kept. *)
Fixpoint squeeze_hyphens (s : str) : str :=
  match s with
  | [] => []
  | c :: s' =>
      if is_hyphen c
      then match s' with
           | d :: _ => if is_hyphen d then squeeze_hyphens s'
                       else c :: squeeze_hyphens s'
           | [] => [c]
           end
      else c :: squeeze_hyphens s'
  end.

(** The identifier of chunk [i] of the file named [filename]. *)
Definition chunk_id (filename : str) (i : nat) : str :=
  let base_name := splitext_root filename in
  let original_id := base_name ++ lit "_" ++ str_of_nat i in
  let sanitized_id := replace_invalid original_id in
  let sanitized_id := squeeze_hyphens sanitized_id in
  let sanitized_id := strip_by is_hyphen sanitized_id in
  match sanitized_id with
  | [] => lit "doc-" ++ str_of_nat i
  | _ => sanitized_id
  end.

(** A document of the search format.  [d_content] is the chunk text: the
    source stores it base64-encoded and decodes it again before embedding. *)
Record document := {
  d_id : str;
  d_title : str;
  d_source : str;
  d_filename : str;
  d_chunk_index : nat;
  d_total_chunks : nat;
  d_content : str
}.

Definition max_chunk_size : Z := 1000.
Definition overlap : Z := 200.

Definition make_document (doc_path filename : str) (total : nat)
  (ic : nat * str) : document :=
  let '(i, chunk) := ic in
  {| d_id := chunk_id filename i;
     d_title := match i with
                | O => filename
                | _ => filename ++ lit " (Part " ++ str_of_nat (i + 1) ++ lit ")"
                end;
     d_source := doc_path;
     d_filename := filename;
     d_chunk_index := i;
     d_total_chunks := total;
     d_content := chunk |}.

(** The documents built from the text extracted from [doc_path]:
    [for i, chunk in enumerate(chunks)]. *)
Definition documents_of (doc_path : str) (text_content : str) : list document :=
  let filename := basename doc_path in
  let chunks := _split_text text_content max_chunk_size overlap in
  map (make_document doc_path filename (length chunks))
      (combine (seq 0 (length chunks)) chunks).

(** The identifiers of a run, in the order of [all_documents]. *)
Definition run_ids (all_documents : list document) : list str :=
  map d_id all_documents.

End DocId.

(* ------------------------------------------------------------------ *)
(** ** The Embedding Batcher: [_generate_embeddings_batch] and
    [ProductImporter._generate_all_embeddings] *)

Module Embed.
Import Py.

Definition batch_size : nat := 25.

Section Service.

(** The vectors of the embedding service. *)
Variable V : Type.

(** The embedding service: what its [k]-th call of a run answers on a list
    of texts; [None] when the call raises. *)
Variable get_embeddings : nat -> list str -> option (list V).

(** One call, on texts cut to 20000 characters; a failed call gives [None]
    for every text of the batch. *)
Definition _generate_embeddings_batch (k : nat) (texts : list str)
  : list (option V) :=
  match get_embeddings k (map (fun t => slice_to t 20000) texts) with
  | Some result => map (@Some V) result
  | None => repeat None (length texts)
  end.

(** [range(0, n, batch_size)] *)
Definition batch_starts (n : nat) : list nat :=
  map (fun k => (k * batch_size)%nat) (seq 0 ((n + (batch_size - 1)) / batch_size)).

(** [texts[i : i + batch_size]] *)
Definition batch_at {A} (texts : list A) (i : nat) : list A :=
  firstn batch_size (skipn i texts).

(** The batches are sent one after the other; the call for the batch that
    starts at [i] is call number [i / batch_size]. *)
Definition _generate_all_embeddings (texts : list str) : list (option V) :=
  flat_map (fun i => _generate_embeddings_batch (i / batch_size) (batch_at texts i))
           (batch_starts (length texts)).

(** A service that answers one vector per text whenever it answers. *)
Definition one_per_text : Prop :=
  forall k batch result,
    get_embeddings k batch = Some result -> length result = length batch.

End Service.

(** A service for examples: a call raises when its batch holds the text
    [bad]; otherwise every text gets the vector made of its length. *)
Definition failing_on (bad : str) (k : nat) (batch : list str)
  : option (list (list Z)) :=
  if existsb (str_eqb bad) batch then None
  else Some (map (fun t => [len t]) batch).

Arguments _generate_embeddings_batch {V} get_embeddings k texts.
Arguments _generate_all_embeddings {V} get_embeddings texts.
Arguments one_per_text {V} get_embeddings.

End Embed.

(* ------------------------------------------------------------------ *)
(** ** The Catalog Normalizer: the product builders of [ProductImporter] *)

Module Catalog.
Import Py DocId.

Definition BASE_PRODUCT_ID : Z := 9900000000001.
Definition BASE_VARIANT_ID : Z := 9900000100001.

(** A cell of a parsed row: text (CSV), a number (JSON, spreadsheets) or a
    missing value. *)
Inductive cell :=
| CStr (s : str)
| CInt (z : Z)
| CNull.

(** A parsed row: the column names with their cells, in file order. *)
Definition row := list (str * cell).

(** [c.lower()] on one character.  [str] holds code points below 256 only;
    the characters beyond, some of which [str.lower] maps to ASCII letters
    (the Kelvin sign to k), are outside the model. *)
Definition lower_char (c : ascii) : ascii :=
  if between 65 90 c
     || (between 192 222 c && negb (Nat.eqb (nat_of_ascii c) 215))
  then ascii_of_nat (nat_of_ascii c + 32)
  else c.

Definition lower (s : str) : str := map lower_char s.

(** [str(z)] *)
Definition str_of_Z (z : Z) : str := lit (NilEmpty.string_of_int (Z.to_int z)).

(** [row_lower.get(key, "")] for [row_lower = {k.lower().strip(): v ...}]:
    of the columns with the same normalised name the last one counts. *)
Definition row_lower_get (r : row) (key : str) : cell :=
  fold_left (fun acc kv => if str_eqb (strip (lower (fst kv))) key
                           then snd kv else acc)
            r (CStr []).

(** [_get_col(row, *keys)]: the first non-empty value among the columns
    [keys], or the empty string. *)
Fixpoint _get_col (r : row) (keys : list str) : str :=
  match keys with
  | [] => []
  | key :: keys' =>
      match row_lower_get r (strip (lower key)) with
      | CStr s =>
          match strip s with
          | [] => _get_col r keys'
          | val => val
          end
      | CInt z => if (z =? 0)%Z then _get_col r keys' else str_of_Z z
      | CNull => _get_col r keys'
      end
  end.

(** [x or None] *)
Definition or_none (s : str) : option str :=
  match s with [] => None | _ => Some s end.

(** [x or default] *)
Definition or_else (s default : str) : str :=
  match s with [] => default | _ => s end.

(** [sep.join(parts)] *)
Fixpoint join (sep : str) (parts : list str) : str :=
  match parts with
  | [] => []
  | [p] => p
  | p :: rest => p ++ sep ++ join sep rest
  end.

(** [enumerate(l)] *)
Definition enumerate {A} (l : list A) : list (nat * A) :=
  combine (seq 0 (length l)) l.

(** A variant of a Shopify product ([raw_data["variants"]]); the inventory
    fields, which no property below reads, are left out. *)
Record variant := {
  v_id : Z;
  v_product_id : Z;
  v_title : str;
  v_price : str;
  v_compare_at_price : option str;
  v_sku : option str;
  v_position : Z;
  v_option1 : option str;
  v_option2 : option str;
  v_option3 : option str
}.

(** A Shopify product as built by the normaliser; of [raw_data] the
    variants are kept (options and images are left out). *)
Record shopify_product := {
  shopify_product_id : Z;
  sp_title : str;
  sp_vendor : str;
  sp_product_type : str;
  sp_handle : str;
  sp_status : str;
  sp_body_html : str;
  sp_tags : str;
  sp_variants : list variant
}.

(** *** Grouped-export mode: [_build_shopify_products_from_csv] *)

(** [groups.setdefault(handle, []).append(row)] on an insertion-ordered
    dictionary. *)
Fixpoint group_add (groups : list (str * list row)) (handle : str) (r : row)
  : list (str * list row) :=
  match groups with
  | [] => [(handle, [r])]
  | (h, rs) :: groups' =>
      if str_eqb h handle then (h, rs ++ [r]) :: groups'
      else (h, rs) :: group_add groups' handle r
  end.

Definition group_by_handle (rows : list row) : list (str * list row) :=
  fold_left (fun groups r =>
               match _get_col r [lit "Handle"] with
               | [] => groups
               | handle => group_add groups handle r
               end)
            rows [].

Definition has_price (r : row) : bool :=
  match _get_col r [lit "Variant Price"] with [] => false | _ => true end.

(** The loop over the rows of a group that builds its variants;
    [variant_idx] counts the variants built so far. *)
Fixpoint build_variants (idx : nat) (product_id : Z) (variant_idx : nat)
  (group_rows : list row) : list variant :=
  match group_rows with
  | [] => []
  | r :: rest =>
      match _get_col r [lit "Variant Price"] with
      | [] => build_variants idx product_id variant_idx rest
      | price =>
          let variant_id :=
            (BASE_VARIANT_ID + Z.of_nat idx * 100 + Z.of_nat variant_idx)%Z in
          let opt1 := or_none (_get_col r [lit "Option1 Value"]) in
          let opt2 := or_none (_get_col r [lit "Option2 Value"]) in
          let opt3 := or_none (_get_col r [lit "Option3 Value"]) in
          let parts := flat_map (fun o => match o with Some v => [v] | None => [] end)
                                [opt1; opt2; opt3] in
          let variant_title :=
            match parts with [] => lit "Default" | _ => join (lit " / ") parts end in
          {| v_id := variant_id;
             v_product_id := product_id;
             v_title := variant_title;
             v_price := price;
             v_compare_at_price := or_none (_get_col r [lit "Variant Compare At Price"]);
             v_sku := or_none (_get_col r [lit "Variant SKU"]);
             v_position := Z.of_nat variant_idx + 1;
             v_option1 := opt1; v_option2 := opt2; v_option3 := opt3 |}
            :: build_variants idx product_id (variant_idx + 1) rest
      end
  end.

(** The body of [for idx, (handle, group_rows) in enumerate(groups.items())];
    a group holds at least the row that created it. *)
Definition build_group (ig : nat * (str * list row)) : shopify_product :=
  let '(idx, (handle, group_rows)) := ig in
  let first := hd [] group_rows in
  let product_id := (BASE_PRODUCT_ID + Z.of_nat idx)%Z in
  {| shopify_product_id := product_id;
     sp_title := _get_col first [lit "Title"];
     sp_vendor := _get_col first [lit "Vendor"];
     sp_product_type := _get_col first [lit "Type"; lit "Product Type"];
     sp_handle := handle;
     sp_status := or_else (_get_col first [lit "Status"]) (lit "active");
     sp_body_html := _get_col first [lit "Body (HTML)"; lit "Body"];
     sp_tags := _get_col first [lit "Tags"];
     sp_variants := build_variants idx product_id 0 group_rows |}.

Definition _build_shopify_products_from_csv (rows : list row)
  : list shopify_product :=
  map build_group (enumerate (group_by_handle rows)).

(** *** Generic mode: [_build_shopify_products_generic] *)

Definition slug_char (c : ascii) : bool := between 97 122 c || is_digit c.

(** [re.sub(r"[^a-z0-9]+", "-", s)]: a run of other characters becomes one
    hyphen. *)
Fixpoint hyphenate (s : str) : str :=
  match s with
  | [] => []
  | c :: s' =>
      if slug_char c then c :: hyphenate s'
      else match s' with
           | d :: _ => if slug_char d then "-"%char :: hyphenate s'
                       else hyphenate s'
           | [] => ["-"%char]
           end
  end.

(** [re.sub(r"[^a-z0-9]+", "-", title.lower()).strip("-")] *)
Definition slugify (title : str) : str :=
  strip_by is_hyphen (hyphenate (lower title)).

Definition build_generic (ir : nat * row) : list shopify_product :=
  let '(idx, r) := ir in
  let product_id := (BASE_PRODUCT_ID + Z.of_nat idx)%Z in
  match _get_col r [lit "title"; lit "name"; lit "product_name"; lit "product_title"] with
  | [] => []
  | title =>
      let handle :=
        match _get_col r [lit "handle"; lit "slug"; lit "url"] with
        | [] => slugify title
        | h => h
        end in
      let price := or_else (_get_col r [lit "price"; lit "variant_price"; lit "amount"])
                           (lit "0") in
      let variant :=
        {| v_id := (BASE_VARIANT_ID + Z.of_nat idx * 100)%Z;
           v_product_id := product_id;
           v_title := lit "Default";
           v_price := price;
           v_compare_at_price :=
             or_none (_get_col r [lit "compare_at_price"; lit "original_price";
                                  lit "compare_price"]);
           v_sku := None;
           v_position := 1;
           v_option1 := Some (lit "Default");
           v_option2 := None; v_option3 := None |} in
      [ {| shopify_product_id := product_id;
           sp_title := title;
           sp_vendor := _get_col r [lit "vendor"; lit "brand"];
           sp_product_type := _get_col r [lit "type"; lit "product_type"; lit "category"];
           sp_handle := handle;
           sp_status := lit "active";
           sp_body_html := _get_col r [lit "description"; lit "body"; lit "body_html";
                                       lit "body (html)"];
           sp_tags := _get_col r [lit "tags"];
           sp_variants := [variant] |} ]
  end.

Definition _build_shopify_products_generic (rows : list row)
  : list shopify_product :=
  flat_map build_generic (enumerate rows).

(** [any("Handle" in row or "handle" in row for row in rows[:3])] *)
Definition has_handle (rows : list row) : bool :=
  existsb (fun r => existsb (fun kv => str_eqb (fst kv) (lit "Handle")
                                       || str_eqb (fst kv) (lit "handle")) r)
          (firstn 3 rows).

(** The Shopify products of a file, as [_import_shopify] builds them. *)
Definition shopify_products (rows : list row) : list shopify_product :=
  if has_handle rows then _build_shopify_products_from_csv rows
  else _build_shopify_products_generic rows.

(** *** WooCommerce: the product loop of [_import_woocommerce] *)

Record wc_product := {
  wc_product_id : Z;
  wc_name : str;
  wc_slug : str;
  wc_sku : str;
  wc_type : str;
  wc_status : str;
  wc_price : str;
  wc_sale_price : str;
  wc_description : str;
  wc_tags_str : str;
  wc_variations : list Z      (* [raw_data["variations"]] *)
}.

Definition build_wc (ir : nat * row) : list wc_product :=
  let '(idx, r) := ir in
  let product_id := (BASE_PRODUCT_ID + Z.of_nat idx)%Z in
  match _get_col r [lit "name"; lit "title"; lit "product_name"; lit "product_title"] with
  | [] => []
  | name =>
      [ {| wc_product_id := product_id;
           wc_name := name;
           wc_slug := match _get_col r [lit "slug"; lit "handle"; lit "url"] with
                      | [] => slugify name
                      | s => s
                      end;
           wc_sku := _get_col r [lit "sku"];
           wc_type := or_else (_get_col r [lit "type"; lit "product_type"]) (lit "simple");
           wc_status := or_else (_get_col r [lit "status"]) (lit "publish");
           wc_price := or_else (_get_col r [lit "price"; lit "regular_price";
                                            lit "variant_price"; lit "amount"]) (lit "0");
           wc_sale_price := _get_col r [lit "sale_price"];
           wc_description := _get_col r [lit "description"; lit "body"; lit "body_html"];
           wc_tags_str := _get_col r [lit "tags"];
           wc_variations := [] |} ]
  end.

Definition woocommerce_products (rows : list row) : list wc_product :=
  flat_map build_wc (enumerate rows).

(** *** Squarespace: the product loop of [_import_squarespace] *)

(** A price as the loop holds it: the float read from a literal of digits
    and dots, or the integer [0].  [float] itself is not interpreted: the
    number is held by the literal it was read from. *)
Inductive number :=
| Float (literal : str)
| Zero.

(** The characters left by the [re.sub] that removes what is neither a
    digit nor a dot. *)
Definition digit_or_dot (c : ascii) : bool := is_digit c || Ascii.eqb c "."%char.

(** [float(s)] on a string of digits and dots raises [ValueError] unless
    the string has a digit and at most one dot. *)
Definition float_literal (s : str) : bool :=
  existsb is_digit s && (length (filter (Ascii.eqb "."%char) s) <=? 1)%nat.

(** The price of a product: [float] of the digits and dots of [price_str]
    when [price_str] is not empty, and [0] when it is empty or [float]
    raises [ValueError]. *)
Definition parse_price (price_str : str) : number :=
  match price_str with
  | [] => Zero
  | _ =>
      let literal := filter digit_or_dot price_str in
      if float_literal literal then Float literal else Zero
  end.

Record sq_product := {
  squarespace_product_id : str;
  sq_title : str;
  sq_description : str;
  sq_handle : str;
  sq_product_type : str;
  sq_sku : str;
  sq_price : number;
  sq_stock : str;
  sq_tags_str : str
}.

Definition build_sq (ir : nat * row) : list sq_product :=
  let '(idx, r) := ir in
  let product_id_str := str_of_Z (BASE_PRODUCT_ID + Z.of_nat idx) in
  match _get_col r [lit "title"; lit "name"; lit "product_name"] with
  | [] => []
  | title =>
      [ {| squarespace_product_id := product_id_str;
           sq_title := title;
           sq_description := _get_col r [lit "description"; lit "body"; lit "body_html"];
           sq_handle := match _get_col r [lit "handle"; lit "slug"; lit "url"] with
                        | [] => slugify title
                        | h => h
                        end;
           sq_product_type := or_else (_get_col r [lit "type"; lit "product_type"])
                                      (lit "PHYSICAL");
           sq_sku := _get_col r [lit "sku"];
           sq_price := parse_price (or_else (_get_col r [lit "price"; lit "regular_price";
                                                             lit "amount"]) (lit "0"));
           sq_stock := or_else (_get_col r [lit "stock"; lit "inventory"; lit "quantity"])
                               (lit "Unlimited");
           sq_tags_str := _get_col r [lit "tags"] |} ]
  end.

Definition squarespace_products (rows : list row) : list sq_product :=
  flat_map build_sq (enumerate rows).

(** *** Rows as the parsers return them *)

(** A row of a parsed file, whatever its keys.  A key that is not a string
    is [None]: [csv.DictReader] files the surplus fields of a line under the
    key [None], and a spreadsheet may have numbers for column names. *)
Definition parsed_row := list (option str * cell).

(** The row, when all its keys are strings; on any other row the
    comprehension [k.lower().strip()] of [_get_col] raises
    [AttributeError]. *)
Fixpoint named_row (r : parsed_row) : option row :=
  match r with
  | [] => Some []
  | (Some k, v) :: r' =>
      match named_row r' with
      | Some named => Some ((k, v) :: named)
      | None => None
      end
  | (None, _) :: _ => None
  end.

Fixpoint named_rows (rows : list parsed_row) : option (list row) :=
  match rows with
  | [] => Some []
  | r :: rows' =>
      match named_row r, named_rows rows' with
      | Some named, Some rest => Some (named :: rest)
      | _, _ => None
      end
  end.

End Catalog.

(* ------------------------------------------------------------------ *)
(** ** The Ingestion Coordinator: storage in the relational store

    The tables the handlers write, a connection with its open transaction,
    and the statements of [ProductImporter.import_products],
    [DocumentConverter._store_document_embeddings] and
    [DocumentConverter.convert_documents]. *)

Module Store.
Import Py DocId Embed Catalog.
Set Implicit Arguments.

Inductive platform := Shopify | WooCommerce | Squarespace.

(** A product as handed to the INSERT of its platform table. *)
Inductive item :=
| ShopifyItem (p : shopify_product)
| WcItem (p : wc_product)
| SqItem (p : sq_product).

Definition platform_of (it : item) : platform :=
  match it with
  | ShopifyItem _ => Shopify
  | WcItem _ => WooCommerce
  | SqItem _ => Squarespace
  end.

Definition platform_eqb (a b : platform) : bool :=
  match a, b with
  | Shopify, Shopify | WooCommerce, WooCommerce | Squarespace, Squarespace => true
  | _, _ => false
  end.

(** What the extraction of chunk data keeps of a document. *)
Record chunk_data := {
  cd_content : str;
  cd_title : str;
  cd_source : str;
  cd_chunk_index : nat;
  cd_total_chunks : nat
}.

Section Tables.

(** The embedding vectors. *)
Variable V : Type.

(** A row of a [*_stores] table of a platform. *)
Record store_row := {
  st_platform : platform;
  st_id : Z;
  st_merchant_id : str;
  st_url : str;            (* shop_domain, store_url or site_url *)
  st_name : str
}.

(** A row of the products table of a platform; [pr_embedding = None] is a
    row whose vector column is unset. *)
Record product_row := {
  pr_id : Z;
  pr_item : item;
  pr_store_id : Z;
  pr_merchant_id : str;
  pr_embedding : option V
}.

(** A row of [squarespace_sync.squarespace_variants]. *)
Record variant_row := {
  vr_product_id : Z;
  vr_variant_id : str;
  vr_sku : str;
  vr_price : number;
  vr_stock : str;
  vr_option1_name : str;
  vr_option1_value : str
}.

(** A row of [public.document_chunks]. *)
Record chunk_row := {
  cr_merchant_id : str;
  cr_content : str;
  cr_title : str;
  cr_source : str;
  cr_chunk_index : nat;
  cr_total_chunks : nat;
  cr_embedding : V
}.

Record tables := {
  stores : list store_row;
  products : list product_row;
  sq_variants : list variant_row;
  document_chunks : list chunk_row
}.

(** A pooled connection: the committed tables, the tables as the open
    transaction sees them, the number of statements sent so far and the
    next value of the row-id sequences. *)
Record conn := {
  committed : tables;
  working : tables;
  executed : nat;
  next_id : Z
}.

Inductive exn := DatabaseError | ValueError | BlobError | AttributeError.

Inductive outcome (A : Type) :=
| Ok (a : A)
| Raised (e : exn).
Arguments Ok {A} a.
Arguments Raised {A} e.

(** Code that uses the connection and may raise. *)
Definition M (A : Type) : Type := conn -> outcome A * conn.

Definition ret {A} (a : A) : M A := fun c => (Ok a, c).

Definition bind {A B} (m : M A) (k : A -> M B) : M B :=
  fun c => match m c with
           | (Ok a, c') => k a c'
           | (Raised e, c') => (Raised e, c')
           end.

Definition raise {A} (e : exn) : M A := fun c => (Raised e, c).

Notation "x <- m ;; k" := (bind m (fun x => k))
  (at level 61, m at next level, right associativity).
Notation "m ;;; k" := (bind m (fun _ => k))
  (at level 61, right associativity).

(** The store fails at the statements chosen by [fails], counted on the
    connection. *)
Variable fails : nat -> bool.

Definition sent (c : conn) : conn :=
  {| committed := committed c; working := working c;
     executed := S (executed c); next_id := next_id c |}.

Definition with_working (c : conn) (t : tables) : conn :=
  {| committed := committed c; working := t;
     executed := executed c; next_id := next_id c |}.

(** [cursor.execute(...)] of a statement that changes rows. *)
Definition execute (stmt : tables -> tables) : M unit :=
  fun c => if fails (executed c) then (Raised DatabaseError, sent c)
           else (Ok tt, with_working (sent c) (stmt (working c))).

(** [cursor.execute(INSERT ...)] into a table with a generated row id. *)
Definition execute_insert (stmt : Z -> tables -> tables) : M unit :=
  fun c => if fails (executed c) then (Raised DatabaseError, sent c)
           else (Ok tt,
                 {| committed := committed c;
                    working := stmt (next_id c) (working c);
                    executed := S (executed c);
                    next_id := next_id c + 1 |}).

(** [cursor.execute(SELECT ...)] followed by [cursor.fetchone()]. *)
Definition fetchone {A} (q : tables -> option A) : M (option A) :=
  fun c => if fails (executed c) then (Raised DatabaseError, sent c)
           else (Ok (q (working c)), sent c).

(** [conn.commit()] *)
Definition commit : M unit :=
  fun c => if fails (executed c) then (Raised DatabaseError, sent c)
           else (Ok tt,
                 {| committed := working c; working := working c;
                    executed := S (executed c); next_id := next_id c |}).

(** [conn.rollback()] *)
Definition rollback (c : conn) : conn := with_working c (committed c).

(** *** Statements *)

Definition set_stores (t : tables) (s : list store_row) : tables :=
  {| stores := s; products := products t;
     sq_variants := sq_variants t; document_chunks := document_chunks t |}.

Definition set_products (t : tables) (p : list product_row) : tables :=
  {| stores := stores t; products := p;
     sq_variants := sq_variants t; document_chunks := document_chunks t |}.

Definition set_sq_variants (t : tables) (v : list variant_row) : tables :=
  {| stores := stores t; products := products t;
     sq_variants := v; document_chunks := document_chunks t |}.

Definition set_document_chunks (t : tables) (d : list chunk_row) : tables :=
  {| stores := stores t; products := products t;
     sq_variants := sq_variants t; document_chunks := d |}.

Definition of_merchant (pf : platform) (merchant_id : str) (r : product_row) : bool :=
  platform_eqb (platform_of (pr_item r)) pf && str_eqb (pr_merchant_id r) merchant_id.

(** [DELETE FROM <platform products> WHERE merchant_id = %s]; the variants
    of deleted Squarespace products go with them (cascade). *)
Definition delete_products (pf : platform) (merchant_id : str) (t : tables) : tables :=
  let gone := filter (of_merchant pf merchant_id) (products t) in
  let kept := filter (fun r => negb (of_merchant pf merchant_id r)) (products t) in
  let t := set_products t kept in
  match pf with
  | Squarespace =>
      set_sq_variants t
        (filter (fun v => negb (existsb (fun r => (pr_id r =? vr_product_id v)%Z) gone))
                (sq_variants t))
  | _ => t
  end.

(** [INSERT INTO <platform products> ...], with or without the vector. *)
Definition insert_product (it : item) (store_id : Z) (merchant_id : str)
  (embedding : option V) (id : Z) (t : tables) : tables :=
  set_products t
    (products t ++ [ {| pr_id := id; pr_item := it; pr_store_id := store_id;
                        pr_merchant_id := merchant_id;
                        pr_embedding := embedding |} ]).

(** [DELETE FROM public.document_chunks WHERE merchant_id = %s] *)
Definition delete_chunks (merchant_id : str) (t : tables) : tables :=
  set_document_chunks t
    (filter (fun r => negb (str_eqb (cr_merchant_id r) merchant_id))
            (document_chunks t)).

Definition chunk_row_of (merchant_id : str) (chunk : chunk_data) (embedding : V)
  : chunk_row :=
  {| cr_merchant_id := merchant_id;
     cr_content := cd_content chunk;
     cr_title := cd_title chunk;
     cr_source := cd_source chunk;
     cr_chunk_index := cd_chunk_index chunk;
     cr_total_chunks := cd_total_chunks chunk;
     cr_embedding := embedding |}.

(** [INSERT INTO public.document_chunks ...] *)
Definition insert_chunk (merchant_id : str) (chunk : chunk_data) (embedding : V)
  (t : tables) : tables :=
  set_document_chunks t
    (document_chunks t ++ [chunk_row_of merchant_id chunk embedding]).

(** *** The store entry of a merchant: [_ensure_store_entry] *)

(** [x or default] for an optional argument. *)
Definition or_default (o : option str) (default : str) : str :=
  match o with
  | Some (c :: s) => c :: s
  | _ => default
  end.

Fixpoint starts_with (pat s : str) : bool :=
  match pat, s with
  | [], _ => true
  | p :: pat', c :: s' => Ascii.eqb p c && starts_with pat' s'
  | _ :: _, [] => false
  end.

(** [s.replace(pat, "")] for a non-empty [pat]; [skip] characters of an
    occurrence are still to be dropped. *)
Fixpoint remove_from (pat s : str) (skip : nat) : str :=
  match s with
  | [] => []
  | c :: s' =>
      match skip with
      | S k => remove_from pat s' k
      | O => if starts_with pat s then remove_from pat s' (length pat - 1)
             else c :: remove_from pat s' 0
      end
  end.

Definition remove_all (pat s : str) : str := remove_from pat s 0.

Definition shop_domain (shop_url : str) : str :=
  rstrip_by (Ascii.eqb "/"%char)
            (remove_all (lit "http://") (remove_all (lit "https://") shop_url)).

Definition store_by_url (pf : platform) (url : str) (r : store_row) : bool :=
  platform_eqb (st_platform r) pf && str_eqb (st_url r) url.

Definition store_by_merchant (pf : platform) (merchant_id : str) (r : store_row) : bool :=
  platform_eqb (st_platform r) pf && str_eqb (st_merchant_id r) merchant_id.

(** [INSERT ... ON CONFLICT (shop_domain) DO UPDATE SET merchant_id = ...] *)
Definition upsert_shopify_store (merchant_id domain : str) (id : Z) (t : tables)
  : tables :=
  set_stores t
    (if existsb (store_by_url Shopify domain) (stores t)
     then map (fun r => if store_by_url Shopify domain r
                        then {| st_platform := Shopify; st_id := st_id r;
                                st_merchant_id := merchant_id;
                                st_url := st_url r; st_name := st_name r |}
                        else r)
              (stores t)
     else stores t ++ [ {| st_platform := Shopify; st_id := id;
                           st_merchant_id := merchant_id;
                           st_url := domain; st_name := [] |} ]).

(** [INSERT ... ON CONFLICT (merchant_id) DO NOTHING] *)
Definition insert_store_once (pf : platform) (merchant_id shop_url shop_name : str)
  (id : Z) (t : tables) : tables :=
  set_stores t
    (if existsb (store_by_merchant pf merchant_id) (stores t)
     then stores t
     else stores t ++ [ {| st_platform := pf; st_id := id;
                           st_merchant_id := merchant_id;
                           st_url := shop_url; st_name := shop_name |} ]).

Definition _ensure_store_entry (merchant_id : str) (pf : platform)
  (shop_url shop_name : option str) : M Z :=
  let shop_url := or_default shop_url (lit "https://" ++ merchant_id ++ lit ".com") in
  let shop_name := or_default shop_name merchant_id in
  match pf with
  | Shopify =>
      let domain := shop_domain shop_url in
      execute_insert (upsert_shopify_store merchant_id domain) ;;;
      row <- fetchone (fun t => option_map st_id
                                  (find (store_by_url Shopify domain) (stores t))) ;;
      match row with
      | None => raise ValueError
      | Some id => ret id
      end
  | _ =>
      execute_insert (insert_store_once pf merchant_id shop_url shop_name) ;;;
      row <- fetchone (fun t => option_map st_id
                                  (find (store_by_merchant pf merchant_id) (stores t))) ;;
      match row with
      | None => raise ValueError
      | Some id => ret id
      end
  end.

(** *** The platform imports *)

(** The embedding service and the HTML stripper of the importer. *)
Variable get_embeddings : nat -> list str -> option (list V).
Variable strip_html : str -> str.

(** [f"{a} {b} {c} {d}".strip()] *)
Definition embed_text (a b c d : str) : str :=
  strip (a ++ lit " " ++ b ++ lit " " ++ c ++ lit " " ++ d).

(** The text embedded for a product: its title, the text of its
    description, its tags and its type, joined by spaces and stripped. *)
Definition shopify_embed_text (p : shopify_product) : str :=
  embed_text (sp_title p) (strip_html (sp_body_html p)) (sp_tags p) (sp_product_type p).

Definition wc_embed_text (p : wc_product) : str :=
  embed_text (wc_name p) (strip_html (wc_description p)) (wc_tags_str p) (wc_type p).

Definition sq_embed_text (p : sq_product) : str :=
  embed_text (sq_title p) (strip_html (sq_description p)) (sq_tags_str p)
             (sq_product_type p).

(** [for product, embedding in zip(products, embeddings)]: one INSERT for
    each product, with the vector when there is one and without it
    otherwise. *)
Fixpoint insert_items (store_id : Z) (merchant_id : str)
  (items : list (item * option V)) (inserted : nat) : M nat :=
  match items with
  | [] => ret inserted
  | (it, embedding) :: rest =>
      execute_insert (insert_product it store_id merchant_id embedding) ;;;
      insert_items store_id merchant_id rest (inserted + 1)
  end.

Definition _import_shopify (merchant_id : str) (store_id : Z) (rows : list row)
  : M nat :=
  execute (delete_products Shopify merchant_id) ;;;
  match shopify_products rows with
  | [] => ret 0%nat
  | products =>
      let embed_texts := map shopify_embed_text products in
      let embeddings := _generate_all_embeddings get_embeddings embed_texts in
      insert_items store_id merchant_id
                   (combine (map ShopifyItem products) embeddings) 0
  end.

Definition _import_woocommerce (merchant_id : str) (store_id : Z) (rows : list row)
  : M nat :=
  execute (delete_products WooCommerce merchant_id) ;;;
  match woocommerce_products rows with
  | [] => ret 0%nat
  | products =>
      let embed_texts := map wc_embed_text products in
      let embeddings := _generate_all_embeddings get_embeddings embed_texts in
      insert_items store_id merchant_id
                   (combine (map WcItem products) embeddings) 0
  end.

Definition is_sq_product (product_id merchant_id : str) (r : product_row) : bool :=
  match pr_item r with
  | SqItem p => str_eqb (squarespace_product_id p) product_id
                && str_eqb (pr_merchant_id r) merchant_id
  | _ => false
  end.

(** [INSERT INTO squarespace_sync.squarespace_variants ...] of the default
    variant. *)
Definition insert_default_variant (db_product_id : Z) (p : sq_product) (t : tables)
  : tables :=
  set_sq_variants t
    (sq_variants t ++ [ {| vr_product_id := db_product_id;
                           vr_variant_id := lit "var-" ++ squarespace_product_id p;
                           vr_sku := sq_sku p;
                           vr_price := sq_price p;
                           vr_stock := sq_stock p;
                           vr_option1_name := lit "Default";
                           vr_option1_value := lit "Default" |} ]).

(** The insert loop of Squarespace: the product row, then the look-up of its
    row id, then its default variant. *)
Fixpoint insert_sq_items (store_id : Z) (merchant_id : str)
  (items : list (sq_product * option V)) (inserted : nat) : M nat :=
  match items with
  | [] => ret inserted
  | (p, embedding) :: rest =>
      execute_insert (insert_product (SqItem p) store_id merchant_id embedding) ;;;
      row <- fetchone (fun t => option_map pr_id
                         (find (is_sq_product (squarespace_product_id p) merchant_id)
                               (products t))) ;;
      match row with
      | Some db_product_id =>
          if (db_product_id =? 0)%Z then ret tt
          else execute (insert_default_variant db_product_id p)
      | None => ret tt
      end ;;;
      insert_sq_items store_id merchant_id rest (inserted + 1)
  end.

Definition _import_squarespace (merchant_id : str) (store_id : Z) (rows : list row)
  : M nat :=
  execute (delete_products Squarespace merchant_id) ;;;
  match squarespace_products rows with
  | [] => ret 0%nat
  | products =>
      let embed_texts := map sq_embed_text products in
      let embeddings := _generate_all_embeddings get_embeddings embed_texts in
      insert_sq_items store_id merchant_id (combine products embeddings) 0
  end.

(** The result of [import_products]. *)
Record summary := {
  product_count : nat;
  store_id : option Z;
  summary_platform : option platform
}.

(** The body of the [try] of [import_products]. *)
Definition import_body (merchant_id : str) (pf : platform) (rows : list row)
  (shop_url shop_name : option str) : M summary :=
  store_id <- _ensure_store_entry merchant_id pf shop_url shop_name ;;
  count <- match pf with
           | Shopify => _import_shopify merchant_id store_id rows
           | WooCommerce => _import_woocommerce merchant_id store_id rows
           | Squarespace => _import_squarespace merchant_id store_id rows
           end ;;
  commit ;;;
  ret {| product_count := count; store_id := Some store_id;
         summary_platform := Some pf |}.

(** [import_products], from the parsed rows on, for rows whose keys are all
    strings: [except: conn.rollback(); raise]. *)
Definition import_products (merchant_id : str) (pf : platform) (rows : list row)
  (shop_url shop_name : option str) : M summary :=
  match rows with
  | [] => ret {| product_count := 0; store_id := None; summary_platform := None |}
  | _ =>
      fun c =>
        match import_body merchant_id pf rows shop_url shop_name c with
        | (Ok r, c') => (Ok r, c')
        | (Raised e, c') => (Raised e, rollback c')
        end
  end.

(** [import_products], from the parsed rows on, whatever their keys.  Every
    builder reads every row with [_get_col] before the first INSERT and
    after the DELETE of its platform; on a row with a key that is not a
    string that call raises [AttributeError], which the [except] of
    [import_products] answers with the rollback and raises again. *)
Definition import_parsed_rows (merchant_id : str) (pf : platform)
  (rows : list parsed_row) (shop_url shop_name : option str) : M summary :=
  match named_rows rows with
  | Some named => import_products merchant_id pf named shop_url shop_name
  | None =>
      fun c =>
        match (_ensure_store_entry merchant_id pf shop_url shop_name ;;;
               execute (delete_products pf merchant_id) ;;;
               raise (A := summary) AttributeError) c with
        | (Ok r, c') => (Ok r, c')
        | (Raised e, c') => (Raised e, rollback c')
        end
  end.

(** *** Document chunks: [_store_document_embeddings] *)

(** The chunk data of a document; documents whose content is blank are
    passed over. *)
Definition chunk_data_of (doc : document) : list chunk_data :=
  match strip (d_content doc) with
  | [] => []
  | _ => [ {| cd_content := d_content doc;
              cd_title := d_title doc;
              cd_source := d_source doc;
              cd_chunk_index := d_chunk_index doc;
              cd_total_chunks := d_total_chunks doc |} ]
  end.

(** [for chunk, embedding in zip(batch, embeddings)], with the counter
    [stored], which is also what is known of it when a statement raises. *)
Fixpoint insert_chunks (merchant_id : str) (items : list (chunk_data * option V))
  (stored : nat) (c : conn) : outcome unit * nat * conn :=
  match items with
  | [] => (Ok tt, stored, c)
  | (chunk, None) :: rest => insert_chunks merchant_id rest stored c
  | (chunk, Some embedding) :: rest =>
      match execute (insert_chunk merchant_id chunk embedding) c with
      | (Ok _, c') => insert_chunks merchant_id rest (stored + 1) c'
      | (Raised e, c') => (Raised e, stored, c')
      end
  end.

(** [for i in range(0, len(chunk_data), batch_size)] *)
Fixpoint store_batches (merchant_id : str) (chunks : list chunk_data)
  (starts : list nat) (stored : nat) (c : conn) : outcome unit * nat * conn :=
  match starts with
  | [] => (Ok tt, stored, c)
  | i :: starts' =>
      let batch := batch_at chunks i in
      let texts := map cd_content batch in
      let embeddings :=
        _generate_embeddings_batch get_embeddings (i / batch_size) texts in
      match insert_chunks merchant_id (combine batch embeddings) stored c with
      | (Ok _, stored', c') => store_batches merchant_id chunks starts' stored' c'
      | failed => failed
      end
  end.

(** [_store_document_embeddings]: every exception is caught, the
    transaction rolled back and [stored] returned. *)
Definition _store_document_embeddings (merchant_id : str)
  (documents : list document) (c : conn) : nat * conn :=
  match execute (delete_chunks merchant_id) c with
  | (Raised _, c1) => (0%nat, rollback c1)
  | (Ok _, c1) =>
      match flat_map chunk_data_of documents with
      | [] =>
          match commit c1 with
          | (Ok _, c2) => (0%nat, c2)
          | (Raised _, c2) => (0%nat, rollback c2)
          end
      | chunks =>
          match store_batches merchant_id chunks
                              (batch_starts (length chunks)) 0 c1 with
          | (Ok _, stored, c2) =>
              match commit c2 with
              | (Ok _, c3) => (stored, c3)
              | (Raised _, c3) => (stored, rollback c3)
              end
          | (Raised _, stored, c2) => (stored, rollback c2)
          end
      end
  end.

(** *** The items of a run *)

(** The products of a file with their embeddings, as the insert loop of the
    platform pairs them: [zip(products, embeddings)]. *)
Definition platform_items (pf : platform) (rows : list row)
  : list (item * option V) :=
  match pf with
  | Shopify =>
      let products := shopify_products rows in
      combine (map ShopifyItem products)
              (_generate_all_embeddings get_embeddings
                 (map shopify_embed_text products))
  | WooCommerce =>
      let products := woocommerce_products rows in
      combine (map WcItem products)
              (_generate_all_embeddings get_embeddings (map wc_embed_text products))
  | Squarespace =>
      let products := squarespace_products rows in
      map (fun pe => (SqItem (fst pe), snd pe))
          (combine products
                   (_generate_all_embeddings get_embeddings
                      (map sq_embed_text products)))
  end.

(** The chunks of the batches that start at [starts], with their
    embeddings: [zip(batch, embeddings)] batch after batch. *)
Definition chunk_items (chunks : list chunk_data) (starts : list nat)
  : list (chunk_data * option V) :=
  flat_map (fun i =>
              let batch := batch_at chunks i in
              combine batch
                      (_generate_embeddings_batch get_embeddings (i / batch_size)
                         (map cd_content batch)))
           starts.

(** *** Reading the outcome of a transaction *)

(** Code that leaves the committed tables alone. *)
Definition keeps_committed {A} (m : M A) : Prop :=
  forall c, committed (snd (m c)) = committed c.

(** All or nothing: after a normal return everything the transaction did
    is committed; after an exception the committed tables are those of
    before and the transaction is rolled back. *)
Definition all_or_nothing {A} (c : conn) (res : outcome A * conn) : Prop :=
  match res with
  | (Ok _, c') => committed c' = working c'
  | (Raised _, c') => committed c' = committed c /\ working c' = committed c
  end.

(** Some statement sent between two states of the connection failed. *)
Definition failed_between (c c' : conn) : Prop :=
  exists n, (executed c <= n < executed c')%nat /\ fails n = true.

(** No statement sent between two states of the connection failed. *)
Definition quiet_between (c c' : conn) : Prop :=
  (executed c <= executed c')%nat
  /\ forall n, (executed c <= n < executed c')%nat -> fails n = false.

(** Code that returns normally only when none of its statements failed. *)
Definition tracks {A} (m : M A) : Prop :=
  forall c, match m c with
            | (Ok _, c') => quiet_between c c'
            | (Raised _, c') => (executed c <= executed c')%nat
            end.

(** The rows the insert loop of a platform adds, with the row ids from
    [id] on. *)
Fixpoint product_rows (store_id : Z) (merchant_id : str) (id : Z)
  (items : list (item * option V)) : list product_row :=
  match items with
  | [] => []
  | (it, embedding) :: rest =>
      {| pr_id := id; pr_item := it; pr_store_id := store_id;
         pr_merchant_id := merchant_id; pr_embedding := embedding |}
        :: product_rows store_id merchant_id (id + 1) rest
  end.

(** The chunks of a batch that have a vector. *)
Definition embedded (items : list (chunk_data * option V)) : list (chunk_data * V) :=
  flat_map (fun ce => match snd ce with
                      | Some v => [(fst ce, v)]
                      | None => []
                      end) items.

(** *** [convert_documents] *)

(** The blob store: which paths exist, the text extracted from a path
    ([None] when the download or the extraction raises), and whether an
    upload to a path goes through. *)
Variable file_exists : str -> bool.
Variable read_text : str -> option str.
Variable upload_ok : str -> bool.

(** The connection and the derived artifacts written to the blob store. *)
Record world := {
  db : conn;
  artifacts : list (str * list document)
}.

Record conversion := {
  ndjson_path : option str;
  document_count : nat;
  chunks_stored : option nat;
  skipped_files : option (list str)
}.

(** One turn of [for doc_path in document_paths]. *)
Definition convert_step (acc : list document * list str) (doc_path : str)
  : list document * list str :=
  let '(all_documents, skipped_files) := acc in
  if negb (file_exists doc_path) then (all_documents, skipped_files ++ [doc_path])
  else match read_text doc_path with
       | Some text_content =>
           (all_documents ++ documents_of doc_path text_content, skipped_files)
       | None => (all_documents, skipped_files ++ [doc_path])
       end.

Definition convert_documents (merchant_id : str) (document_paths : list str)
  (w : world) : outcome conversion * world :=
  let '(all_documents, skipped_files) :=
    fold_left convert_step document_paths ([], []) in
  match all_documents with
  | [] =>
      (Ok {| ndjson_path := None; document_count := 0;
             chunks_stored := None; skipped_files := Some skipped_files |}, w)
  | _ =>
      let path := lit "merchants/" ++ merchant_id
                  ++ lit "/training_files/documents.ndjson" in
      if upload_ok path then
        let artifacts' :=
          filter (fun a => negb (str_eqb (fst a) path)) (artifacts w)
          ++ [(path, all_documents)] in
        let '(stored, c') :=
          _store_document_embeddings merchant_id all_documents (db w) in
        (Ok {| ndjson_path := Some path;
               document_count := length all_documents;
               chunks_stored := Some stored;
               skipped_files := match skipped_files with
                                | [] => None
                                | _ => Some skipped_files
                                end |},
         {| db := c'; artifacts := artifacts' |})
      else (Raised BlobError, w)
  end.

End Tables.

Arguments Ok {A} a.
Arguments Raised {A} e.
Unset Implicit Arguments.

End Store.

(* ------------------------------------------------------------------ *)
(** ** Example data *)

Module Examples.
Import Py Chunker DocId Embed Catalog Store.

Definition merchant : str := lit "m1".

(** A chunk row stored by an earlier run of the merchant. *)
Definition old_chunk : chunk_row (list Z) :=
  {| cr_merchant_id := merchant; cr_content := lit "old";
     cr_title := lit "faq.txt"; cr_source := lit "kb/faq.txt";
     cr_chunk_index := 0; cr_total_chunks := 1; cr_embedding := [3] |}.

Definition stored_before : tables (list Z) :=
  {| stores := []; products := []; sq_variants := [];
     document_chunks := [old_chunk] |}.

Definition connection : conn (list Z) :=
  {| committed := stored_before; working := stored_before;
     executed := 0; next_id := 1 |}.

(** Two source files of one chunk each. *)
Definition two_documents : list document :=
  documents_of (lit "kb/a.txt") (lit "alpha")
  ++ documents_of (lit "kb/b.txt") (lit "beta").

(** The store raises at statement number [k] of the connection. *)
Definition fail_at (k : nat) (n : nat) : bool := Nat.eqb n k.

Definition never (n : nat) : bool := false.

(** An embedding service whose calls all fail. *)
Definition no_service (k : nat) (batch : list str) : option (list (list Z)) := None.

Definition service : nat -> list str -> option (list (list Z)) :=
  failing_on (lit "???").

(** Rows of a generic product file. *)
Definition red_mug : row :=
  [(lit "title", CStr (lit "Red Mug")); (lit "price", CStr (lit "12"))].
Definition green_tea : row :=
  [(lit "title", CStr (lit "Green Tea")); (lit "price", CStr (lit "3"))].

(** A row without a title, and a row whose price cannot be read. *)
Definition price_only : row := [(lit "price", CStr (lit "5"))].
Definition mystery_box : row :=
  [(lit "title", CStr (lit "Mystery Box")); (lit "price", CStr (lit "abc"))].

(** A row of a grouped export that has a handle and no variant price. *)
Definition gift_card : row :=
  [(lit "Handle", CStr (lit "gift-card")); (lit "Title", CStr (lit "Gift Card"));
   (lit "Variant Price", CStr (lit ""))].

Definition no_html (s : str) : str := s.

(** The service, refusing batches of more than 25 texts. *)
Definition capped_service (k : nat) (batch : list str) : option (list (list Z)) :=
  if (length batch <=? 25)%nat then service k batch else None.

End Examples.

(** The members of a concrete list, one goal for each. *)
Ltac each_member H :=
  vm_compute in H;
  repeat (destruct H as [<- | H]; [|]); try (exfalso; exact H).

(* ------------------------------------------------------------------ *)
(** ** What a run leaves alone *)

Module Frame.
Import Py Store.

Section Others.
Variable V : Type.

(** The product rows that are not rows of [merchant_id] on [pf]. *)
Definition other_products (pf : platform) (merchant_id : str) (t : tables V)
  : list (product_row V) :=
  filter (fun r => negb (of_merchant pf merchant_id r)) (products t).

(** The chunk rows of the other merchants. *)
Definition other_chunks (merchant_id : str) (t : tables V) : list (chunk_row V) :=
  filter (fun r => negb (str_eqb (cr_merchant_id r) merchant_id))
         (document_chunks t).

(** What a product import of [merchant_id] on [pf] has no business with:
    the product rows of the others and the chunk rows. *)
Definition import_frame (pf : platform) (merchant_id : str) (t t' : tables V)
  : Prop :=
  other_products pf merchant_id t' = other_products pf merchant_id t
  /\ document_chunks t' = document_chunks t.

(** What a chunk storage of [merchant_id] has no business with: the chunk
    rows of the others and the catalog tables. *)
Definition chunk_frame (merchant_id : str) (t t' : tables V) : Prop :=
  other_chunks merchant_id t' = other_chunks merchant_id t
  /\ products t' = products t
  /\ stores t' = stores t
  /\ sq_variants t' = sq_variants t.

(** Code whose statements keep the relation [R] between the tables of the
    open transaction. *)
Definition respects {A} (R : tables V -> tables V -> Prop) (m : M V A) : Prop :=
  forall c, R (working c) (working (snd (m c))).

End Others.

Arguments other_products {V}.
Arguments other_chunks {V}.
Arguments import_frame {V}.
Arguments chunk_frame {V}.
Arguments respects {V A}.

End Frame.


(* ------------------------------------------------------------------ *)
(** ** Reading the summary of [convert_documents] *)

Module Report.
Import Py DocId Store.

Section Paths.
Variable file_exists : str -> bool.
Variable read_text : str -> option str.

(** A source path that the loop of [convert_documents] passes over: the
    file is missing, or its download or extraction raises. *)
Definition is_skipped (doc_path : str) : bool :=
  negb (file_exists doc_path)
  || match read_text doc_path with None => true | Some _ => false end.

(** The documents of the source paths that are not passed over. *)
Definition converted_documents (document_paths : list str) : list document :=
  flat_map (fun p => if is_skipped p then []
                     else match read_text p with
                          | Some text_content => documents_of p text_content
                          | None => []
                          end)
           document_paths.

End Paths.

(** [result.get("skipped_files")] read as a list. *)
Definition skipped_of (r : conversion) : list str :=
  match skipped_files r with Some l => l | None => [] end.

End Report.


(* ------------------------------------------------------------------ *)
(** ** The caller: the document step of [process_onboarding]

    The step lists the knowledge-base folder of the merchant, hands the
    document files to [convert_documents] and reports to the status tracker
    and to the merchants table.  The calls to the status tracker are taken
    to return; [update_merchant_onboarding_step] catches its own errors. *)

Module Onboarding.
Import Py DocId Catalog Store.

Inductive StepStatus := IN_PROGRESS | COMPLETED | SKIPPED | FAILED.

(** The reports of the step, for the step "convert_documents" of the
    tracker and the step "documents" of the merchants table. *)
Inductive call :=
| update_step_status (status : StepStatus) (message : option str)
| update_merchant_onboarding_step (completed : bool) (document_count : option nat).

(** [file_path.split("/")[-1]] *)
Definition last_segment (file_path : str) : str :=
  fold_left (fun cur c => if Ascii.eqb c "/"%char then [] else cur ++ [c])
            file_path [].

(** [s.endswith(suffix)] *)
Definition endswith (s suffix : str) : bool :=
  starts_with (rev suffix) (rev s).

Definition excluded_files : list str :=
  [lit "products.json"; lit "products.csv"; lit "products.xlsx"; lit "products.xls";
   lit "categories.csv"; lit "categories.xlsx"; lit "categories.xls"].

(** The test of the loop over [files_in_kb]. *)
Definition is_document (file_path : str) : bool :=
  let filename := lower (last_segment file_path) in
  negb (existsb (str_eqb filename) excluded_files)
  && negb (endswith filename (lit ".keep")).

(** The part of a message that counts the skipped files, when
    [result.get("skipped_files")] is a non-empty list. *)
Definition skipped_note (before after : str) (skipped : option (list str)) : str :=
  match skipped with
  | Some (p :: l) => before ++ str_of_nat (length (p :: l)) ++ after
  | _ => []
  end.

Section Step.
Variable V : Type.
Variable fails : nat -> bool.
Variable get_embeddings : nat -> list str -> option (list V).
Variable file_exists : str -> bool.
Variable read_text : str -> option str.
Variable upload_ok : str -> bool.

(** Step 3 of [process_onboarding]; [files_in_kb] is [None] when the
    listing of the folder raises. *)
Definition document_step (files_in_kb : option (list str)) (merchant_id : str)
  (w : world V) : list call * world V :=
  let document_paths :=
    match files_in_kb with
    | Some files => filter is_document files
    | None => []
    end in
  match document_paths with
  | [] =>
      ([update_step_status SKIPPED
          (Some (lit "No documents found in knowledge_base (excluding products.csv and categories.csv)"))],
       w)
  | _ =>
      match convert_documents fails get_embeddings file_exists read_text upload_ok
                              merchant_id document_paths w with
      | (Ok result, w') =>
          if (0 <? document_count result)%nat then
            ([update_step_status IN_PROGRESS None;
              update_merchant_onboarding_step true (Some (document_count result));
              update_step_status COMPLETED
                (Some (lit "Converted " ++ str_of_nat (document_count result)
                       ++ lit " documents"
                       ++ skipped_note (lit " (skipped ") (lit " files)")
                                       (skipped_files result)))],
             w')
          else
            ([update_step_status IN_PROGRESS None;
              update_step_status SKIPPED
                (Some (lit "No documents were successfully converted"
                       ++ skipped_note (lit " (all ") (lit " files were skipped/missing)")
                                       (skipped_files result)))],
             w')
      | (Raised e, w') =>
          ([update_step_status IN_PROGRESS None;
            update_merchant_onboarding_step false None;
            update_step_status FAILED None],
           w')
      end
  end.

End Step.

Arguments document_step {V}.

(** The status the tracker is left with. *)
Definition final_status (calls : list call) : option StepStatus :=
  fold_left (fun st c => match c with
                         | update_step_status s _ => Some s
                         | _ => st
                         end) calls None.

(** The document count written to the merchants table, if any. *)
Definition recorded_count (calls : list call) : option nat :=
  fold_left (fun n c => match c with
                        | update_merchant_onboarding_step true (Some k) => Some k
                        | _ => n
                        end) calls None.

End Onboarding.


(* ------------------------------------------------------------------ *)
(** ** The default variants of a Squarespace import *)

Module Variants.
Import Py Catalog Store.

(** The variant rows of the products of a run whose product rows get the
    row ids from [id] on: one default variant for each product, with the
    sku, the parsed price and the stock of the product. *)
Fixpoint default_variants (id : Z) (products : list sq_product) : list variant_row :=
  match products with
  | [] => []
  | p :: rest =>
      {| vr_product_id := id;
         vr_variant_id := lit "var-" ++ squarespace_product_id p;
         vr_sku := sq_sku p;
         vr_price := sq_price p;
         vr_stock := sq_stock p;
         vr_option1_name := lit "Default";
         vr_option1_value := lit "Default" |}
        :: default_variants (id + 1) rest
  end.

End Variants.


(* ------------------------------------------------------------------ *)
(** ** The white-space clean-up of [_extract_html_text]

    What the extractor does with the text of the page once the parser has
    given it ([soup.get_text()]). *)

Module Html.
Import Py Chunker Catalog.

Definition CR : ascii := "013"%char.

(** The line boundaries of [str.splitlines] (code points below 256). *)
Definition is_linebreak (c : ascii) : bool :=
  let n := Z.of_nat (nat_of_ascii c) in
  ((10 <=? n) && (n <=? 13)) || ((28 <=? n) && (n <=? 30)) || (n =? 133).

(** [s.splitlines()]: the lines without their boundaries; a carriage return
    followed by a line feed is one boundary, and a boundary at the end opens
    no further line.  [cur] is the line being read, reversed. *)
Fixpoint splitlines_from (s cur : str) : list str :=
  match s with
  | [] => match cur with [] => [] | _ => [rev cur] end
  | c :: s' =>
      if is_linebreak c then
        rev cur ::
          match s' with
          | d :: s'' =>
              if Ascii.eqb c CR && Ascii.eqb d NL then splitlines_from s'' []
              else splitlines_from s' []
          | [] => []
          end
      else splitlines_from s' (c :: cur)
  end.

Definition splitlines (s : str) : list str := splitlines_from s [].

(** The three lines after [text = soup.get_text()]: every line is stripped
    and cut at double spaces, the pieces are stripped, and the pieces that
    are not empty are joined by line feeds. *)
Definition clean_chunks (text : str) : list str :=
  let lines := map strip (splitlines text) in
  let chunks :=
    flat_map (fun line => map strip (split2 " "%char " "%char line)) lines in
  filter (fun chunk => match chunk with [] => false | _ => true end) chunks.

Definition clean_text (text : str) : str := join [NL] (clean_chunks text).

End Html.


(* ------------------------------------------------------------------ *)
(** ** The text of PDF and DOCX files

    What the extractors make of the page texts ([page.extract_text()]) and
    of the paragraph texts ([paragraph.text]) the libraries return. *)

Module Extract.
Import Py Chunker Catalog.

(** [_extract_pdf_text], from the texts of the pages on. *)
Definition _extract_pdf_text (pages : list str) : str :=
  join para_sep pages.

(** [_extract_docx_text], from the texts of the paragraphs on: blank
    paragraphs are left out. *)
Definition _extract_docx_text (paragraphs : list str) : str :=
  join para_sep
       (filter (fun text => match strip text with [] => false | _ => true end)
               paragraphs).

End Extract.


(* ------------------------------------------------------------------ *)
(** ** The paragraphs of extracted text *)

Module Parts.
Import Py Chunker.

(** The part holds two line feeds in a row. *)
Fixpoint has_para_sep (part : str) : bool :=
  match part with
  | c :: part' =>
      match part' with
      | d :: _ => (Ascii.eqb c NL && Ascii.eqb d NL) || has_para_sep part'
      | [] => false
      end
  | [] => false
  end.

(** The part ends with a line feed. *)
Fixpoint ends_with_NL (part : str) : bool :=
  match part with
  | [] => false
  | c :: part' =>
      match part' with
      | [] => Ascii.eqb c NL
      | _ => ends_with_NL part'
      end
  end.

(** A part that a separator of two line feeds can neither cut nor run
    into. *)
Definition whole (part : str) : bool :=
  negb (has_para_sep part) && negb (ends_with_NL part).

End Parts.



(* ------------------------------------------------------------------ *)
(** ** The rows that give a product *)

Module Ids.
Import Py Catalog.

(** The rows of a file that have a value in one of the columns [keys], each
    with its position in the file. *)
Definition titled (keys : list str) (rows : list row) : list (nat * row) :=
  filter (fun ir => match _get_col (snd ir) keys with [] => false | _ => true end)
         (enumerate rows).

(** The rows of a handle group that have a variant price, each with its
    position among them. *)
Definition priced (group_rows : list row) : list (nat * row) :=
  enumerate (filter has_price group_rows).

End Ids.


(* ================================================================== *)
(** * Properties *)

(** ** Facts about the string primitives *)

Section PyFacts.
Import Py.

Lemma len_app {A} (x y : list A) : len (x ++ y) = len x + len y.
Proof. unfold len. rewrite List.length_app. lia. Qed.

Lemma len_nonneg {A} (x : list A) : 0 <= len x.
Proof. unfold len. lia. Qed.

Lemma len_nil {A} : len (@nil A) = 0.
Proof. reflexivity. Qed.

Lemma len_cons {A} (a : A) (x : list A) : len (a :: x) = len x + 1.
Proof. unfold len. simpl List.length. lia. Qed.

Variable f : ascii -> bool.

(** What [lstrip_by] removes is a run of strippable characters. *)
Lemma lstrip_by_split (s : str) :
  exists w, Forall (fun c => f c = true) w /\ s = w ++ lstrip_by f s.
Proof.
  induction s as [|c s IH]; simpl.
  - exists []. split; [constructor | reflexivity].
  - destruct (f c) eqn:E.
    + destruct IH as [w [Hw Hs]]. exists (c :: w). split.
      * constructor; assumption.
      * simpl. congruence.
    + exists []. split; [constructor | reflexivity].
Qed.

Lemma rstrip_by_split (s : str) :
  exists w, Forall (fun c => f c = true) w /\ s = rstrip_by f s ++ w.
Proof.
  unfold rstrip_by. destruct (lstrip_by_split (rev s)) as [w [Hw Hs]].
  exists (rev w). split.
  - apply Forall_rev. exact Hw.
  - rewrite <- rev_app_distr, <- Hs, rev_involutive. reflexivity.
Qed.

Lemma lstrip_by_all (w y : str) :
  Forall (fun c => f c = true) w -> lstrip_by f (w ++ y) = lstrip_by f y.
Proof.
  induction 1 as [|c w Hc _ IH]; simpl; [reflexivity|].
  rewrite Hc. exact IH.
Qed.

Lemma rstrip_by_all (x w : str) :
  Forall (fun c => f c = true) w -> rstrip_by f (x ++ w) = rstrip_by f x.
Proof.
  intros Hw. unfold rstrip_by. rewrite rev_app_distr.
  rewrite lstrip_by_all; [reflexivity|]. apply Forall_rev. exact Hw.
Qed.

Lemma lstrip_by_len (s : str) : len (lstrip_by f s) <= len s.
Proof.
  destruct (lstrip_by_split s) as [w [_ Hs]].
  rewrite Hs at 2. rewrite len_app. pose proof (len_nonneg w). lia.
Qed.

Lemma rstrip_by_len (s : str) : len (rstrip_by f s) <= len s.
Proof.
  destruct (rstrip_by_split s) as [w [_ Hs]].
  rewrite Hs at 2. rewrite len_app. pose proof (len_nonneg w). lia.
Qed.

Lemma strip_by_len (s : str) : len (strip_by f s) <= len s.
Proof.
  unfold strip_by. pose proof (lstrip_by_len (rstrip_by f s)).
  pose proof (rstrip_by_len s). lia.
Qed.

(** Trailing strippable characters do not count. *)
Lemma strip_by_app_len (x w : str) :
  Forall (fun c => f c = true) w -> len (strip_by f (x ++ w)) <= len x.
Proof.
  intros Hw. unfold strip_by. rewrite rstrip_by_all by exact Hw.
  apply strip_by_len.
Qed.

End PyFacts.

(** ** Words of a string: [words] against concatenation, [strip], [split] *)

Section WordsFacts.
Import Py.

Lemma words_from_space (cur x y : str) (c : ascii) :
  isspace c = true ->
  words_from cur (x ++ c :: y) = words_from cur x ++ words y.
Proof.
  intros Hc. revert cur. induction x as [|a x IH]; intros cur; simpl.
  - rewrite Hc. destruct cur; reflexivity.
  - destruct (isspace a).
    + destruct cur; rewrite IH; reflexivity.
    + apply IH.
Qed.

Lemma words_blank_app (w y : str) : blank w -> words (w ++ y) = words y.
Proof.
  induction 1 as [|c w Hc _ IH]; [reflexivity|].
  unfold words in *. simpl. rewrite Hc. exact IH.
Qed.

Lemma words_blank (w : str) : blank w -> words w = [].
Proof.
  intros Hw. rewrite <- (app_nil_r w). rewrite words_blank_app by exact Hw.
  reflexivity.
Qed.

Lemma words_app_blank (x w : str) : blank w -> words (x ++ w) = words x.
Proof.
  intros Hw. destruct Hw as [|c w Hc Hw].
  - rewrite app_nil_r. reflexivity.
  - unfold words. rewrite words_from_space by exact Hc.
    rewrite (words_blank w Hw). apply app_nil_r.
Qed.

Lemma words_closed_app (x y : str) :
  closed x -> words (x ++ y) = words x ++ words y.
Proof.
  intros [-> | [x' [c [-> Hc]]]]; [reflexivity|].
  rewrite <- app_assoc. simpl. unfold words at 1.
  rewrite words_from_space by exact Hc.
  rewrite words_app_blank; [reflexivity|].
  constructor; [exact Hc | constructor].
Qed.

Lemma words_strip (s : str) : words (strip s) = words s.
Proof.
  unfold strip, strip_by.
  destruct (rstrip_by_split isspace s) as [w [Hw Hs]].
  destruct (lstrip_by_split isspace (rstrip_by isspace s)) as [v [Hv Hr]].
  rewrite Hs at 2. rewrite words_app_blank by exact Hw.
  rewrite Hr at 2. rewrite words_blank_app by exact Hv. reflexivity.
Qed.

Lemma closed_app (x w : str) (c : ascii) :
  isspace c = true -> closed (x ++ w ++ [c]).
Proof.
  intros Hc. right. exists (x ++ w), c. rewrite app_assoc. auto.
Qed.

(** Cutting at a separator made of two whitespace characters keeps the
    words: they are the words of the pieces, in order. *)
Lemma words_split2_from (a b : ascii) :
  isspace a = true -> isspace b = true ->
  forall (n : nat) (s cur : str), (List.length s <= n)%nat ->
    concat (map words (split2_from a b s cur)) = words (rev cur ++ s).
Proof.
  intros Ha Hb. induction n as [|n IH]; intros s cur Hn.
  - destruct s; [|simpl in Hn; lia]. simpl. rewrite !app_nil_r. reflexivity.
  - destruct s as [|c [|d s]].
    + simpl. rewrite !app_nil_r. reflexivity.
    + simpl. rewrite app_nil_r. reflexivity.
    + change (split2_from a b (c :: d :: s) cur)
        with (if Ascii.eqb c a && Ascii.eqb d b
              then rev cur :: split2_from a b s []
              else split2_from a b (d :: s) (c :: cur)).
      destruct (Ascii.eqb c a && Ascii.eqb d b) eqn:E.
      * apply andb_true_iff in E. destruct E as [Ec Ed].
        apply Ascii.eqb_eq in Ec, Ed. subst c d.
        simpl map. simpl concat. rewrite IH by (simpl in Hn; lia).
        simpl rev. unfold words at 3. rewrite words_from_space by exact Ha.
        f_equal. symmetry. apply (words_blank_app [b]). constructor; [exact Hb|constructor].
      * rewrite IH by (simpl in *; lia). simpl rev.
        rewrite <- app_assoc. reflexivity.
Qed.

Lemma words_split2 (a b : ascii) (s : str) :
  isspace a = true -> isspace b = true ->
  concat (map words (split2 a b s)) = words s.
Proof.
  intros Ha Hb. unfold split2.
  rewrite (words_split2_from a b Ha Hb (List.length s)) by lia. reflexivity.
Qed.

End WordsFacts.

(** ** The Chunker *)

Section ChunkerWords.
Import Py Chunker.

Lemma closed_snoc (x : str) (c : ascii) : isspace c = true -> closed (x ++ [c]).
Proof. intros Hc. right. exists x, c. auto. Qed.

Lemma blank_para_sep : blank para_sep.
Proof. repeat constructor. Qed.

Lemma flush_words (segments : list str) (current : str) :
  concat (map words (flush segments current))
  = concat (map words segments) ++ words current.
Proof.
  destruct current as [|c current]; simpl.
  - rewrite app_nil_r. reflexivity.
  - rewrite map_app, concat_app. simpl. rewrite app_nil_r.
    rewrite words_strip. reflexivity.
Qed.

Lemma sentence_step_words (max_size : Z) (segments : list str) (current s : str) :
  closed current ->
  held (sentence_step max_size (segments, current) s)
  = held (segments, current) ++ words (s ++ sent_sep)
  /\ closed (snd (sentence_step max_size (segments, current) s)).
Proof.
  intros Hc. unfold sentence_step, held.
  destruct (len current + len s + 2 <=? max_size); simpl fst; simpl snd.
  - split.
    + rewrite (words_closed_app current _ Hc). rewrite app_assoc. reflexivity.
    + change sent_sep with (["."%char] ++ [" "%char]).
      rewrite !app_assoc. apply closed_snoc. reflexivity.
  - split.
    + rewrite flush_words. reflexivity.
    + change sent_sep with (["."%char] ++ [" "%char]).
      rewrite app_assoc. apply closed_snoc. reflexivity.
Qed.

Lemma sentences_words (max_size : Z) (ss : list str) :
  forall (segments : list str) (current : str),
  closed current ->
  held (fold_left (sentence_step max_size) ss (segments, current))
  = held (segments, current) ++ concat (map (fun s => words (s ++ sent_sep)) ss)
  /\ closed (snd (fold_left (sentence_step max_size) ss (segments, current))).
Proof.
  induction ss as [|s ss IH]; intros segments current Hc.
  - simpl. rewrite app_nil_r. auto.
  - cbn [fold_left].
    destruct (sentence_step_words max_size segments current s Hc) as [Hw Hc'].
    destruct (sentence_step max_size (segments, current) s) as [segments' current'].
    destruct (IH segments' current' Hc') as [Hw2 Hc2].
    split; [|exact Hc2].
    rewrite Hw2, Hw. simpl map. simpl concat. rewrite <- !app_assoc. reflexivity.
Qed.

Lemma paragraph_step_words (max_size : Z) (segments : list str) (current p : str) :
  closed current ->
  held (paragraph_step max_size (segments, current) p)
  = held (segments, current) ++ para_words max_size p
  /\ closed (snd (paragraph_step max_size (segments, current) p)).
Proof.
  intros Hc. unfold paragraph_step, para_words. cbv zeta.
  destruct (len current + len p + 2 <=? max_size) eqn:Hfit.
  - apply Z.leb_le in Hfit. pose proof (len_nonneg current).
    replace (max_size <? len p) with false by (symmetry; apply Z.ltb_ge; lia).
    unfold held; simpl fst; simpl snd. split.
    + rewrite (words_closed_app current _ Hc).
      rewrite (words_app_blank p para_sep blank_para_sep).
      rewrite app_assoc. reflexivity.
    + change para_sep with ([NL] ++ [NL]). rewrite !app_assoc.
      apply closed_snoc. reflexivity.
  - destruct (max_size <? len p).
    + destruct (sentences_words max_size (split2 "."%char " "%char p)
                  (flush segments current) [] (or_introl eq_refl)) as [Hw Hc'].
      split; [|exact Hc'].
      eapply eq_trans; [exact Hw|]. unfold held; simpl fst; simpl snd.
      rewrite flush_words. rewrite app_nil_r. reflexivity.
    + unfold held; simpl fst; simpl snd. split.
      * rewrite flush_words.
        rewrite (words_app_blank p para_sep blank_para_sep). reflexivity.
      * change para_sep with ([NL] ++ [NL]). rewrite app_assoc.
        apply closed_snoc. reflexivity.
Qed.

Lemma paragraphs_words (max_size : Z) (ps : list str) :
  forall (segments : list str) (current : str),
  closed current ->
  held (fold_left (paragraph_step max_size) ps (segments, current))
  = held (segments, current) ++ concat (map (para_words max_size) ps).
Proof.
  induction ps as [|p ps IH]; intros segments current Hc.
  - simpl. rewrite app_nil_r. reflexivity.
  - cbn [fold_left].
    destruct (paragraph_step_words max_size segments current p Hc) as [Hw Hc'].
    destruct (paragraph_step max_size (segments, current) p) as [segments' current'].
    rewrite (IH segments' current' Hc'), Hw.
    simpl map. simpl concat. rewrite <- !app_assoc. reflexivity.
Qed.

(** The first pass keeps the words of every paragraph, in order; a paragraph
    longer than [max_size] is emitted sentence piece by sentence piece. *)
Lemma first_pass_words (text : str) (max_size : Z) :
  concat (map words (first_pass text max_size))
  = concat (map (para_words max_size) (split2 NL NL text)).
Proof.
  assert (Hflush : forall st : list str * str,
            concat (map words (let '(segments, current) := st in
                               flush segments current)) = held st)
    by (intros [a b]; apply flush_words).
  unfold first_pass.
  eapply eq_trans; [apply Hflush|].
  eapply eq_trans; [apply paragraphs_words; left; reflexivity|].
  reflexivity.
Qed.

End ChunkerWords.

Section ChunkerTrace.
Import Py Chunker.

Lemma add_overlap_traced_chunks (max_size overlap : Z) (rest : list str) :
  forall prev, map chunk (add_overlap_traced prev rest max_size overlap)
               = add_overlap prev rest max_size overlap.
Proof.
  induction rest as [|seg rest IH]; intros prev; simpl; [reflexivity|].
  rewrite IH. reflexivity.
Qed.

Lemma add_overlap_traced_segments (max_size overlap : Z) (rest : list str) :
  forall prev, map segment (add_overlap_traced prev rest max_size overlap) = rest.
Proof.
  induction rest as [|seg rest IH]; intros prev; simpl; [reflexivity|].
  rewrite IH. reflexivity.
Qed.

Lemma map_chunk_plain (l : list str) : map chunk (map plain l) = l.
Proof. rewrite map_map. simpl. apply map_id. Qed.

Lemma map_segment_plain (l : list str) : map segment (map plain l) = l.
Proof. rewrite map_map. simpl. apply map_id. Qed.

(** The traced run returns the chunks of [_split_text]. *)
Lemma traced_chunks (text : str) (max_size overlap : Z) :
  map chunk (split_text_traced text max_size overlap)
  = _split_text text max_size overlap.
Proof.
  unfold split_text_traced, _split_text.
  destruct (len text <=? max_size); [reflexivity|]. cbv zeta.
  destruct ((overlap <=? 0) || (len (first_pass text max_size) <=? 1)).
  - apply map_chunk_plain.
  - destruct (first_pass text max_size) as [|s0 rest]; [reflexivity|].
    simpl. rewrite add_overlap_traced_chunks. reflexivity.
Qed.

(** Its segments are those of the first pass. *)
Lemma traced_segments (text : str) (max_size overlap : Z) :
  map segment (split_text_traced text max_size overlap)
  = if len text <=? max_size then [text] else first_pass text max_size.
Proof.
  unfold split_text_traced.
  destruct (len text <=? max_size); [reflexivity|]. cbv zeta.
  destruct ((overlap <=? 0) || (len (first_pass text max_size) <=? 1)).
  - apply map_segment_plain.
  - destruct (first_pass text max_size) as [|s0 rest]; [reflexivity|].
    simpl. rewrite add_overlap_traced_segments. reflexivity.
Qed.

(** Every traced chunk is a segment as it is, or a segment behind the
    overlap text of some previous segment. *)
Lemma add_overlap_traced_shape (max_size overlap : Z) (rest : list str) :
  forall prev t, In t (add_overlap_traced prev rest max_size overlap) ->
    exists prev', injected t = Some (overlap_text prev' overlap)
                  /\ chunk t = overlap_chunk prev' (segment t) max_size overlap.
Proof.
  induction rest as [|seg rest IH]; intros prev t Hin; simpl in Hin; [tauto|].
  destruct Hin as [<- | Hin].
  - exists prev. split; reflexivity.
  - apply (IH seg t Hin).
Qed.

Lemma traced_shape (text : str) (max_size overlap : Z) (t : traced) :
  In t (split_text_traced text max_size overlap) ->
  (injected t = None /\ chunk t = segment t)
  \/ exists prev, injected t = Some (overlap_text prev overlap)
                  /\ chunk t = overlap_chunk prev (segment t) max_size overlap.
Proof.
  unfold split_text_traced.
  destruct (len text <=? max_size).
  - intros [<- | []]. left. split; reflexivity.
  - cbv zeta.
    destruct ((overlap <=? 0) || (len (first_pass text max_size) <=? 1)).
    + intros Hin. apply in_map_iff in Hin. destruct Hin as [s [<- _]].
      left. split; reflexivity.
    + destruct (first_pass text max_size) as [|s0 rest]; [intros []|].
      intros [<- | Hin].
      * left. split; reflexivity.
      * right. apply (add_overlap_traced_shape max_size overlap rest s0 t Hin).
Qed.

(** Without truncation, a chunk is its overlap text, then its segment. *)
Lemma overlap_chunk_words (prev seg : str) (max_size overlap : Z) :
  len (overlap_text prev overlap ++ lit " " ++ seg) <= max_size ->
  words (overlap_chunk prev seg max_size overlap)
  = words (overlap_text prev overlap) ++ words seg.
Proof.
  intros Hfit. unfold overlap_chunk. cbv zeta.
  replace (max_size <? len (overlap_text prev overlap ++ lit " " ++ seg))
    with false by (symmetry; apply Z.ltb_ge; exact Hfit).
  rewrite words_strip. unfold words at 1. simpl app.
  apply words_from_space. reflexivity.
Qed.

Lemma skipn_length_app {A} (l l' : list A) : skipn (length l) (l ++ l') = l'.
Proof. induction l; simpl; auto. Qed.

Lemma concat_map_ext_in {A B} (g h : A -> list B) (l : list A) :
  (forall a, In a l -> g a = h a) -> concat (map g l) = concat (map h l).
Proof.
  intros H. f_equal. apply map_ext_in. exact H.
Qed.

End ChunkerTrace.

Import Py Chunker.

(** C4, as amended.  When no paragraph of the text is longer than [max_size]
    (the sentence splitter is not entered) and no chunk had to be cut back to
    [max_size] after its overlap text was put in front, the chunks of
    [_split_text], each without the words of its injected overlap text,
    give the words of the text, each once and in order. *)
Theorem split_text_keeps_words (text : str) (max_size overlap : Z) :
  (forall p, In p (split2 NL NL text) -> len p <= max_size) ->
  (forall t o, In t (split_text_traced text max_size overlap) ->
               injected t = Some o ->
               len (o ++ lit " " ++ segment t) <= max_size) ->
  map chunk (split_text_traced text max_size overlap)
    = _split_text text max_size overlap
  /\ concat (map deoverlap (split_text_traced text max_size overlap))
     = words text.
Proof.
  intros Hpar Hfit. split; [apply traced_chunks|].
  rewrite (concat_map_ext_in deoverlap (fun t => words (segment t))).
  - rewrite <- (map_map segment words). rewrite traced_segments.
    destruct (len text <=? max_size).
    + simpl. apply app_nil_r.
    + rewrite first_pass_words.
      rewrite (concat_map_ext_in (para_words max_size) words).
      * apply words_split2; reflexivity.
      * intros p Hp. unfold para_words.
        replace (max_size <? len p) with false; [reflexivity|].
        symmetry. apply Z.ltb_ge. apply Hpar. exact Hp.
  - intros t Hin. unfold deoverlap.
    destruct (traced_shape text max_size overlap t Hin)
      as [[Hnone Hc] | [prev [Hsome Hc]]].
    + rewrite Hnone, Hc. reflexivity.
    + rewrite Hsome, Hc. rewrite overlap_chunk_words.
      * apply skipn_length_app.
      * apply (Hfit t _ Hin Hsome).
Qed.

Lemma split_text_keeps_words_witness :
  map chunk (split_text_traced (lit "aa bb" ++ para_sep ++ lit "cc dd") 9 3)
    = _split_text (lit "aa bb" ++ para_sep ++ lit "cc dd") 9 3
  /\ concat (map deoverlap
               (split_text_traced (lit "aa bb" ++ para_sep ++ lit "cc dd") 9 3))
     = words (lit "aa bb" ++ para_sep ++ lit "cc dd").
Proof.
  apply (split_text_keeps_words (lit "aa bb" ++ para_sep ++ lit "cc dd") 9 3).
  - intros p Hp. each_member Hp; apply Z.leb_le; reflexivity.
  - intros t o Hin Ho. each_member Hin; simpl in Ho;
      try discriminate Ho; injection Ho as <-; apply Z.leb_le; reflexivity.
Defined.

(** C4 as stated fails: with [max_size = 10] and [overlap = 5] the third
    paragraph's last word is cut off when the chunk is brought back to
    [max_size], so it is in no returned chunk, and the second paragraph's
    last word survives only in part. *)
Lemma split_text_loses_words :
  let text := lit "aaaa bbb" ++ para_sep ++ lit "cc vwxyz" ++ para_sep
              ++ lit "eeee fff" in
  _split_text text 10 5 = [lit "aaaa bbb"; lit "bbb cc vwx"; lit "vwxyz eeee"]
  /\ In (lit "fff") (words text)
  /\ (forall c, In c (_split_text text 10 5) -> ~ In (lit "fff") (words c))
  /\ concat (map deoverlap (split_text_traced text 10 5)) <> words text.
Proof.
  cbv zeta. split; [reflexivity|]. split; [vm_compute; tauto|]. split.
  - intros c Hc Hin. each_member Hc; vm_compute in Hin;
      repeat (destruct Hin as [Hin | Hin]; [discriminate Hin|]); exact Hin.
  - vm_compute. discriminate.
Qed.

(** *** Chunk sizes *)

Section ChunkerBound.
Variable text : str.
Variable max_size : Z.
Hypothesis Hmax : 0 <= max_size.

Lemma flush_ok (segments : list str) (current : str) :
  state_ok text max_size (segments, current) ->
  Forall (fits_or_lone text max_size) (flush segments current).
Proof.
  intros [Hs Hc]. simpl in Hs, Hc. destruct current as [|c current]; simpl.
  - exact Hs.
  - apply Forall_app. split; [exact Hs|]. constructor; [exact Hc|constructor].
Qed.

Lemma strip_fits (x : str) : len x <= max_size -> fits_or_lone text max_size (strip x).
Proof.
  intros H. left. pose proof (strip_by_len isspace x). unfold strip. lia.
Qed.

Lemma sentence_step_ok (p s : str) (st : list str * str) :
  In p (split2 NL NL text) -> max_size < len p ->
  In s (split2 "."%char " "%char p) ->
  state_ok text max_size st -> state_ok text max_size (sentence_step max_size st s).
Proof.
  intros Hp Hbig Hs Hst. destruct st as [segments current].
  unfold sentence_step.
  destruct (len current + len s + 2 <=? max_size) eqn:Hfit.
  - apply Z.leb_le in Hfit. split; [exact (proj1 Hst)|]. simpl snd.
    apply strip_fits. rewrite !len_app. change (len sent_sep) with 2. lia.
  - split; simpl fst; simpl snd.
    + apply flush_ok. exact Hst.
    + destruct (Z_le_gt_dec (len s + 2) max_size) as [Hle | Hgt].
      * apply strip_fits. rewrite len_app. change (len sent_sep) with 2. lia.
      * right. exists p, s. repeat split; try assumption. lia.
Qed.

Lemma sentences_ok (p : str) (ss : list str) :
  In p (split2 NL NL text) -> max_size < len p ->
  (forall s, In s ss -> In s (split2 "."%char " "%char p)) ->
  forall st, state_ok text max_size st ->
             state_ok text max_size (fold_left (sentence_step max_size) ss st).
Proof.
  intros Hp Hbig. induction ss as [|s ss IH]; intros Hss st Hst; [exact Hst|].
  cbn [fold_left]. apply IH.
  - intros s' Hs'. apply Hss. right. exact Hs'.
  - apply (sentence_step_ok p s st Hp Hbig); [|exact Hst].
    apply Hss. left. reflexivity.
Qed.

Lemma paragraph_step_ok (p : str) (st : list str * str) :
  In p (split2 NL NL text) ->
  state_ok text max_size st -> state_ok text max_size (paragraph_step max_size st p).
Proof.
  intros Hp Hst. destruct st as [segments current].
  unfold paragraph_step. cbv zeta.
  destruct (len current + len p + 2 <=? max_size) eqn:Hfit.
  - apply Z.leb_le in Hfit. split; [exact (proj1 Hst)|]. simpl snd.
    apply strip_fits. rewrite !len_app. change (len para_sep) with 2. lia.
  - destruct (max_size <? len p) eqn:Hbig.
    + apply Z.ltb_lt in Hbig.
      apply (sentences_ok p _ Hp Hbig); [auto|].
      split; simpl fst; simpl snd.
      * apply flush_ok. exact Hst.
      * left. exact Hmax.
    + apply Z.ltb_ge in Hbig. split; simpl fst; simpl snd.
      * apply flush_ok. exact Hst.
      * left. pose proof (strip_by_app_len isspace p para_sep blank_para_sep).
        unfold strip. lia.
Qed.

Lemma paragraphs_ok (ps : list str) :
  (forall p, In p ps -> In p (split2 NL NL text)) ->
  forall st, state_ok text max_size st ->
             state_ok text max_size (fold_left (paragraph_step max_size) ps st).
Proof.
  induction ps as [|p ps IH]; intros Hps st Hst; [exact Hst|].
  cbn [fold_left]. apply IH.
  - intros p' Hp'. apply Hps. right. exact Hp'.
  - apply paragraph_step_ok; [|exact Hst]. apply Hps. left. reflexivity.
Qed.

Lemma first_pass_ok :
  Forall (fits_or_lone text max_size) (first_pass text max_size).
Proof.
  unfold first_pass.
  assert (H : state_ok text max_size (fold_left (paragraph_step max_size) (split2 NL NL text)
                          (@nil str, @nil ascii))).
  { apply paragraphs_ok; [auto|]. split; simpl; [constructor | left; exact Hmax]. }
  revert H.
  generalize (fold_left (paragraph_step max_size) (split2 NL NL text)
                (@nil str, @nil ascii)).
  intros [segments current] H. apply flush_ok. exact H.
Qed.

Lemma slice_to_len (x : str) : len (slice_to x max_size) <= max_size.
Proof.
  unfold slice_to, bound.
  replace (max_size <? 0) with false by (symmetry; apply Z.ltb_ge; exact Hmax).
  unfold len. pose proof (firstn_le_length (Z.to_nat max_size) x). lia.
Qed.

Lemma overlap_chunk_len (prev seg : str) (overlap : Z) :
  len (overlap_chunk prev seg max_size overlap) <= max_size.
Proof.
  unfold overlap_chunk. cbv zeta.
  set (x := overlap_text prev overlap ++ lit " " ++ seg).
  pose proof (strip_by_len isspace (if max_size <? len x
                                    then slice_to x max_size else x)) as Hs.
  unfold strip.
  destruct (max_size <? len x) eqn:E.
  - pose proof (slice_to_len x). lia.
  - apply Z.ltb_ge in E. lia.
Qed.

Lemma add_overlap_len (overlap : Z) (rest : list str) :
  forall prev c, In c (add_overlap prev rest max_size overlap) ->
                 len c <= max_size.
Proof.
  induction rest as [|seg rest IH]; intros prev c Hin; simpl in Hin; [tauto|].
  destruct Hin as [<- | Hin].
  - apply overlap_chunk_len.
  - apply (IH seg c Hin).
Qed.

End ChunkerBound.

(** C5, as amended.  For [max_size >= 1], every chunk returned by
    [_split_text] has at most [max_size] characters, except a chunk made of
    one sentence piece [s] of a paragraph longer than [max_size] with
    [len s + 2 > max_size]: that chunk is [s] with the separator ". " put
    back, stripped.  When overlap is injected, every chunk after the first is
    within [max_size] outright. *)
Theorem split_text_bound (text : str) (max_size overlap : Z) :
  1 <= max_size ->
  (forall c, In c (_split_text text max_size overlap) ->
             len c <= max_size \/ lone_sentence text max_size c)
  /\ (0 < overlap ->
      forall i c, nth_error (_split_text text max_size overlap) (S i) = Some c ->
                  len c <= max_size).
Proof.
  intros Hmax. assert (H0 : 0 <= max_size) by lia.
  pose proof (first_pass_ok text max_size H0) as Hfp.
  rewrite Forall_forall in Hfp.
  unfold _split_text. destruct (len text <=? max_size) eqn:Hsmall.
  - apply Z.leb_le in Hsmall. split.
    + intros c [<- | []]. left. exact Hsmall.
    + intros _ i c Hnth. destruct i; discriminate Hnth.
  - cbv zeta. destruct (overlap <=? 0) eqn:Hov; simpl orb.
    + split; [exact Hfp|]. intros Hpos. apply Z.leb_le in Hov. lia.
    + destruct (len (first_pass text max_size) <=? 1) eqn:Hone.
      * split; [exact Hfp|]. intros _ i c Hnth. apply Z.leb_le in Hone.
        assert (Hn : nth_error (first_pass text max_size) (S i) <> None)
          by (rewrite Hnth; discriminate).
        apply nth_error_Some in Hn. unfold len in Hone. lia.
      * destruct (first_pass text max_size) as [|s0 rest]; [discriminate Hone|].
        split.
        -- intros c [<- | Hin]; [apply Hfp; left; reflexivity|].
           left. apply (add_overlap_len max_size H0 overlap rest s0 c Hin).
        -- intros _ i c Hnth. simpl in Hnth. apply nth_error_In in Hnth.
           apply (add_overlap_len max_size H0 overlap rest s0 c Hnth).
Qed.

Lemma split_text_bound_witness :
  (forall c, In c (_split_text (lit "abc. de") 3 0) ->
             len c <= 3 \/ lone_sentence (lit "abc. de") 3 c)
  /\ (0 < 0 ->
      forall i c, nth_error (_split_text (lit "abc. de") 3 0) (S i) = Some c ->
                  len c <= 3).
Proof. apply (split_text_bound (lit "abc. de") 3 0). lia. Defined.

(** C5 as stated fails: a text of 14 characters without sentence separator
    comes back, for [max_size = 5], as one chunk of 15 characters that is no
    part of the text (a full stop was added); and a sentence piece of exactly
    [max_size] characters gives a chunk of [max_size + 1] characters. *)
Lemma split_text_oversize_modified :
  _split_text (lit "aaaa bbbb cccc") 5 0 = [lit "aaaa bbbb cccc."]
  /\ 5 < len (lit "aaaa bbbb cccc.")
  /\ ~ occurs_in (lit "aaaa bbbb cccc.") (lit "aaaa bbbb cccc")
  /\ _split_text (lit "abc. de") 3 0 = [lit "abc."; lit "de."]
  /\ len (lit "abc") = 3 /\ 3 < len (lit "abc.").
Proof.
  split; [reflexivity|]. split; [reflexivity|]. split.
  - intros [pre [post H]]. apply (f_equal (@length ascii)) in H.
    rewrite !length_app in H. simpl in H. lia.
  - split; [reflexivity|]. split; reflexivity.
Qed.

(** *** Overlap *)

Section ChunkerOverlap.

Lemma find_char_split (ch : ascii) (s : str) :
  0 <= find_char ch s ->
  exists u v, s = u ++ ch :: v /\ len u = find_char ch s /\ ~ In ch u.
Proof.
  induction s as [|c s IH]; simpl; [lia|].
  destruct (Ascii.eqb c ch) eqn:E.
  - apply Ascii.eqb_eq in E. subst c. intros _.
    exists [], s. repeat split. intros [].
  - destruct (find_char ch s <? 0) eqn:Hneg; [lia|]. intros _.
    apply Z.ltb_ge in Hneg. destruct (IH Hneg) as [u [v [Hs [Hl Hn]]]].
    exists (c :: u), v. repeat split.
    + simpl. congruence.
    + rewrite len_cons. lia.
    + intros [Hc | Hin]; [|exact (Hn Hin)].
      subst c. rewrite Ascii.eqb_refl in E. discriminate.
Qed.

Lemma skipn_past {A} (u v : list A) (c : A) :
  skipn (S (length u)) (u ++ c :: v) = v.
Proof. induction u; simpl; auto. Qed.

(** The window is the tail of the previous segment: all of it, or its last
    [overlap] characters. *)
Lemma tail_window_spec (prev : str) (overlap : Z) :
  0 < overlap ->
  exists pre, prev = pre ++ tail_window prev overlap
              /\ (pre = [] \/ len (tail_window prev overlap) = overlap).
Proof.
  intros Hov. unfold tail_window.
  destruct (overlap <? len prev) eqn:E.
  - apply Z.ltb_lt in E. unfold slice_from.
    exists (firstn (bound prev (- overlap)) prev). split.
    + symmetry. apply firstn_skipn.
    + right. unfold len in *. rewrite length_skipn. unfold bound, len.
      replace (- overlap <? 0) with true by (symmetry; apply Z.ltb_lt; lia).
      lia.
  - exists []. split; [reflexivity | left; reflexivity].
Qed.

(** The overlap text is the window, or what follows the first space of the
    window when that space is not its first character. *)
Lemma overlap_text_spec (prev : str) (overlap : Z) :
  overlap_text prev overlap = tail_window prev overlap
  \/ exists u, tail_window prev overlap
                = u ++ " "%char :: overlap_text prev overlap
               /\ u <> [] /\ ~ In " "%char u.
Proof.
  unfold overlap_text. cbv zeta.
  destruct (0 <? find_char " "%char (tail_window prev overlap)) eqn:E;
    [|left; reflexivity].
  apply Z.ltb_lt in E. right.
  destruct (find_char_split " "%char (tail_window prev overlap))
    as [u [v [Hw [Hl Hn]]]]; [lia|].
  exists u. split; [|split; [|exact Hn]].
  - unfold slice_from, bound.
    replace (find_char " "%char (tail_window prev overlap) + 1 <? 0)
      with false by (symmetry; apply Z.ltb_ge; lia).
    rewrite <- Hl. unfold len.
    replace (Z.to_nat (Z.of_nat (length u) + 1)) with (S (length u)) by lia.
    rewrite Hw at 2. rewrite skipn_past. exact Hw.
  - intros ->. rewrite len_nil in Hl. lia.
Qed.

Lemma find_char_first (ch : ascii) (u v : str) :
  ~ In ch u -> find_char ch (u ++ ch :: v) = len u.
Proof.
  induction u as [|c u IH]; intros Hno.
  - cbn [app find_char]. rewrite Ascii.eqb_refl. reflexivity.
  - cbn [app find_char]. destruct (Ascii.eqb c ch) eqn:E.
    + apply Ascii.eqb_eq in E. exfalso. apply Hno. left. exact E.
    + rewrite IH by (intros H; apply Hno; right; exact H).
      rewrite len_cons. pose proof (len_nonneg u) as Hu.
      destruct (len u <? 0) eqn:Hneg; [apply Z.ltb_lt in Hneg; lia | reflexivity].
Qed.

(** The overlap text ends the window. *)
Lemma overlap_text_suffix (prev : str) (overlap : Z) :
  exists u, tail_window prev overlap = u ++ overlap_text prev overlap.
Proof.
  destruct (overlap_text_spec prev overlap) as [H | [u [H _]]].
  - exists []. rewrite H. reflexivity.
  - exists (u ++ [" "%char]). rewrite <- app_assoc. exact H.
Qed.

(** When the window has a space that is not its first character, the
    overlap text is what follows the first space of the window. *)
Lemma overlap_text_trimmed (prev : str) (overlap : Z) (u v : str) :
  tail_window prev overlap = u ++ " "%char :: v ->
  u <> [] -> ~ In " "%char u ->
  overlap_text prev overlap = v.
Proof.
  intros Hw Hu Hno. unfold overlap_text. cbv zeta. rewrite Hw.
  rewrite (find_char_first " "%char u v Hno).
  assert (Hpos : 0 < len u).
  { destruct u; [congruence|]. rewrite len_cons.
    pose proof (len_nonneg u). lia. }
  replace (0 <? len u) with true by (symmetry; apply Z.ltb_lt; exact Hpos).
  unfold slice_from, bound.
  replace (len u + 1 <? 0) with false by (symmetry; apply Z.ltb_ge; lia).
  unfold len.
  replace (Z.to_nat (Z.of_nat (length u) + 1)) with (S (length u)) by lia.
  apply skipn_past.
Qed.

Lemma add_overlap_nth (max_size overlap : Z) (rest : list str) :
  forall prev i p s,
    nth_error (prev :: rest) i = Some p ->
    nth_error (prev :: rest) (S i) = Some s ->
    nth_error (add_overlap prev rest max_size overlap) i
    = Some (overlap_chunk p s max_size overlap).
Proof.
  induction rest as [|seg rest IH]; intros prev i p s Hp Hs.
  - destruct i; discriminate Hs.
  - destruct i as [|i].
    + simpl in Hp, Hs. injection Hp as <-. injection Hs as <-. reflexivity.
    + simpl. apply IH; assumption.
Qed.

End ChunkerOverlap.

(** C6, as amended.  With [overlap > 0], a chunk after the first is built
    from the previous first-pass segment, not from the previous returned
    chunk: it is the overlap text, a space and its own segment, cut back to
    [max_size] when longer, then stripped.  The overlap text is drawn from
    the tail of the previous segment (all of it, or its last [overlap]
    characters) and ends that tail; when the tail has a space that is not
    its first character, the overlap text is what follows the first space
    of the tail, so that it starts at a word boundary of the segment. *)
Theorem overlap_from_previous_segment
  (text : str) (max_size overlap : Z) (i : nat) (prev seg : str) :
  0 < overlap -> max_size < len text ->
  nth_error (first_pass text max_size) i = Some prev ->
  nth_error (first_pass text max_size) (S i) = Some seg ->
  let w := tail_window prev overlap in
  let o := overlap_text prev overlap in
  let x := o ++ lit " " ++ seg in
  nth_error (_split_text text max_size overlap) (S i)
  = Some (strip (if max_size <? len x then slice_to x max_size else x))
  /\ (exists pre, prev = pre ++ w /\ (pre = [] \/ len w = overlap))
  /\ (exists u, w = u ++ o)
  /\ (forall u v, w = u ++ " "%char :: v -> u <> [] -> ~ In " "%char u -> o = v).
Proof.
  intros Hov Hbig Hp Hs w o x. split; [|split; [|split]].
  - unfold _split_text.
    replace (len text <=? max_size) with false
      by (symmetry; apply Z.leb_gt; exact Hbig).
    cbv zeta.
    replace (overlap <=? 0) with false by (symmetry; apply Z.leb_gt; exact Hov).
    simpl orb.
    destruct (first_pass text max_size) as [|s0 rest] eqn:Hfp;
      [destruct i; discriminate Hp|].
    destruct rest as [|s1 rest]; [destruct i; discriminate Hs|].
    replace (len (s0 :: s1 :: rest) <=? 1) with false
      by (symmetry; apply Z.leb_gt; rewrite !len_cons;
          pose proof (len_nonneg rest); lia).
    change (nth_error (s0 :: add_overlap s0 (s1 :: rest) max_size overlap) (S i))
      with (nth_error (add_overlap s0 (s1 :: rest) max_size overlap) i).
    rewrite (add_overlap_nth max_size overlap (s1 :: rest) s0 i prev seg Hp Hs).
    reflexivity.
  - apply tail_window_spec. exact Hov.
  - apply overlap_text_suffix.
  - intros u v Hw Hu Hno. apply (overlap_text_trimmed prev overlap u v Hw Hu Hno).
Qed.

Lemma overlap_from_previous_segment_witness :
  let text := lit "aa bb" ++ para_sep ++ lit "cc dd" in
  let w := tail_window (lit "aa bb") 4 in
  let o := overlap_text (lit "aa bb") 4 in
  let x := o ++ lit " " ++ lit "cc dd" in
  nth_error (_split_text text 9 4) 1
  = Some (strip (if 9 <? len x then slice_to x 9 else x))
  /\ (exists pre, lit "aa bb" = pre ++ w /\ (pre = [] \/ len w = 4))
  /\ (exists u, w = u ++ o)
  /\ (forall u v, w = u ++ " "%char :: v -> u <> [] -> ~ In " "%char u -> o = v).
Proof.
  apply (overlap_from_previous_segment
           (lit "aa bb" ++ para_sep ++ lit "cc dd") 9 4 0
           (lit "aa bb") (lit "cc dd")); reflexivity.
Defined.

(** C6 as stated fails: with [max_size = 10] and [overlap = 6] the second
    chunk is cut back to "bbb cc u w", and the third chunk starts with
    "wxyz", the last word of the second segment "cc u wxyz", which does not
    end the second chunk. *)
Lemma overlap_not_from_previous_chunk :
  let text := lit "aaaa bbb" ++ para_sep ++ lit "cc u wxyz" ++ para_sep
              ++ lit "eeee fff" in
  first_pass text 10 = [lit "aaaa bbb"; lit "cc u wxyz"; lit "eeee fff"]
  /\ _split_text text 10 6 = [lit "aaaa bbb"; lit "bbb cc u w"; lit "wxyz eeee"]
  /\ overlap_text (lit "cc u wxyz") 6 = lit "wxyz"
  /\ ~ overlap_from_previous_chunk (split_text_traced text 10 6).
Proof.
  cbv zeta. split; [reflexivity|]. split; [reflexivity|]. split; [reflexivity|].
  intros H.
  destruct (H 1%nat
              {| injected := Some (lit "bbb"); segment := lit "cc u wxyz";
                 chunk := lit "bbb cc u w" |}
              {| injected := Some (lit "wxyz"); segment := lit "eeee fff";
                 chunk := lit "wxyz eeee" |}
              (lit "wxyz") eq_refl eq_refl eq_refl) as [pre [Heq _]].
  simpl chunk in Heq. apply (f_equal (@rev ascii)) in Heq.
  rewrite rev_app_distr in Heq. simpl in Heq. discriminate Heq.
Qed.

(** ** Chunk identifiers *)

Section DocIdFacts.
Import DocId.

Lemma uint_digits (d : Decimal.uint) :
  Forall (fun c => is_digit c = true) (lit (NilEmpty.string_of_uint d)).
Proof. induction d; simpl; constructor; auto. Qed.

Lemma str_of_nat_digits (i : nat) :
  Forall (fun c => is_digit c = true) (str_of_nat i).
Proof. apply uint_digits. Qed.

Lemma str_of_nat_inj (i j : nat) : str_of_nat i = str_of_nat j -> i = j.
Proof.
  unfold str_of_nat, lit. intros H.
  apply (f_equal string_of_list_ascii) in H.
  rewrite !string_of_list_ascii_of_string in H.
  apply (f_equal NilEmpty.uint_of_string) in H.
  rewrite !NilEmpty.usu in H. injection H as H.
  apply DecimalNat.Unsigned.to_uint_inj. exact H.
Qed.

Lemma str_of_nat_last (i : nat) :
  exists body c, str_of_nat i = body ++ [c] /\ is_digit c = true.
Proof.
  destruct (exists_last (l := str_of_nat i)) as [body [c Heq]].
  - intros Hnil. assert (H0 : str_of_nat i = str_of_nat 0).
    { unfold str_of_nat, lit in *.
      destruct (Nat.to_uint i) eqn:E; try discriminate Hnil.
      pose proof (DecimalNat.Unsigned.of_to i) as Hi. rewrite E in Hi.
      simpl in Hi. subst i. discriminate E. }
    apply str_of_nat_inj in H0. subst i. discriminate Hnil.
  - exists body, c. split; [exact Heq|].
    pose proof (str_of_nat_digits i) as Hd. rewrite Heq in Hd.
    apply Forall_app in Hd. destruct Hd as [_ Hd]. inversion Hd. assumption.
Qed.

Lemma digit_id_char (c : ascii) : is_digit c = true -> id_char c = true.
Proof. unfold id_char. intros ->. rewrite !orb_true_r. reflexivity. Qed.

Lemma digit_not_hyphen (c : ascii) : is_digit c = true -> is_hyphen c = false.
Proof.
  unfold is_hyphen. destruct (Ascii.eqb c "-"%char) eqn:E; [|reflexivity].
  apply Ascii.eqb_eq in E. subst c. discriminate.
Qed.

Lemma replace_invalid_valid (d : str) :
  Forall (fun c => id_char c = true) d -> replace_invalid d = d.
Proof.
  induction 1 as [|c d Hc _ IH]; simpl; [reflexivity|].
  rewrite Hc. f_equal. exact IH.
Qed.

Lemma squeeze_no_hyphen (d : str) :
  Forall (fun c => is_hyphen c = false) d -> squeeze_hyphens d = d.
Proof.
  induction 1 as [|c d Hc _ IH]; simpl; [reflexivity|].
  rewrite Hc. f_equal. exact IH.
Qed.

(** A character that is no hyphen separates the runs of hyphens. *)
Lemma squeeze_app (x y : str) (c : ascii) :
  is_hyphen c = false ->
  squeeze_hyphens (x ++ c :: y) = squeeze_hyphens x ++ c :: squeeze_hyphens y.
Proof.
  intros Hc. induction x as [|a x IH].
  - simpl. rewrite Hc. reflexivity.
  - destruct x as [|b x].
    + simpl. rewrite Hc. destruct (is_hyphen a); reflexivity.
    + change (squeeze_hyphens ((a :: b :: x) ++ c :: y))
        with (if is_hyphen a
              then if is_hyphen b then squeeze_hyphens ((b :: x) ++ c :: y)
                   else a :: squeeze_hyphens ((b :: x) ++ c :: y)
              else a :: squeeze_hyphens ((b :: x) ++ c :: y)).
      change (squeeze_hyphens (a :: b :: x))
        with (if is_hyphen a
              then if is_hyphen b then squeeze_hyphens (b :: x)
                   else a :: squeeze_hyphens (b :: x)
              else a :: squeeze_hyphens (b :: x)).
      rewrite IH. destruct (is_hyphen a), (is_hyphen b); reflexivity.
Qed.

Lemma lstrip_by_stop (f : ascii -> bool) (x y : str) (c : ascii) :
  f c = false -> lstrip_by f (x ++ c :: y) = lstrip_by f x ++ c :: y.
Proof.
  intros Hc. induction x as [|a x IH]; simpl.
  - rewrite Hc. reflexivity.
  - destruct (f a); [exact IH | reflexivity].
Qed.

Lemma rstrip_by_stop (f : ascii -> bool) (x : str) (c : ascii) :
  f c = false -> rstrip_by f (x ++ [c]) = x ++ [c].
Proof.
  intros Hc. unfold rstrip_by. rewrite rev_app_distr. simpl. rewrite Hc.
  change (c :: rev x) with (rev [c] ++ rev x).
  rewrite <- rev_app_distr. apply rev_involutive.
Qed.

Lemma sanitized_shape (base : str) (i : nat) :
  strip_by is_hyphen
    (squeeze_hyphens (replace_invalid (base ++ lit "_" ++ str_of_nat i)))
  = lstrip_by is_hyphen (squeeze_hyphens (replace_invalid base))
    ++ lit "_" ++ str_of_nat i.
Proof.
  assert (Hvalid : Forall (fun c => id_char c = true) (str_of_nat i)).
  { eapply Forall_impl; [|apply str_of_nat_digits]. apply digit_id_char. }
  assert (Hnohyph : Forall (fun c => is_hyphen c = false) (str_of_nat i)).
  { eapply Forall_impl; [|apply str_of_nat_digits]. apply digit_not_hyphen. }
  unfold replace_invalid at 1. rewrite map_app. fold (replace_invalid base).
  change (map (fun c => if id_char c then c else "-"%char) (lit "_" ++ str_of_nat i))
    with ("_"%char :: replace_invalid (str_of_nat i)).
  rewrite (replace_invalid_valid _ Hvalid).
  rewrite squeeze_app by reflexivity.
  rewrite (squeeze_no_hyphen _ Hnohyph).
  destruct (str_of_nat_last i) as [body [c [Hi Hc]]].
  unfold strip_by.
  replace (squeeze_hyphens (replace_invalid base) ++ "_"%char :: str_of_nat i)
    with ((squeeze_hyphens (replace_invalid base) ++ "_"%char :: body) ++ [c])
    by (rewrite Hi, <- app_assoc; reflexivity).
  rewrite rstrip_by_stop by (apply digit_not_hyphen; exact Hc).
  rewrite <- app_assoc. cbn [app].
  rewrite lstrip_by_stop by reflexivity. rewrite <- Hi. reflexivity.
Qed.

(** The shape of an identifier: what is left of the base name, an
    underscore, the index in decimal. *)
Lemma chunk_id_shape (filename : str) (i : nat) :
  chunk_id filename i
  = lstrip_by is_hyphen (squeeze_hyphens (replace_invalid (splitext_root filename)))
    ++ lit "_" ++ str_of_nat i.
Proof.
  unfold chunk_id. cbv zeta. rewrite sanitized_shape.
  destruct (lstrip_by is_hyphen
              (squeeze_hyphens (replace_invalid (splitext_root filename))));
    reflexivity.
Qed.

Lemma chunk_id_inj (filename : str) (i j : nat) :
  chunk_id filename i = chunk_id filename j -> i = j.
Proof.
  rewrite !chunk_id_shape. intros H. apply app_inv_head in H.
  injection H as H. apply str_of_nat_inj. exact H.
Qed.

Lemma documents_of_ids (doc_path text : str) :
  map d_id (documents_of doc_path text)
  = map (chunk_id (basename doc_path))
        (seq 0 (length (_split_text text max_chunk_size overlap))).
Proof.
  unfold documents_of. cbv zeta. rewrite map_map.
  set (chunks := _split_text text max_chunk_size overlap).
  set (filename := basename doc_path).
  generalize (length chunks) at 1 as total. intros total.
  generalize 0%nat. induction chunks as [|c chunks IH]; intros start.
  - reflexivity.
  - simpl. f_equal. apply IH.
Qed.

End DocIdFacts.

Import DocId.

(** C8, as amended.  The identifier of a chunk is a function of the file
    name and the chunk index alone, and the identifiers of the chunks of one
    source document are pairwise different. *)
Theorem chunk_ids_within_document (doc_path text : str) :
  (forall i d, nth_error (documents_of doc_path text) i = Some d ->
               d_id d = chunk_id (basename doc_path) i)
  /\ NoDup (run_ids (documents_of doc_path text)).
Proof.
  unfold run_ids. rewrite documents_of_ids. split.
  - intros i d Hd.
    assert (Hm : nth_error (map d_id (documents_of doc_path text)) i
                 = Some (d_id d)) by (rewrite nth_error_map, Hd; reflexivity).
    rewrite documents_of_ids, nth_error_map in Hm.
    destruct (nth_error (seq 0 (length (_split_text text max_chunk_size overlap))) i)
      as [k|] eqn:Hk; [|discriminate Hm].
    assert (Hlt : (i < length (seq 0 (length (_split_text text max_chunk_size overlap))))%nat)
      by (apply nth_error_Some; rewrite Hk; discriminate).
    rewrite length_seq in Hlt.
    apply (nth_error_nth _ _ 0%nat) in Hk. rewrite seq_nth in Hk by exact Hlt.
    simpl in Hk, Hm. subst k. injection Hm as Hm. symmetry. exact Hm.
  - apply Injective_map_NoDup; [|apply seq_NoDup].
    intros i j. apply chunk_id_inj.
Qed.

(** C8 as stated fails: two source files of one run whose names differ only
    in the extension give the same identifier to their first chunks. *)
Lemma chunk_ids_collide_across_documents :
  let all_documents := documents_of (lit "kb/guide.pdf") (lit "Opening hours")
                       ++ documents_of (lit "kb/guide.txt") (lit "Return policy") in
  basename (lit "kb/guide.pdf") <> basename (lit "kb/guide.txt")
  /\ run_ids all_documents = [lit "guide_0"; lit "guide_0"]
  /\ ~ NoDup (run_ids all_documents).
Proof.
  cbv zeta. split; [discriminate|]. split; [reflexivity|].
  intros H. change (NoDup [lit "guide_0"; lit "guide_0"]) in H.
  inversion H as [|x l Hnotin _]. apply Hnotin. left. reflexivity.
Qed.

(** ** The Embedding Batcher *)

Section Blocks.
Context {B : Type}.
Variable f : nat -> list B.

Lemma flat_map_seq_S (m : nat) :
  flat_map f (seq 0 (S m)) = flat_map f (seq 0 m) ++ f m.
Proof. rewrite seq_S, flat_map_app. simpl. rewrite app_nil_r. reflexivity. Qed.

(** [m] full blocks of 25. *)
Lemma length_full_blocks (m : nat) :
  (forall k, (k < m)%nat -> length (f k) = 25%nat) ->
  length (flat_map f (seq 0 m)) = (25 * m)%nat.
Proof.
  induction m as [|m IH]; intros H; [reflexivity|].
  rewrite flat_map_seq_S, length_app, IH, H by auto with arith. lia.
Qed.

(** Position [i] of the concatenation is position [i mod 25] of block
    [i / 25], when all blocks but the last are full. *)
Lemma nth_error_blocks (m : nat) :
  (forall k, (S k < m)%nat -> length (f k) = 25%nat) ->
  forall i, (i / 25 < m)%nat ->
    nth_error (flat_map f (seq 0 m)) i = nth_error (f (i / 25)) (i mod 25).
Proof.
  induction m as [|m IH]; intros Hfull i Hi; [lia|].
  rewrite flat_map_seq_S.
  assert (Hlen : length (flat_map f (seq 0 m)) = (25 * m)%nat)
    by (apply length_full_blocks; intros k Hk; apply Hfull; lia).
  pose proof (Nat.div_mod_eq i 25) as Hdm.
  pose proof (Nat.mod_upper_bound i 25 ltac:(lia)) as Hmod.
  destruct (Nat.lt_ge_cases i (25 * m)) as [Hlt | Hge].
  - rewrite nth_error_app1 by lia. apply IH.
    + intros k Hk. apply Hfull. lia.
    + lia.
  - rewrite nth_error_app2 by lia. rewrite Hlen.
    replace (i / 25)%nat with m by lia. f_equal. lia.
Qed.

End Blocks.

Section EmbedFacts.
Import Embed.
Variable V : Type.
Variable get_embeddings : nat -> list str -> option (list V).
Hypothesis Hsvc : one_per_text get_embeddings.

Lemma generate_embeddings_batch_length (k : nat) (texts : list str) :
  length (_generate_embeddings_batch get_embeddings k texts) = length texts.
Proof.
  unfold _generate_embeddings_batch.
  destruct (get_embeddings k (map (fun t => slice_to t 20000) texts)) eqn:E.
  - rewrite length_map. rewrite (Hsvc _ _ _ E). apply length_map.
  - apply repeat_length.
Qed.

Lemma flat_map_map {A B C} (g : A -> B) (h : B -> list C) (l : list A) :
  flat_map h (map g l) = flat_map (fun a => h (g a)) l.
Proof. induction l; simpl; congruence. Qed.

(** The batches by their number instead of their first index. *)
Lemma generate_all_by_number (texts : list str) :
  _generate_all_embeddings get_embeddings texts
  = flat_map (fun k => _generate_embeddings_batch get_embeddings k
                         (batch_at texts (k * 25)))
             (seq 0 ((length texts + 24) / 25)).
Proof.
  unfold _generate_all_embeddings, batch_starts, batch_size.
  rewrite flat_map_map. apply flat_map_ext. intros k.
  rewrite Nat.div_mul by discriminate. reflexivity.
Qed.

Lemma batch_at_length {A} (texts : list A) (k : nat) :
  length (batch_at texts (k * 25)) = Nat.min 25 (length texts - k * 25).
Proof. unfold batch_at, batch_size. rewrite length_firstn, length_skipn. reflexivity. Qed.

Lemma batch_at_nth {A} (texts : list A) (i : nat) :
  nth_error (batch_at texts (i / 25 * 25)) (i mod 25) = nth_error texts i.
Proof.
  unfold batch_at, batch_size.
  pose proof (Nat.div_mod_eq i 25) as Hdm.
  pose proof (Nat.mod_upper_bound i 25 ltac:(lia)) as Hmod.
  rewrite nth_error_firstn.
  replace (i mod 25 <? 25)%nat with true by (symmetry; apply Nat.ltb_lt; lia).
  rewrite nth_error_skipn. f_equal. lia.
Qed.

End EmbedFacts.

Import Embed.
Open Scope nat_scope.

Lemma failing_on_one_per_text (bad : str) : one_per_text (failing_on bad).
Proof.
  intros k batch result. unfold failing_on.
  destruct (existsb (str_eqb bad) batch); [discriminate|].
  intros H. injection H as <-. apply length_map.
Qed.

(** C9, as amended.  For a service that answers one vector per text, the
    result of [_generate_all_embeddings] has the length of the input; the
    text at position [i] is item [i mod 25] of sub-batch [i / 25], which holds
    at most 25 consecutive texts; when the call for that sub-batch fails,
    position [i] is [None] (as is every position of that sub-batch, whatever
    text caused the failure), and otherwise it is the vector the call gave
    for that item. *)
Theorem embeddings_by_sub_batch
  (V : Type) (get_embeddings : nat -> list str -> option (list V))
  (texts : list str) :
  one_per_text get_embeddings ->
  length (_generate_all_embeddings get_embeddings texts) = length texts
  /\ forall i t, nth_error texts i = Some t ->
       let batch := batch_at texts (i / 25 * 25) in
       (length batch <= 25)%nat
       /\ nth_error batch (i mod 25) = Some t
       /\ match get_embeddings (i / 25) (map (fun t => slice_to t 20000) batch) with
          | None =>
              nth_error (_generate_all_embeddings get_embeddings texts) i
              = Some None
          | Some result =>
              exists v, nth_error result (i mod 25) = Some v
                /\ nth_error (_generate_all_embeddings get_embeddings texts) i
                   = Some (Some v)
          end.
Proof.
  intros Hsvc. rewrite generate_all_by_number.
  set (n := length texts). set (m := ((n + 24) / 25)%nat).
  pose proof (Nat.div_mod_eq (n + 24) 25) as Hdm.
  pose proof (Nat.mod_upper_bound (n + 24) 25 ltac:(lia)) as Hmod.
  fold m in Hdm.
  set (F := fun k => _generate_embeddings_batch get_embeddings k
                       (batch_at texts (k * 25))).
  assert (HF : forall k, length (F k) = Nat.min 25 (n - k * 25)).
  { intros k. unfold F.
    rewrite (generate_embeddings_batch_length V get_embeddings Hsvc).
    apply batch_at_length. }
  assert (Hfull : forall k, (S k < m)%nat -> length (F k) = 25%nat).
  { intros k Hk. rewrite HF. lia. }
  split.
  - destruct m as [|m'] eqn:Em.
    + simpl. lia.
    + rewrite flat_map_seq_S, length_app.
      rewrite length_full_blocks by (intros k Hk; apply Hfull; lia).
      rewrite HF. lia.
  - intros i t Hi batch.
    assert (Hlt : (i < n)%nat) by (apply nth_error_Some; rewrite Hi; discriminate).
    pose proof (Nat.div_mod_eq i 25) as Hdi.
    pose proof (Nat.mod_upper_bound i 25 ltac:(lia)) as Hmi.
    assert (Hb : nth_error batch (i mod 25) = Some t)
      by (unfold batch; rewrite batch_at_nth; exact Hi).
    assert (Hlb : i mod 25 < length batch).
    { apply nth_error_Some. intros Hn.
      pose proof (eq_trans (eq_sym Hn) Hb) as Hx. discriminate Hx. }
    split; [unfold batch; rewrite batch_at_length; lia|].
    split; [exact Hb|].
    rewrite (nth_error_blocks F m Hfull i) by lia.
    unfold F, _generate_embeddings_batch. fold batch.
    destruct (get_embeddings (i / 25) (map (fun t0 => slice_to t0 20000) batch))
      as [result|] eqn:E.
    + assert (Hr : (i mod 25 < length result)%nat).
      { rewrite (Hsvc _ _ _ E), length_map. exact Hlb. }
      destruct (nth_error result (i mod 25)) as [v|] eqn:Ev.
      * exists v. split; [reflexivity|]. rewrite nth_error_map, Ev. reflexivity.
      * apply nth_error_None in Ev. lia.
    + apply nth_error_repeat. exact Hlb.
Qed.

Lemma embeddings_by_sub_batch_witness :
  length (_generate_all_embeddings (failing_on (lit "???"))
            [lit "red shirt"; lit "blue shirt"]) = 2%nat.
Proof.
  apply (embeddings_by_sub_batch (list Z) (failing_on (lit "???"))
           [lit "red shirt"; lit "blue shirt"]
           (failing_on_one_per_text (lit "???"))).
Defined.

(** C9 as stated fails in its last part: three texts are one sub-batch, so
    when the call fails because of the second text, the first and the third
    come back as [None] too, although each of them alone is embedded. *)
Lemma one_failing_item_fails_its_sub_batch :
  let svc := failing_on (lit "???") in
  _generate_all_embeddings svc [lit "red shirt"; lit "???"; lit "blue shirt"]
  = [None; None; None]
  /\ _generate_all_embeddings svc [lit "red shirt"] = [Some [9%Z]]
  /\ _generate_all_embeddings svc [lit "blue shirt"] = [Some [10%Z]].
Proof. cbv zeta. repeat split; reflexivity. Qed.

Close Scope nat_scope.

(** ** The Catalog Normalizer *)

Section CatalogFacts.
Import Catalog.

Lemma some_eq {A} (x y : A) : Some x = Some y -> x = y.
Proof. intros H. congruence. Qed.

Lemma nth_error_enumerate_from {A} (l : list A) :
  forall s i, nth_error (combine (seq s (length l)) l) i
              = option_map (fun a => ((s + i)%nat, a)) (nth_error l i).
Proof.
  induction l as [|a l IH]; intros s i.
  - destruct i; reflexivity.
  - destruct i as [|i]; simpl.
    + rewrite Nat.add_0_r. reflexivity.
    + rewrite IH. rewrite Nat.add_succ_r. reflexivity.
Qed.

Lemma nth_error_enumerate {A} (l : list A) (i : nat) :
  nth_error (enumerate l) i = option_map (pair i) (nth_error l i).
Proof. apply (nth_error_enumerate_from l 0 i). Qed.

Lemma in_enumerate {A} (l : list A) (i : nat) (a : A) :
  In (i, a) (enumerate l) -> nth_error l i = Some a.
Proof.
  intros Hin. apply In_nth_error in Hin. destruct Hin as [k Hk].
  rewrite nth_error_enumerate in Hk.
  destruct (nth_error l k) eqn:E; [|discriminate Hk].
  simpl in Hk. injection Hk as <- <-. exact E.
Qed.

Lemma enumerate_cons {A} (a : A) (l : list A) :
  enumerate (a :: l)
  = (0%nat, a) :: map (fun ia => (S (fst ia), snd ia)) (enumerate l).
Proof.
  unfold enumerate. simpl. f_equal.
  rewrite <- seq_shift. generalize (seq 0 (length l)) as ks.
  induction l as [|b l IH]; intros ks; destruct ks; simpl; try reflexivity.
  f_equal. apply IH.
Qed.

(** The variants of a group are numbered from [variant_idx] on. *)
Lemma build_variants_nth (idx : nat) (product_id : Z) (group_rows : list row) :
  forall variant_idx j v,
    nth_error (build_variants idx product_id variant_idx group_rows) j = Some v ->
    v_id v = BASE_VARIANT_ID + Z.of_nat idx * 100 + Z.of_nat (variant_idx + j)
    /\ v_product_id v = product_id.
Proof.
  induction group_rows as [|r rest IH]; intros variant_idx j v Hv.
  - destruct j; discriminate Hv.
  - cbn [build_variants] in Hv.
    destruct (_get_col r [lit "Variant Price"]) as [|c price].
    + apply (IH variant_idx j v Hv).
    + destruct j as [|j].
      * cbn [nth_error] in Hv.
        apply some_eq in Hv. subst v. cbn [v_id v_product_id].
        rewrite Nat.add_0_r. auto.
      * cbn [nth_error] in Hv. apply IH in Hv.
        replace (variant_idx + S j)%nat with (variant_idx + 1 + j)%nat by lia.
        exact Hv.
Qed.

(** One variant for each row of the group that has a price. *)
Lemma build_variants_length (idx : nat) (product_id : Z) (group_rows : list row) :
  forall variant_idx,
    length (build_variants idx product_id variant_idx group_rows)
    = length (filter has_price group_rows).
Proof.
  induction group_rows as [|r rest IH]; intros variant_idx; [reflexivity|].
  cbn [build_variants filter]. unfold has_price at 1.
  destruct (_get_col r [lit "Variant Price"]); cbn [length]; rewrite IH; reflexivity.
Qed.

Lemma from_csv_nth (rows : list row) (i : nat) (p : shopify_product) :
  nth_error (_build_shopify_products_from_csv rows) i = Some p ->
  exists g, nth_error (group_by_handle rows) i = Some g /\ p = build_group (i, g).
Proof.
  unfold _build_shopify_products_from_csv.
  rewrite nth_error_map, nth_error_enumerate.
  destruct (nth_error (group_by_handle rows) i) as [g|]; [|discriminate].
  cbn [option_map]. intros H. apply some_eq in H. exists g. auto.
Qed.

Lemma from_csv_ids (rows : list row) :
  map shopify_product_id (_build_shopify_products_from_csv rows)
  = map (fun i => BASE_PRODUCT_ID + Z.of_nat i)
        (seq 0 (length (group_by_handle rows))).
Proof.
  unfold _build_shopify_products_from_csv, enumerate. rewrite map_map.
  generalize (group_by_handle rows) as gs. intros gs. generalize 0%nat.
  induction gs as [|[h rs] gs IH]; intros s; [reflexivity|].
  cbn [length seq combine map]. f_equal. apply IH.
Qed.

Lemma base_plus_inj : Injective (fun i : nat => BASE_PRODUCT_ID + Z.of_nat i).
Proof. intros i j H. lia. Qed.

End CatalogFacts.

(** Builders that make at most one product out of a row and key it with the
    index of the row. *)
Section RowIndexed.
Import Catalog.
Context {P K : Type}.
Variable build : nat * row -> list P.
Variable key : P -> K.
Variable of_index : nat -> K.
Hypothesis Hkey : forall i r p, In p (build (i, r)) -> key p = of_index i.
Hypothesis Hone : forall ir, (length (build ir) <= 1)%nat.
Hypothesis Hinj : Injective of_index.

Lemma row_indexed_source (rows : list row) (p : P) :
  In p (flat_map build (enumerate rows)) ->
  exists i r, nth_error rows i = Some r /\ In p (build (i, r)).
Proof.
  intros Hin. apply in_flat_map in Hin. destruct Hin as [[i r] [Hir Hp]].
  exists i, r. split; [apply in_enumerate; exact Hir | exact Hp].
Qed.

Lemma row_indexed_keys_from (rows : list row) :
  forall s k,
    In k (map key (flat_map build (combine (seq s (length rows)) rows))) ->
    exists i, (s <= i)%nat /\ k = of_index i.
Proof.
  induction rows as [|r rows IH]; intros s k Hin; [destruct Hin|].
  simpl in Hin. rewrite map_app in Hin. apply in_app_or in Hin.
  destruct Hin as [Hin | Hin].
  - apply in_map_iff in Hin. destruct Hin as [p [<- Hp]].
    exists s. split; [lia | apply (Hkey s r p Hp)].
  - destruct (IH (S s) k Hin) as [i [Hi Hk]]. exists i. split; [lia | exact Hk].
Qed.

Lemma row_indexed_nodup_from (rows : list row) :
  forall s, NoDup (map key (flat_map build (combine (seq s (length rows)) rows))).
Proof.
  induction rows as [|r rows IH]; intros s; [constructor|].
  simpl. rewrite map_app. apply NoDup_app.
  - specialize (Hone (s, r)).
    destruct (build (s, r)) as [|p [|q l]] eqn:E; simpl in *.
    + constructor.
    + constructor; [intros [] | constructor].
    + lia.
  - apply IH.
  - intros k Hk1 Hk2.
    apply in_map_iff in Hk1. destruct Hk1 as [p [<- Hp]].
    destruct (row_indexed_keys_from rows (S s) _ Hk2) as [i [Hi Heq]].
    rewrite (Hkey s r p Hp) in Heq. apply Hinj in Heq. lia.
Qed.

Lemma row_indexed_nodup (rows : list row) :
  NoDup (map key (flat_map build (enumerate rows))).
Proof. apply (row_indexed_nodup_from rows 0). Qed.

End RowIndexed.

Section CatalogBuilders.
Import Catalog.

Lemma str_of_Z_inj (a b : Z) : str_of_Z a = str_of_Z b -> a = b.
Proof.
  unfold str_of_Z, lit. intros H.
  apply (f_equal string_of_list_ascii) in H.
  rewrite !string_of_list_ascii_of_string in H.
  apply (f_equal NilEmpty.int_of_string) in H.
  rewrite !NilEmpty.isi in H. apply some_eq in H.
  apply DecimalZ.to_int_inj. exact H.
Qed.

Lemma base_str_inj :
  Injective (fun i : nat => str_of_Z (BASE_PRODUCT_ID + Z.of_nat i)).
Proof. intros i j H. apply str_of_Z_inj in H. lia. Qed.

Lemma build_generic_spec (i : nat) (r : row) (p : shopify_product) :
  In p (build_generic (i, r)) ->
  shopify_product_id p = BASE_PRODUCT_ID + Z.of_nat i
  /\ exists v, sp_variants p = [v]
       /\ v_id v = BASE_VARIANT_ID + Z.of_nat i * 100 + 0
       /\ v_product_id v = BASE_PRODUCT_ID + Z.of_nat i
       /\ v_title v = lit "Default".
Proof.
  unfold build_generic.
  destruct (_get_col r [lit "title"; lit "name"; lit "product_name";
                        lit "product_title"]) as [|c title]; [intros []|].
  cbv zeta. intros [<- | []]. cbn [shopify_product_id sp_variants].
  split; [reflexivity|]. eexists. split; [reflexivity|].
  cbn [v_id v_product_id v_title]. rewrite Z.add_0_r. auto.
Qed.

Lemma build_generic_one (ir : nat * row) : (length (build_generic ir) <= 1)%nat.
Proof.
  destruct ir as [i r]. unfold build_generic.
  destruct (_get_col r [lit "title"; lit "name"; lit "product_name";
                        lit "product_title"]); cbn [length]; lia.
Qed.

Lemma build_wc_spec (i : nat) (r : row) (p : wc_product) :
  In p (build_wc (i, r)) ->
  wc_product_id p = BASE_PRODUCT_ID + Z.of_nat i /\ wc_variations p = [].
Proof.
  unfold build_wc.
  destruct (_get_col r [lit "name"; lit "title"; lit "product_name";
                        lit "product_title"]) as [|c name]; [intros []|].
  cbv zeta. intros [<- | []]. split; reflexivity.
Qed.

Lemma build_wc_one (ir : nat * row) : (length (build_wc ir) <= 1)%nat.
Proof.
  destruct ir as [i r]. unfold build_wc.
  destruct (_get_col r [lit "name"; lit "title"; lit "product_name";
                        lit "product_title"]); cbn [length]; lia.
Qed.

Lemma build_sq_spec (i : nat) (r : row) (p : sq_product) :
  In p (build_sq (i, r)) ->
  squarespace_product_id p = str_of_Z (BASE_PRODUCT_ID + Z.of_nat i).
Proof.
  unfold build_sq.
  destruct (_get_col r [lit "title"; lit "name"; lit "product_name"])
    as [|c title]; [intros []|].
  cbv zeta. intros [<- | []]. reflexivity.
Qed.

Lemma build_sq_one (ir : nat * row) : (length (build_sq ir) <= 1)%nat.
Proof.
  destruct ir as [i r]. unfold build_sq.
  destruct (_get_col r [lit "title"; lit "name"; lit "product_name"]);
    cbn [length]; lia.
Qed.

End CatalogBuilders.

Import Catalog.

Section SyntheticIds.
Import Ids.

Lemma build_variants_by_position (idx : nat) (product_id : Z) (group_rows : list row) :
  forall variant_idx,
    map (fun v => (v_id v, v_product_id v, v_price v))
        (build_variants idx product_id variant_idx group_rows)
    = map (fun jr => (BASE_VARIANT_ID + Z.of_nat idx * 100 + Z.of_nat (fst jr),
                      product_id, _get_col (snd jr) [lit "Variant Price"]))
          (combine (seq variant_idx (length (filter has_price group_rows)))
                   (filter has_price group_rows)).
Proof.
  induction group_rows as [|r rest IH]; intros variant_idx; [reflexivity|].
  cbn [build_variants filter].
  destruct (_get_col r [lit "Variant Price"]) as [|c price] eqn:E.
  - replace (has_price r) with false by (unfold has_price; rewrite E; reflexivity).
    apply IH.
  - replace (has_price r) with true by (unfold has_price; rewrite E; reflexivity).
    cbn [length seq combine map fst snd v_id v_product_id v_price].
    rewrite E, IH, Nat.add_1_r. reflexivity.
Qed.

(** Builders that make at most one product out of a row: the products are
    those of the rows that pass the test, in the order of the file. *)
Lemma row_builder_by_position {P T : Type} (build : nat * row -> list P)
  (test : nat * row -> bool) (view : P -> T) (expected : nat * row -> T)
  (l : list (nat * row)) :
  (forall ir, map view (build ir) = if test ir then [expected ir] else []) ->
  map view (flat_map build l) = map expected (filter test l).
Proof.
  intros Hone. induction l as [|ir l IH]; [reflexivity|].
  cbn [flat_map filter]. rewrite map_app, IH, Hone.
  destruct (test ir); reflexivity.
Qed.

End SyntheticIds.

(** C7, as amended.  Synthetic identifiers.  In grouped-export mode the
    product of the [i]-th handle group has identifier [BASE_PRODUCT_ID + i],
    and its [j]-th variant, built from the [j]-th row of the group that has
    a variant price, has identifier [BASE_VARIANT_ID + i * 100 + j].  In the
    one-row-per-product modes (Shopify generic, WooCommerce, Squarespace) the
    products are those of the rows that have a title, in the order of the
    file, and the product of the row at position [i] of the file has
    identifier [BASE_PRODUCT_ID + i] (as a decimal string for Squarespace):
    a row without title gives no product and still takes its position.
    The default variant of a generic Shopify product has identifier
    [BASE_VARIANT_ID + i * 100].  The identifiers are a function of the rows
    and their order alone, and no two products of one run share one. *)
Theorem synthetic_ids (rows : list row) :
  map (fun p => (shopify_product_id p, sp_handle p))
      (_build_shopify_products_from_csv rows)
  = map (fun ig => (BASE_PRODUCT_ID + Z.of_nat (fst ig), fst (snd ig)))
        (enumerate (group_by_handle rows))
  /\ (forall i handle group_rows,
        nth_error (group_by_handle rows) i = Some (handle, group_rows) ->
        exists p,
          nth_error (_build_shopify_products_from_csv rows) i = Some p
          /\ map (fun v => (v_id v, v_product_id v, v_price v)) (sp_variants p)
             = map (fun jr => (BASE_VARIANT_ID + Z.of_nat i * 100 + Z.of_nat (fst jr),
                               BASE_PRODUCT_ID + Z.of_nat i,
                               _get_col (snd jr) [lit "Variant Price"]))
                   (Ids.priced group_rows))
  /\ NoDup (map shopify_product_id (_build_shopify_products_from_csv rows))
  /\ map (fun p => (shopify_product_id p, sp_title p,
                    map (fun v => (v_id v, v_product_id v)) (sp_variants p)))
         (_build_shopify_products_generic rows)
     = map (fun ir =>
              (BASE_PRODUCT_ID + Z.of_nat (fst ir),
               _get_col (snd ir) [lit "title"; lit "name"; lit "product_name";
                                  lit "product_title"],
               [(BASE_VARIANT_ID + Z.of_nat (fst ir) * 100,
                 BASE_PRODUCT_ID + Z.of_nat (fst ir))]))
           (Ids.titled [lit "title"; lit "name"; lit "product_name";
                        lit "product_title"] rows)
  /\ NoDup (map shopify_product_id (_build_shopify_products_generic rows))
  /\ map (fun p => (wc_product_id p, wc_name p)) (woocommerce_products rows)
     = map (fun ir =>
              (BASE_PRODUCT_ID + Z.of_nat (fst ir),
               _get_col (snd ir) [lit "name"; lit "title"; lit "product_name";
                                  lit "product_title"]))
           (Ids.titled [lit "name"; lit "title"; lit "product_name";
                        lit "product_title"] rows)
  /\ NoDup (map wc_product_id (woocommerce_products rows))
  /\ map (fun p => (squarespace_product_id p, sq_title p)) (squarespace_products rows)
     = map (fun ir =>
              (str_of_Z (BASE_PRODUCT_ID + Z.of_nat (fst ir)),
               _get_col (snd ir) [lit "title"; lit "name"; lit "product_name"]))
           (Ids.titled [lit "title"; lit "name"; lit "product_name"] rows)
  /\ NoDup (map squarespace_product_id (squarespace_products rows)).
Proof.
  split; [|split; [|split; [|split; [|split; [|split; [|split; [|split]]]]]]].
  - unfold _build_shopify_products_from_csv. rewrite map_map.
    apply map_ext. intros [i [h rs]]. reflexivity.
  - intros i h rs Hg. exists (build_group (i, (h, rs))). split.
    + unfold _build_shopify_products_from_csv.
      rewrite nth_error_map, nth_error_enumerate, Hg. reflexivity.
    + cbn [build_group sp_variants]. unfold Ids.priced, enumerate.
      apply build_variants_by_position.
  - rewrite from_csv_ids. apply Injective_map_NoDup; [|apply seq_NoDup].
    apply base_plus_inj.
  - unfold _build_shopify_products_generic, Ids.titled.
    apply row_builder_by_position. intros [i r]. unfold build_generic.
    cbn [fst snd].
    destruct (_get_col r [lit "title"; lit "name"; lit "product_name";
                          lit "product_title"]) as [|c title]; [reflexivity|].
    cbv zeta.
    cbn [map shopify_product_id sp_title sp_variants v_id v_product_id].
    reflexivity.
  - apply (row_indexed_nodup build_generic shopify_product_id
             (fun i => BASE_PRODUCT_ID + Z.of_nat i)).
    + intros i r p Hin. apply (build_generic_spec i r p Hin).
    + apply build_generic_one.
    + apply base_plus_inj.
  - unfold woocommerce_products, Ids.titled.
    apply row_builder_by_position. intros [i r]. unfold build_wc.
    cbn [fst snd].
    destruct (_get_col r [lit "name"; lit "title"; lit "product_name";
                          lit "product_title"]) as [|c name]; [reflexivity|].
    cbv zeta. cbn [map wc_product_id wc_name]. reflexivity.
  - apply (row_indexed_nodup build_wc wc_product_id
             (fun i => BASE_PRODUCT_ID + Z.of_nat i)).
    + intros i r p Hin. apply (build_wc_spec i r p Hin).
    + apply build_wc_one.
    + apply base_plus_inj.
  - unfold squarespace_products, Ids.titled.
    apply row_builder_by_position. intros [i r]. unfold build_sq.
    cbn [fst snd].
    destruct (_get_col r [lit "title"; lit "name"; lit "product_name"])
      as [|c title]; [reflexivity|].
    cbv zeta. cbn [map squarespace_product_id sq_title]. reflexivity.
  - apply (row_indexed_nodup build_sq squarespace_product_id
             (fun i => str_of_Z (BASE_PRODUCT_ID + Z.of_nat i))).
    + intros i r p Hin. apply (build_sq_spec i r p Hin).
    + apply build_sq_one.
    + apply base_str_inj.
Qed.

(** C7 as stated fails in the one-row-per-product modes: when the first row
    of a file has no title, the first product of the run is the product of
    the second row, and its identifier is [BASE_PRODUCT_ID + 1], not
    [BASE_PRODUCT_ID + 0]. *)
Lemma first_product_takes_the_position_of_its_row :
  let rows := [Examples.price_only; Examples.red_mug] in
  map (fun p => (shopify_product_id p, sp_title p))
      (_build_shopify_products_generic rows)
  = [(BASE_PRODUCT_ID + 1, lit "Red Mug")]
  /\ map wc_product_id (woocommerce_products rows) = [BASE_PRODUCT_ID + 1]
  /\ BASE_PRODUCT_ID + 1 <> BASE_PRODUCT_ID + 0.
Proof.
  cbv zeta. split; [vm_compute; reflexivity|].
  split; [vm_compute; reflexivity | lia].
Qed.

(** ** Storage *)

Section StoreFacts.
Import Store.
Variable V : Type.
Variable fails : nat -> bool.
Variable get_embeddings : nat -> list str -> option (list V).
Variable strip_html : str -> str.

Lemma keeps_ret {A} (a : A) : keeps_committed (ret (V := V) a).
Proof. intros c. reflexivity. Qed.

Lemma keeps_raise {A} (e : exn) : keeps_committed (raise (V := V) (A := A) e).
Proof. intros c. reflexivity. Qed.

Lemma keeps_execute (stmt : tables V -> tables V) :
  keeps_committed (execute fails stmt).
Proof. intros c. unfold execute. destruct (fails (executed c)); reflexivity. Qed.

Lemma keeps_execute_insert (stmt : Z -> tables V -> tables V) :
  keeps_committed (execute_insert fails stmt).
Proof. intros c. unfold execute_insert. destruct (fails (executed c)); reflexivity. Qed.

Lemma keeps_fetchone {A} (q : tables V -> option A) :
  keeps_committed (fetchone fails q).
Proof. intros c. unfold fetchone. destruct (fails (executed c)); reflexivity. Qed.

Lemma keeps_bind {A B} (m : M V A) (k : A -> M V B) :
  keeps_committed m -> (forall a, keeps_committed (k a)) ->
  keeps_committed (bind m k).
Proof.
  intros Hm Hk c. unfold bind. specialize (Hm c).
  destruct (m c) as [[a | e] c1]; simpl in Hm.
  - rewrite Hk. exact Hm.
  - exact Hm.
Qed.

Lemma keeps_ensure_store_entry (merchant_id : str) (pf : platform)
  (shop_url shop_name : option str) :
  keeps_committed (_ensure_store_entry (V := V) fails merchant_id pf shop_url shop_name).
Proof.
  unfold _ensure_store_entry. cbv zeta.
  destruct pf;
    (apply keeps_bind; [apply keeps_execute_insert|]; intros _;
     apply keeps_bind; [apply keeps_fetchone|]; intros [id|];
     [apply keeps_ret | apply keeps_raise]).
Qed.

Lemma keeps_insert_items (store_id : Z) (merchant_id : str)
  (items : list (item * option V)) :
  forall inserted, keeps_committed (insert_items fails store_id merchant_id items inserted).
Proof.
  induction items as [|[it e] items IH]; intros inserted; cbn [insert_items].
  - apply keeps_ret.
  - apply keeps_bind; [apply keeps_execute_insert|]. intros _. apply IH.
Qed.

Lemma keeps_insert_sq_items (store_id : Z) (merchant_id : str)
  (items : list (Catalog.sq_product * option V)) :
  forall inserted,
    keeps_committed (insert_sq_items fails store_id merchant_id items inserted).
Proof.
  induction items as [|[p e] items IH]; intros inserted; cbn [insert_sq_items].
  - apply keeps_ret.
  - apply keeps_bind; [apply keeps_execute_insert|]. intros _.
    apply keeps_bind; [apply keeps_fetchone|]. intros row.
    apply keeps_bind; [|intros _; apply IH].
    destruct row as [id|]; [|apply keeps_ret].
    destruct (id =? 0); [apply keeps_ret | apply keeps_execute].
Qed.

Lemma keeps_import_shopify (merchant_id : str) (store_id : Z) (rows : list Catalog.row) :
  keeps_committed (_import_shopify fails get_embeddings strip_html
                                   merchant_id store_id rows).
Proof.
  unfold _import_shopify. apply keeps_bind; [apply keeps_execute|]. intros _.
  destruct (Catalog.shopify_products rows); [apply keeps_ret|].
  apply keeps_insert_items.
Qed.

Lemma keeps_import_woocommerce (merchant_id : str) (store_id : Z)
  (rows : list Catalog.row) :
  keeps_committed (_import_woocommerce fails get_embeddings strip_html
                                       merchant_id store_id rows).
Proof.
  unfold _import_woocommerce. apply keeps_bind; [apply keeps_execute|]. intros _.
  destruct (Catalog.woocommerce_products rows); [apply keeps_ret|].
  apply keeps_insert_items.
Qed.

Lemma keeps_import_squarespace (merchant_id : str) (store_id : Z)
  (rows : list Catalog.row) :
  keeps_committed (_import_squarespace fails get_embeddings strip_html
                                       merchant_id store_id rows).
Proof.
  unfold _import_squarespace. apply keeps_bind; [apply keeps_execute|]. intros _.
  destruct (Catalog.squarespace_products rows); [apply keeps_ret|].
  apply keeps_insert_sq_items.
Qed.

(** The product import is all or nothing, and a failure of the store is
    raised to the caller. *)
Lemma import_products_all_or_nothing (merchant_id : str) (pf : platform)
  (rows : list Catalog.row) (shop_url shop_name : option str) (c : conn V) :
  rows <> [] ->
  all_or_nothing c (import_products fails get_embeddings strip_html
                                    merchant_id pf rows shop_url shop_name c).
Proof.
  intros Hrows. unfold import_products.
  destruct rows as [|r rows]; [congruence|].
  unfold import_body, bind.
  pose proof (keeps_ensure_store_entry merchant_id pf shop_url shop_name c) as H1.
  destruct (_ensure_store_entry (V := V) fails merchant_id pf shop_url shop_name c)
    as [[sid | e] c1]; simpl in H1; [|simpl; unfold rollback; simpl; auto].
  assert (H2 : forall m : M V nat, keeps_committed m ->
            all_or_nothing c
              (let (o, c') :=
                 (let (o0, c'0) := m c1 in
                  match o0 with
                  | Ok a =>
                      let (o1, c'1) := commit fails c'0 in
                      match o1 with
                      | Ok _ => ret {| product_count := a; store_id := Some sid;
                                       summary_platform := Some pf |} c'1
                      | Raised e => (Raised e, c'1)
                      end
                  | Raised e => (Raised e, c'0)
                  end) in
               match o with
               | Ok r0 => (Ok r0, c')
               | Raised e => (Raised e, rollback c')
               end)).
  { intros m Hm. specialize (Hm c1).
    destruct (m c1) as [[n | e] c2]; simpl in Hm.
    - unfold commit. destruct (fails (executed c2)); simpl.
      + unfold rollback. simpl. rewrite Hm, H1. auto.
      + reflexivity.
    - simpl. unfold rollback. simpl. rewrite Hm, H1. auto. }
  destruct pf; apply H2.
  - apply keeps_import_shopify.
  - apply keeps_import_woocommerce.
  - apply keeps_import_squarespace.
Qed.

Lemma keeps_insert_chunks (merchant_id : str) (items : list (chunk_data * option V)) :
  forall stored c,
    committed (snd (insert_chunks fails merchant_id items stored c)) = committed c.
Proof.
  induction items as [|[chunk [e|]] items IH]; intros stored c; cbn [insert_chunks].
  - reflexivity.
  - pose proof (keeps_execute (insert_chunk merchant_id chunk e) c) as H.
    destruct (execute fails (insert_chunk merchant_id chunk e) c) as [[u | x] c1];
      simpl in H.
    + rewrite IH. exact H.
    + exact H.
  - apply IH.
Qed.

Lemma keeps_store_batches (merchant_id : str) (chunks : list chunk_data)
  (starts : list nat) :
  forall stored c,
    committed (snd (store_batches fails get_embeddings merchant_id chunks
                                  starts stored c)) = committed c.
Proof.
  induction starts as [|i starts IH]; intros stored c; cbn [store_batches].
  - reflexivity.
  - cbv zeta.
    pose proof (keeps_insert_chunks merchant_id
                  (combine (batch_at chunks i)
                     (_generate_embeddings_batch get_embeddings (i / batch_size)
                        (map cd_content (batch_at chunks i)))) stored c) as H.
    destruct (insert_chunks fails merchant_id _ stored c) as [[[u | x] n] c1];
      simpl in H.
    + rewrite IH. exact H.
    + exact H.
Qed.

(** The chunk storage is all or nothing as well, but it never raises: what
    it returns after a failure is the counter [stored]. *)
Lemma store_document_embeddings_settles (merchant_id : str)
  (documents : list document) (c : conn V) :
  let c' := snd (_store_document_embeddings fails get_embeddings
                                            merchant_id documents c) in
  committed c' = working c'
  \/ (committed c' = committed c /\ working c' = committed c).
Proof.
  cbv zeta. unfold _store_document_embeddings.
  pose proof (keeps_execute (delete_chunks merchant_id) c) as H1.
  destruct (execute fails (delete_chunks merchant_id) c) as [[u | e] c1];
    simpl in H1; [|right; simpl; unfold rollback; simpl; auto].
  destruct (flat_map chunk_data_of documents) as [|ch chunks].
  - unfold commit. destruct (fails (executed c1)); simpl.
    + right. unfold rollback. simpl. auto.
    + left. reflexivity.
  - pose proof (keeps_store_batches merchant_id (ch :: chunks)
                  (batch_starts (length (ch :: chunks))) 0 c1) as H2.
    destruct (store_batches fails get_embeddings merchant_id (ch :: chunks)
                (batch_starts (length (ch :: chunks))) 0 c1) as [[[u2 | e] n] c2];
      simpl in H2.
    + unfold commit. destruct (fails (executed c2)); simpl.
      * right. unfold rollback. simpl. rewrite H2, H1. auto.
      * left. reflexivity.
    + right. simpl. unfold rollback. simpl. rewrite H2, H1. auto.
Qed.

End StoreFacts.

(** *** Failures of the store *)

Section Tracking.
Import Store.
Variable V : Type.
Variable fails : nat -> bool.
Variable get_embeddings : nat -> list str -> option (list V).
Variable strip_html : str -> str.

Lemma quiet_refl (c : conn V) : quiet_between fails c c.
Proof. split; [lia | intros n Hn; lia]. Qed.

Lemma quiet_trans (c c1 c2 : conn V) :
  quiet_between fails c c1 -> quiet_between fails c1 c2 ->
  quiet_between fails c c2.
Proof.
  intros [H1 Q1] [H2 Q2]. split; [lia|]. intros n Hn.
  destruct (Nat.lt_ge_cases n (executed c1)); [apply Q1 | apply Q2]; lia.
Qed.

Lemma quiet_step (c c' : conn V) :
  fails (executed c) = false -> executed c' = S (executed c) ->
  quiet_between fails c c'.
Proof.
  intros Hf He. split; [lia|]. intros n Hn.
  replace n with (executed c) by lia. exact Hf.
Qed.

Lemma quiet_not_failed (c c' : conn V) :
  quiet_between fails c c' -> ~ failed_between fails c c'.
Proof. intros [_ Q] [n [Hn Hf]]. rewrite (Q n Hn) in Hf. discriminate. Qed.

Lemma tracks_ret {A} (a : A) : tracks fails (ret (V := V) a).
Proof. intros c. apply quiet_refl. Qed.

Lemma tracks_raise {A} (e : exn) : tracks fails (raise (V := V) (A := A) e).
Proof. intros c. simpl. lia. Qed.

Lemma tracks_execute (stmt : tables V -> tables V) : tracks fails (execute fails stmt).
Proof.
  intros c. unfold execute. destruct (fails (executed c)) eqn:E.
  - simpl. lia.
  - apply quiet_step; [exact E | reflexivity].
Qed.

Lemma tracks_execute_insert (stmt : Z -> tables V -> tables V) :
  tracks fails (execute_insert fails stmt).
Proof.
  intros c. unfold execute_insert. destruct (fails (executed c)) eqn:E.
  - simpl. lia.
  - apply quiet_step; [exact E | reflexivity].
Qed.

Lemma tracks_fetchone {A} (q : tables V -> option A) : tracks fails (fetchone fails q).
Proof.
  intros c. unfold fetchone. destruct (fails (executed c)) eqn:E.
  - simpl. lia.
  - apply quiet_step; [exact E | reflexivity].
Qed.

Lemma tracks_commit : tracks fails (commit (V := V) fails).
Proof.
  intros c. unfold commit. destruct (fails (executed c)) eqn:E.
  - simpl. lia.
  - apply quiet_step; [exact E | reflexivity].
Qed.

Lemma tracks_bind {A B} (m : M V A) (k : A -> M V B) :
  tracks fails m -> (forall a, tracks fails (k a)) -> tracks fails (bind m k).
Proof.
  intros Hm Hk c. unfold bind. specialize (Hm c).
  destruct (m c) as [[a | e] c1]; [|exact Hm].
  specialize (Hk a c1). destruct (k a c1) as [[b | e] c2].
  - apply (quiet_trans c c1 c2 Hm Hk).
  - destruct Hm as [Hm _]. lia.
Qed.

Lemma tracks_ensure_store_entry (merchant_id : str) (pf : platform)
  (shop_url shop_name : option str) :
  tracks fails (_ensure_store_entry (V := V) fails merchant_id pf shop_url shop_name).
Proof.
  unfold _ensure_store_entry. cbv zeta.
  destruct pf;
    (apply tracks_bind; [apply tracks_execute_insert|]; intros _;
     apply tracks_bind; [apply tracks_fetchone|]; intros [id|];
     [apply tracks_ret | apply tracks_raise]).
Qed.

Lemma tracks_insert_items (store_id : Z) (merchant_id : str)
  (items : list (item * option V)) :
  forall inserted, tracks fails (insert_items fails store_id merchant_id items inserted).
Proof.
  induction items as [|[it e] items IH]; intros inserted; cbn [insert_items].
  - apply tracks_ret.
  - apply tracks_bind; [apply tracks_execute_insert|]. intros _. apply IH.
Qed.

Lemma tracks_insert_sq_items (store_id : Z) (merchant_id : str)
  (items : list (sq_product * option V)) :
  forall inserted,
    tracks fails (insert_sq_items fails store_id merchant_id items inserted).
Proof.
  induction items as [|[p e] items IH]; intros inserted; cbn [insert_sq_items].
  - apply tracks_ret.
  - apply tracks_bind; [apply tracks_execute_insert|]. intros _.
    apply tracks_bind; [apply tracks_fetchone|]. intros row.
    apply tracks_bind; [|intros _; apply IH].
    destruct row as [id|]; [|apply tracks_ret].
    destruct (id =? 0); [apply tracks_ret | apply tracks_execute].
Qed.

Lemma tracks_import_body (merchant_id : str) (pf : platform) (rows : list row)
  (shop_url shop_name : option str) :
  tracks fails (import_body fails get_embeddings strip_html
                            merchant_id pf rows shop_url shop_name).
Proof.
  unfold import_body.
  apply tracks_bind; [apply tracks_ensure_store_entry|]. intros sid.
  apply tracks_bind.
  - destruct pf.
    + unfold _import_shopify. apply tracks_bind; [apply tracks_execute|]. intros _.
      destruct (shopify_products rows); [apply tracks_ret | apply tracks_insert_items].
    + unfold _import_woocommerce. apply tracks_bind; [apply tracks_execute|]. intros _.
      destruct (woocommerce_products rows);
        [apply tracks_ret | apply tracks_insert_items].
    + unfold _import_squarespace. apply tracks_bind; [apply tracks_execute|]. intros _.
      destruct (squarespace_products rows);
        [apply tracks_ret | apply tracks_insert_sq_items].
  - intros count. apply tracks_bind; [apply tracks_commit|]. intros _.
    apply tracks_ret.
Qed.

(** A product import that returns normally has had no failing statement. *)
Lemma import_products_raises (merchant_id : str) (pf : platform) (rows : list row)
  (shop_url shop_name : option str) (c : conn V) :
  let res := import_products fails get_embeddings strip_html
               merchant_id pf rows shop_url shop_name c in
  failed_between fails c (snd res) -> exists e, fst res = Raised e.
Proof.
  cbv zeta. unfold import_products. destruct rows as [|r rows].
  - intros [n [Hn _]]. simpl in Hn. lia.
  - pose proof (tracks_import_body merchant_id pf (r :: rows) shop_url shop_name c)
      as Ht.
    destruct (import_body fails get_embeddings strip_html merchant_id pf
                (r :: rows) shop_url shop_name c) as [[s | e] c1].
    + intros Hf. exfalso. apply (quiet_not_failed c c1 Ht). exact Hf.
    + intros _. exists e. reflexivity.
Qed.

Lemma tracks_insert_chunks (merchant_id : str) (items : list (chunk_data * option V)) :
  forall stored c,
    match insert_chunks fails merchant_id items stored c with
    | (Ok _, _, c') => quiet_between fails c c'
    | (Raised _, _, c') => (executed c <= executed c')%nat
    end.
Proof.
  induction items as [|[chunk [e|]] items IH]; intros stored c; cbn [insert_chunks].
  - apply quiet_refl.
  - pose proof (tracks_execute (insert_chunk merchant_id chunk e) c) as H.
    destruct (execute fails (insert_chunk merchant_id chunk e) c) as [[u | x] c1].
    + specialize (IH (stored + 1)%nat c1).
      destruct (insert_chunks fails merchant_id items (stored + 1) c1)
        as [[[u2 | x] n] c2].
      * apply (quiet_trans c c1 c2 H IH).
      * destruct H as [H _]. lia.
    + exact H.
  - apply IH.
Qed.

Lemma tracks_store_batches (merchant_id : str) (chunks : list chunk_data)
  (starts : list nat) :
  forall stored c,
    match store_batches fails get_embeddings merchant_id chunks starts stored c with
    | (Ok _, _, c') => quiet_between fails c c'
    | (Raised _, _, c') => (executed c <= executed c')%nat
    end.
Proof.
  induction starts as [|i starts IH]; intros stored c; cbn [store_batches].
  - apply quiet_refl.
  - cbv zeta.
    pose proof (tracks_insert_chunks merchant_id
                  (combine (batch_at chunks i)
                     (_generate_embeddings_batch get_embeddings (i / batch_size)
                        (map cd_content (batch_at chunks i)))) stored c) as H.
    destruct (insert_chunks fails merchant_id _ stored c) as [[[u | x] n] c1].
    + specialize (IH n c1).
      destruct (store_batches fails get_embeddings merchant_id chunks starts n c1)
        as [[[u2 | x] n2] c2].
      * apply (quiet_trans c c1 c2 H IH).
      * destruct H as [H _]. lia.
    + exact H.
Qed.

(** After a failing statement the chunk storage has rolled back. *)
Lemma store_document_embeddings_rolls_back (merchant_id : str)
  (documents : list document) (c : conn V) :
  let c' := snd (_store_document_embeddings fails get_embeddings
                                            merchant_id documents c) in
  failed_between fails c c' ->
  committed c' = committed c /\ working c' = committed c.
Proof.
  cbv zeta. unfold _store_document_embeddings.
  pose proof (keeps_execute V fails (delete_chunks merchant_id) c) as K1.
  pose proof (tracks_execute (delete_chunks merchant_id) c) as T1.
  destruct (execute fails (delete_chunks merchant_id) c) as [[u | e] c1];
    simpl in K1; [|intros _; simpl; unfold rollback; simpl; auto].
  destruct (flat_map chunk_data_of documents) as [|ch chunks].
  - pose proof (tracks_commit c1) as T2. unfold commit in *.
    destruct (fails (executed c1)); simpl.
    + intros _. unfold rollback. simpl. auto.
    + intros Hf. exfalso.
      apply (quiet_not_failed c _ (quiet_trans c c1 _ T1 T2)). exact Hf.
  - pose proof (keeps_store_batches V fails get_embeddings merchant_id (ch :: chunks)
                  (batch_starts (length (ch :: chunks))) 0 c1) as K2.
    pose proof (tracks_store_batches merchant_id (ch :: chunks)
                  (batch_starts (length (ch :: chunks))) 0 c1) as T2.
    destruct (store_batches fails get_embeddings merchant_id (ch :: chunks)
                (batch_starts (length (ch :: chunks))) 0 c1) as [[[u2 | e] n] c2];
      simpl in K2.
    + pose proof (tracks_commit c2) as T3. unfold commit in *.
      destruct (fails (executed c2)); simpl.
      * intros _. unfold rollback. simpl. rewrite K2, K1. auto.
      * intros Hf. exfalso.
        apply (quiet_not_failed c _
                 (quiet_trans c c2 _ (quiet_trans c c1 c2 T1 T2) T3)).
        exact Hf.
    + intros _. simpl. unfold rollback. simpl. rewrite K2, K1. auto.
Qed.

End Tracking.

(** C3, as amended.  A product of the generic Shopify mode has exactly one
    variant, the synthesized default variant; a product of the grouped-export
    mode has one variant for each row of its handle group with a non-empty
    "Variant Price", which may be none: no default variant is synthesized
    there; a WooCommerce product has an empty list of variations. *)
Theorem variants_of_products (rows : list row) :
  (forall p, In p (_build_shopify_products_generic rows) ->
     exists v, sp_variants p = [v] /\ v_title v = lit "Default")
  /\ (forall i p, nth_error (_build_shopify_products_from_csv rows) i = Some p ->
        exists h group_rows,
          nth_error (group_by_handle rows) i = Some (h, group_rows)
          /\ sp_handle p = h
          /\ length (sp_variants p) = length (filter has_price group_rows))
  /\ (forall p, In p (woocommerce_products rows) -> wc_variations p = []).
Proof.
  split; [|split].
  - intros p Hp. unfold _build_shopify_products_generic in Hp.
    destruct (row_indexed_source build_generic rows p Hp) as [i [r [_ Hin]]].
    destruct (build_generic_spec i r p Hin) as [_ [v [Hv [_ [_ Ht]]]]].
    exists v. auto.
  - intros i p Hp. destruct (from_csv_nth rows i p Hp) as [[h rs] [Hg ->]].
    exists h, rs. split; [exact Hg|]. split; [reflexivity|].
    cbn [build_group sp_variants]. apply build_variants_length.
  - intros p Hp. unfold woocommerce_products in Hp.
    destruct (row_indexed_source build_wc rows p Hp) as [i [r [_ Hin]]].
    apply (build_wc_spec i r p Hin).
Qed.

(** C3 as stated fails: a grouped export whose only row of a handle has no
    variant price gives a product without variants, and a WooCommerce product
    has no variations. *)
Lemma product_without_variants :
  has_handle [Examples.gift_card] = true
  /\ map sp_variants (shopify_products [Examples.gift_card]) = [[]]
  /\ map wc_variations (woocommerce_products [Examples.red_mug]) = [[]].
Proof. repeat split; reflexivity. Qed.

Section InsertLoops.
Import Store.
Variable V : Type.
Variable fails : nat -> bool.
Hypothesis Hno : forall n, fails n = false.

Lemma insert_items_rows (store_id : Z) (merchant_id : str)
  (items : list (item * option V)) :
  forall inserted c,
  exists c',
    insert_items fails store_id merchant_id items inserted c
    = (Ok (inserted + length items)%nat, c')
    /\ products (working c')
       = products (working c) ++ product_rows store_id merchant_id (next_id c) items
    /\ next_id c' = next_id c + Z.of_nat (length items).
Proof.
  induction items as [|[it e] items IH]; intros inserted c.
  - exists c. cbn [insert_items product_rows length]. unfold ret.
    rewrite Nat.add_0_r, app_nil_r, Z.add_0_r. auto.
  - cbn [insert_items]. unfold bind, execute_insert. rewrite Hno.
    match goal with
    | |- context [insert_items fails store_id merchant_id items ?n ?c1] =>
        destruct (IH n c1) as [c' [Hrun [Hrows Hid]]]
    end.
    exists c'. rewrite Hrun. cbn [working products insert_product set_products next_id]
      in Hrows, Hid.
    split; [f_equal; f_equal; cbn [length]; lia|]. split.
    + rewrite Hrows. cbn [product_rows]. rewrite <- app_assoc. reflexivity.
    + rewrite Hid. cbn [length]. lia.
Qed.

Lemma insert_sq_items_rows (store_id : Z) (merchant_id : str)
  (items : list (Catalog.sq_product * option V)) :
  forall inserted c,
  exists c',
    insert_sq_items fails store_id merchant_id items inserted c
    = (Ok (inserted + length items)%nat, c')
    /\ products (working c')
       = products (working c)
         ++ product_rows store_id merchant_id (next_id c)
              (map (fun pe => (SqItem (fst pe), snd pe)) items)
    /\ next_id c' = next_id c + Z.of_nat (length items).
Proof.
  induction items as [|[p e] items IH]; intros inserted c.
  - exists c. cbn [insert_sq_items product_rows length map]. unfold ret.
    rewrite Nat.add_0_r, app_nil_r, Z.add_0_r. auto.
  - cbn [insert_sq_items]. unfold bind at 1. unfold execute_insert. rewrite Hno.
    unfold bind at 1. unfold fetchone. rewrite Hno.
    cbn [working products insert_product set_products executed sent].
    set (c1 := sent _).
    assert (Hmid : forall row : option Z, exists c2,
              (match row with
               | Some db_product_id =>
                   if db_product_id =? 0 then ret tt
                   else execute fails (insert_default_variant db_product_id p)
               | None => ret tt
               end) c1 = (Ok tt, c2)
              /\ products (working c2) = products (working c1)
              /\ next_id c2 = next_id c1).
    { intros [id|]; [destruct (id =? 0)|]; try solve [exists c1; unfold ret; auto].
      unfold execute. rewrite Hno. eexists. split; [reflexivity|].
      split; reflexivity. }
    match goal with
    | |- context [bind ?m _ c1] => destruct (Hmid
        (option_map (@pr_id V)
           (find (is_sq_product (Catalog.squarespace_product_id p) merchant_id)
              (products (working c) ++
               [{| pr_id := next_id c; pr_item := SqItem p;
                   pr_store_id := store_id; pr_merchant_id := merchant_id;
                   pr_embedding := e |}])))) as [c2 [Hrun2 [Hp2 Hid2]]]
    end.
    unfold bind at 1. rewrite Hrun2.
    destruct (IH (inserted + 1)%nat c2) as [c' [Hrun [Hrows Hid]]].
    exists c'. rewrite Hrun. rewrite Hp2 in Hrows. rewrite Hid2 in Hrows, Hid.
    subst c1. cbn [working products sent next_id] in Hrows, Hid.
    split; [f_equal; f_equal; cbn [length]; lia|]. split.
    + rewrite Hrows. cbn [product_rows map fst snd products insert_product set_products].
      rewrite <- app_assoc. reflexivity.
    + rewrite Hid. cbn [length]. lia.
Qed.

Lemma insert_chunks_rows (merchant_id : str) (items : list (chunk_data * option V)) :
  forall stored c,
  exists c',
    insert_chunks fails merchant_id items stored c
    = (Ok tt, (stored + length (embedded items))%nat, c')
    /\ document_chunks (working c')
       = document_chunks (working c)
         ++ map (fun cv => chunk_row_of merchant_id (fst cv) (snd cv))
                (embedded items).
Proof.
  induction items as [|[chunk [e|]] items IH]; intros stored c.
  - exists c. cbn [insert_chunks embedded flat_map length map].
    rewrite Nat.add_0_r, app_nil_r. auto.
  - cbn [insert_chunks]. unfold execute. rewrite Hno.
    match goal with
    | |- context [insert_chunks fails merchant_id items ?n ?c1] =>
        destruct (IH n c1) as [c' [Hrun Hrows]]
    end.
    exists c'. rewrite Hrun.
    cbn [working document_chunks insert_chunk set_document_chunks sent with_working]
      in Hrows.
    split.
    + f_equal. f_equal. unfold embedded. cbn [flat_map snd fst app length]. lia.
    + rewrite Hrows. unfold embedded. cbn [flat_map snd fst app map].
      rewrite <- app_assoc. reflexivity.
  - cbn [insert_chunks]. destruct (IH stored c) as [c' [Hrun Hrows]].
    exists c'. split; [exact Hrun | exact Hrows].
Qed.

Lemma product_rows_items (store_id : Z) (merchant_id : str)
  (items : list (item * option V)) :
  forall id, map (fun r => (pr_item r, pr_embedding r))
                 (product_rows store_id merchant_id id items) = items.
Proof.
  induction items as [|[it e] items IH]; intros id; [reflexivity|].
  cbn [product_rows map pr_item pr_embedding]. rewrite IH. reflexivity.
Qed.

End InsertLoops.

(** *** A run that meets no failure of the store *)

Section FullRefresh.
Import Store.
Variable V : Type.
Variable fails : nat -> bool.
Variable get_embeddings : nat -> list str -> option (list V).
Variable strip_html : str -> str.
Hypothesis Hno : forall n, fails n = false.

Lemma str_eqb_refl (a : str) : Py.str_eqb a a = true.
Proof.
  induction a as [|c a IH]; [reflexivity|].
  simpl. rewrite Ascii.eqb_refl. exact IH.
Qed.

Lemma platform_eqb_refl (pf : platform) : platform_eqb pf pf = true.
Proof. destruct pf; reflexivity. Qed.

Lemma find_of_existsb {A} (P : A -> bool) (l : list A) :
  existsb P l = true -> exists x, find P l = Some x.
Proof.
  induction l as [|a l IH]; simpl; [discriminate|].
  destruct (P a); [intros _; exists a; reflexivity | exact IH].
Qed.

(** After the upsert the store row of the merchant is found. *)
Lemma ensure_store_entry_ok (merchant_id : str) (pf : platform)
  (shop_url shop_name : option str) (c : conn V) :
  exists sid c1,
    _ensure_store_entry fails merchant_id pf shop_url shop_name c = (Ok sid, c1)
    /\ products (working c1) = products (working c)
    /\ next_id c1 = next_id c + 1.
Proof.
  unfold _ensure_store_entry. cbv zeta.
  assert (Hfound : forall (P : store_row -> bool) (stmt : Z -> tables V -> tables V),
            (forall id t, products (stmt id t) = products t) ->
            (forall id t, existsb P (stores (stmt id t)) = true) ->
            exists sid c1,
              bind (execute_insert fails stmt)
                (fun _ =>
                   bind (fetchone fails
                           (fun t => option_map st_id (find P (stores t))))
                     (fun row => match row with
                                 | None => raise ValueError
                                 | Some id => ret id
                                 end)) c = (Ok sid, c1)
              /\ products (working c1) = products (working c)
              /\ next_id c1 = next_id c + 1).
  { intros P stmt Hprod Hex. unfold bind, execute_insert, fetchone.
    rewrite Hno. cbn [executed working]. rewrite Hno.
    destruct (find_of_existsb P _ (Hex (next_id c) (working c))) as [x Hx].
    rewrite Hx. cbn [option_map]. unfold ret.
    eexists. eexists. split; [reflexivity|]. cbn [working sent next_id].
    split; [apply Hprod | reflexivity]. }
  destruct pf.
  - apply Hfound.
    + intros id t. reflexivity.
    + intros id t. unfold upsert_shopify_store. cbn [stores set_stores].
      set (domain := shop_domain _).
      destruct (existsb (store_by_url Shopify domain) (stores t)) eqn:E.
      * apply existsb_exists in E. destruct E as [x [Hin Hx]].
        apply existsb_exists. eexists. split; [apply in_map; exact Hin|].
        cbv beta. rewrite Hx. unfold store_by_url in *. cbn [st_platform st_url].
        apply andb_true_iff in Hx. destruct Hx as [_ Hu]. rewrite Hu. reflexivity.
      * rewrite existsb_app. cbn [existsb]. unfold store_by_url at 2.
        cbn [st_platform st_url]. rewrite str_eqb_refl. cbn.
        apply orb_true_r.
  - apply Hfound.
    + intros id t. reflexivity.
    + intros id t. unfold insert_store_once. cbn [stores set_stores].
      destruct (existsb (store_by_merchant WooCommerce merchant_id) (stores t)) eqn:E;
        [exact E|].
      rewrite existsb_app. cbn [existsb]. unfold store_by_merchant at 2.
      cbn [st_platform st_merchant_id]. rewrite str_eqb_refl. cbn.
      apply orb_true_r.
  - apply Hfound.
    + intros id t. reflexivity.
    + intros id t. unfold insert_store_once. cbn [stores set_stores].
      destruct (existsb (store_by_merchant Squarespace merchant_id) (stores t)) eqn:E;
        [exact E|].
      rewrite existsb_app. cbn [existsb]. unfold store_by_merchant at 2.
      cbn [st_platform st_merchant_id]. rewrite str_eqb_refl. cbn.
      apply orb_true_r.
Qed.


Lemma import_platform_ok (merchant_id : str) (pf : platform) (sid : Z)
  (rows : list row) (c1 : conn V) :
  exists c2,
    match pf with
    | Shopify => _import_shopify fails get_embeddings strip_html merchant_id sid rows
    | WooCommerce =>
        _import_woocommerce fails get_embeddings strip_html merchant_id sid rows
    | Squarespace =>
        _import_squarespace fails get_embeddings strip_html merchant_id sid rows
    end c1
    = (Ok (length (platform_items get_embeddings strip_html pf rows)), c2)
    /\ products (working c2)
       = filter (fun r => negb (of_merchant pf merchant_id r)) (products (working c1))
         ++ product_rows sid merchant_id (next_id c1)
              (platform_items get_embeddings strip_html pf rows).
Proof.
  destruct pf.
  - unfold _import_shopify, platform_items, bind, execute. rewrite Hno. cbv zeta.
    destruct (shopify_products rows) as [|p ps].
    + eexists. split; [reflexivity|]. cbn. rewrite app_nil_r. reflexivity.
    + match goal with
      | |- context [insert_items fails sid merchant_id ?items 0 ?c] =>
          destruct (insert_items_rows V fails Hno sid merchant_id items 0 c)
            as [c2 [Hrun [Hrows _]]]
      end.
      exists c2. split; [exact Hrun | exact Hrows].
  - unfold _import_woocommerce, platform_items, bind, execute. rewrite Hno. cbv zeta.
    destruct (woocommerce_products rows) as [|p ps].
    + eexists. split; [reflexivity|]. cbn. rewrite app_nil_r. reflexivity.
    + match goal with
      | |- context [insert_items fails sid merchant_id ?items 0 ?c] =>
          destruct (insert_items_rows V fails Hno sid merchant_id items 0 c)
            as [c2 [Hrun [Hrows _]]]
      end.
      exists c2. split; [exact Hrun | exact Hrows].
  - unfold _import_squarespace, platform_items, bind, execute. rewrite Hno. cbv zeta.
    destruct (squarespace_products rows) as [|p ps].
    + eexists. split; [reflexivity|]. cbn. rewrite app_nil_r. reflexivity.
    + match goal with
      | |- context [insert_sq_items fails sid merchant_id ?items 0 ?c] =>
          destruct (insert_sq_items_rows V fails Hno sid merchant_id items 0 c)
            as [c2 [Hrun [Hrows _]]]
      end.
      exists c2. rewrite length_map. split; [exact Hrun | exact Hrows].
Qed.

(** A product import that meets no failure replaces the product rows of the
    merchant by one row for every item of the run. *)
Lemma import_products_refreshes (merchant_id : str) (pf : platform)
  (rows : list row) (shop_url shop_name : option str) (c : conn V) :
  rows <> [] ->
  exists sid c',
    import_products fails get_embeddings strip_html
                    merchant_id pf rows shop_url shop_name c
    = (Ok {| product_count :=
               length (platform_items get_embeddings strip_html pf rows);
             store_id := Some sid; summary_platform := Some pf |}, c')
    /\ products (committed c')
       = filter (fun r => negb (of_merchant pf merchant_id r)) (products (working c))
         ++ product_rows sid merchant_id (next_id c + 1)
              (platform_items get_embeddings strip_html pf rows).
Proof.
  intros Hrows. unfold import_products. destruct rows as [|r rows]; [congruence|].
  unfold import_body. unfold bind at 1.
  destruct (ensure_store_entry_ok merchant_id pf shop_url shop_name c)
    as [sid [c1 [Hrun1 [Hp1 Hid1]]]].
  rewrite Hrun1. unfold bind at 1.
  destruct (import_platform_ok merchant_id pf sid (r :: rows) c1)
    as [c2 [Hrun2 Hp2]].
  rewrite Hrun2. unfold bind, commit. rewrite Hno. unfold ret.
  eexists. eexists. split; [reflexivity|]. cbn [committed].
  rewrite Hp2, Hp1, Hid1. reflexivity.
Qed.

Lemma embedded_app (a b : list (chunk_data * option V)) :
  embedded (a ++ b) = embedded a ++ embedded b.
Proof. unfold embedded. apply flat_map_app. Qed.

Lemma store_batches_rows (merchant_id : str) (chunks : list chunk_data)
  (starts : list nat) :
  forall stored c,
  exists c',
    store_batches fails get_embeddings merchant_id chunks starts stored c
    = (Ok tt,
       (stored + length (embedded (chunk_items get_embeddings chunks starts)))%nat,
       c')
    /\ document_chunks (working c')
       = document_chunks (working c)
         ++ map (fun cv => chunk_row_of merchant_id (fst cv) (snd cv))
                (embedded (chunk_items get_embeddings chunks starts)).
Proof.
  induction starts as [|i starts IH]; intros stored c.
  - exists c. cbn [store_batches chunk_items flat_map embedded length map].
    rewrite Nat.add_0_r, app_nil_r. auto.
  - cbn [store_batches]. cbv zeta.
    destruct (insert_chunks_rows V fails Hno merchant_id
                (combine (batch_at chunks i)
                   (_generate_embeddings_batch get_embeddings (i / batch_size)
                      (map cd_content (batch_at chunks i)))) stored c)
      as [c1 [Hrun1 Hrows1]].
    rewrite Hrun1.
    match goal with
    | |- context [store_batches fails get_embeddings merchant_id chunks starts ?n c1] =>
        destruct (IH n c1) as [c2 [Hrun2 Hrows2]]
    end.
    exists c2. rewrite Hrun2.
    unfold chunk_items in *. cbn [flat_map]. cbv zeta.
    rewrite embedded_app, length_app, map_app. split.
    + f_equal. f_equal. lia.
    + rewrite Hrows2, Hrows1. rewrite <- app_assoc. reflexivity.
Qed.

(** A chunk storage that meets no failure replaces the chunk rows of the
    merchant by one row for every chunk that has a vector. *)
Lemma store_document_embeddings_refreshes (merchant_id : str)
  (documents : list document) (c : conn V) :
  let chunks := flat_map chunk_data_of documents in
  let stored := embedded (chunk_items get_embeddings chunks
                            (batch_starts (length chunks))) in
  exists c',
    _store_document_embeddings fails get_embeddings merchant_id documents c
    = (length stored, c')
    /\ document_chunks (committed c')
       = filter (fun r => negb (Py.str_eqb (cr_merchant_id r) merchant_id))
                (document_chunks (working c))
         ++ map (fun cv => chunk_row_of merchant_id (fst cv) (snd cv)) stored.
Proof.
  cbv zeta. unfold _store_document_embeddings, execute. rewrite Hno.
  destruct (flat_map chunk_data_of documents) as [|ch chunks] eqn:E.
  - unfold commit. rewrite Hno. eexists. split; [reflexivity|].
    cbn. rewrite app_nil_r. reflexivity.
  - match goal with
    | |- context [store_batches fails get_embeddings merchant_id ?cs ?st 0 ?c1] =>
        destruct (store_batches_rows merchant_id cs st 0%nat c1)
          as [c2 [Hrun Hrows]]
    end.
    rewrite Hrun. unfold commit. rewrite Hno.
    eexists. split; [reflexivity|]. cbn [committed]. rewrite Hrows. reflexivity.
Qed.

End FullRefresh.

Import Store.

Lemma embedded_in (V : Type) (items : list (chunk_data * option V))
  (chunk : chunk_data) (v : V) :
  In (chunk, v) (embedded items) <-> In (chunk, Some v) items.
Proof.
  unfold embedded. rewrite in_flat_map. split.
  - intros [[ch [e|]] [Hin Hv]]; cbn [fst snd] in Hv; [|destruct Hv].
    destruct Hv as [Hv | []]. injection Hv as -> ->. exact Hin.
  - intros Hin. exists (chunk, Some v). split; [exact Hin | left; reflexivity].
Qed.

(** C2, as amended.  When the store accepts every statement: a product
    import leaves, for the merchant, one product row for every item of the
    run, with the vector when the item has one and with the vector column
    unset when its embedding is [None]; the chunk storage leaves, for the
    merchant, one chunk row for every chunk that has a vector, and none for a
    chunk whose embedding is [None]. *)
Theorem rows_stored_by_a_run
  (V : Type) (fails : nat -> bool)
  (get_embeddings : nat -> list str -> option (list V))
  (strip_html : str -> str) :
  (forall n, fails n = false) ->
  (forall merchant_id pf rows shop_url shop_name (c : conn V),
     rows <> [] ->
     exists sid c',
       import_products fails get_embeddings strip_html
                       merchant_id pf rows shop_url shop_name c
       = (Ok {| product_count :=
                  length (platform_items get_embeddings strip_html pf rows);
                store_id := Some sid; summary_platform := Some pf |}, c')
       /\ products (committed c')
          = filter (fun r => negb (of_merchant pf merchant_id r))
                   (products (working c))
            ++ product_rows sid merchant_id (next_id c + 1)
                 (platform_items get_embeddings strip_html pf rows))
  /\ (forall store_id merchant_id id (items : list (item * option V)),
        map (fun r => (pr_item r, pr_embedding r))
            (product_rows store_id merchant_id id items) = items)
  /\ (forall merchant_id documents (c : conn V),
        let chunks := flat_map chunk_data_of documents in
        let stored := embedded (chunk_items get_embeddings chunks
                                  (batch_starts (length chunks))) in
        exists c',
          _store_document_embeddings fails get_embeddings merchant_id documents c
          = (length stored, c')
          /\ document_chunks (committed c')
             = filter (fun r => negb (Py.str_eqb (cr_merchant_id r) merchant_id))
                      (document_chunks (working c))
               ++ map (fun cv => chunk_row_of merchant_id (fst cv) (snd cv)) stored)
  /\ (forall (items : list (chunk_data * option V)) chunk v,
        In (chunk, v) (embedded items) <-> In (chunk, Some v) items).
Proof.
  intros Hno. split; [|split; [|split]].
  - intros merchant_id pf rows shop_url shop_name c Hrows.
    apply (import_products_refreshes V fails get_embeddings strip_html Hno).
    exact Hrows.
  - intros store_id merchant_id id items. apply product_rows_items.
  - intros merchant_id documents c.
    apply (store_document_embeddings_refreshes V fails get_embeddings Hno).
  - apply embedded_in.
Qed.

Lemma rows_stored_by_a_run_witness :
  let items : list (item * option (list Z)) :=
    platform_items Examples.no_service Examples.no_html WooCommerce
                   [Examples.red_mug; Examples.green_tea] in
  map (@pr_embedding (list Z)) (product_rows 1 Examples.merchant 5 items)
    = [None; None]
  /\ map (fun r => (pr_item r, pr_embedding r))
         (product_rows 1 Examples.merchant 5 items) = items.
Proof.
  split; [reflexivity|].
  apply (rows_stored_by_a_run (list Z) Examples.never Examples.no_service
           Examples.no_html).
  intros n. reflexivity.
Defined.

(** C2 as stated fails for document chunks: with an embedding service whose
    calls fail, and a store that accepts every statement, the two chunks of
    the run are not stored; the merchant is left without chunk rows. *)
Lemma chunk_without_embedding_is_not_stored :
  let res := _store_document_embeddings Examples.never Examples.no_service
               Examples.merchant Examples.two_documents Examples.connection in
  map cd_content (flat_map chunk_data_of Examples.two_documents)
    = [lit "alpha"; lit "beta"]
  /\ fst res = 0%nat
  /\ document_chunks (committed (snd res)) = [].
Proof. cbv zeta. repeat split; reflexivity. Qed.

(** C1, as amended.  On both storage paths the delete-then-insert sequence
    of a merchant is all or nothing: whatever the transaction did is
    committed only when none of its statements failed, and after a failing
    statement the transaction is rolled back and the committed rows are those
    of before.  The product import then raises to its caller; the chunk
    storage does not raise: it rolls back and returns to its caller. *)
Theorem storage_all_or_nothing
  (V : Type) (fails : nat -> bool)
  (get_embeddings : nat -> list str -> option (list V))
  (strip_html : str -> str) :
  (forall merchant_id pf rows shop_url shop_name (c : conn V),
     rows <> [] ->
     let res := import_products fails get_embeddings strip_html
                  merchant_id pf rows shop_url shop_name c in
     all_or_nothing c res
     /\ (failed_between fails c (snd res) -> exists e, fst res = Raised e))
  /\ (forall merchant_id documents (c : conn V),
        let c' := snd (_store_document_embeddings fails get_embeddings
                                                  merchant_id documents c) in
        (committed c' = working c'
         \/ (committed c' = committed c /\ working c' = committed c))
        /\ (failed_between fails c c' ->
            committed c' = committed c /\ working c' = committed c)).
Proof.
  split.
  - intros merchant_id pf rows shop_url shop_name c Hrows. cbv zeta. split.
    + apply import_products_all_or_nothing. exact Hrows.
    + apply import_products_raises.
  - intros merchant_id documents c. cbv zeta. split.
    + apply store_document_embeddings_settles.
    + apply store_document_embeddings_rolls_back.
Qed.

(** C1 as stated fails for document chunks: when the second INSERT of a run
    raises, [_store_document_embeddings] rolls back (the chunk row stored
    before is intact and nothing of the run is stored) and returns, with the
    counter of the rows inserted before the failure, instead of raising;
    [import_products] raises after its rollback. *)
Lemma chunk_storage_swallows_store_failure :
  let res := _store_document_embeddings (Examples.fail_at 2) Examples.service
               Examples.merchant Examples.two_documents Examples.connection in
  let imp := import_products (Examples.fail_at 4) Examples.service Examples.no_html
               Examples.merchant Shopify [Examples.red_mug; Examples.green_tea]
               None None Examples.connection in
  failed_between (Examples.fail_at 2) Examples.connection (snd res)
  /\ fst res = 1%nat
  /\ committed (snd res) = committed Examples.connection
  /\ working (snd res) = committed Examples.connection
  /\ fst imp = Raised DatabaseError
  /\ committed (snd imp) = committed Examples.connection
  /\ working (snd imp) = committed Examples.connection.
Proof.
  cbv zeta. split; [|repeat split; reflexivity].
  exists 2%nat. split; [vm_compute; lia | reflexivity].
Qed.

Section ConvertFacts.
Variable V : Type.
Variable fails : nat -> bool.
Variable get_embeddings : nat -> list str -> option (list V).
Variable file_exists : str -> bool.
Variable read_text : str -> option str.
Variable upload_ok : str -> bool.

Lemma convert_all_skipped (document_paths : list str) :
  (forall p, In p document_paths -> file_exists p = false \/ read_text p = None) ->
  forall all_documents skipped_files,
    fold_left (convert_step file_exists read_text) document_paths
              (all_documents, skipped_files)
    = (all_documents, skipped_files ++ document_paths).
Proof.
  induction document_paths as [|p paths IH]; intros Hskip all_documents skipped_files.
  - simpl. rewrite app_nil_r. reflexivity.
  - cbn [fold_left].
    assert (Hstep : convert_step file_exists read_text (all_documents, skipped_files) p
                    = (all_documents, skipped_files ++ [p])).
    { unfold convert_step. destruct (Hskip p (or_introl eq_refl)) as [He | Hr].
      - rewrite He. reflexivity.
      - rewrite Hr. destruct (negb (file_exists p)); reflexivity. }
    rewrite Hstep. rewrite IH by (intros q Hq; apply Hskip; right; exact Hq).
    rewrite <- app_assoc. reflexivity.
Qed.

End ConvertFacts.

(** C10.  When every source path of a run is skipped (the file is missing
    from the blob store, or its download or extraction raises),
    [convert_documents] returns a summary with no NDJSON path and a document
    count of 0, and leaves the blob store and the connection as they were:
    nothing is uploaded and no statement is sent, so the stored chunk rows of
    the merchant are unchanged. *)
Theorem convert_documents_all_skipped
  (V : Type) (fails : nat -> bool)
  (get_embeddings : nat -> list str -> option (list V))
  (file_exists : str -> bool) (read_text : str -> option str)
  (upload_ok : str -> bool)
  (merchant_id : str) (document_paths : list str) (w : world V) :
  (forall p, In p document_paths -> file_exists p = false \/ read_text p = None) ->
  convert_documents fails get_embeddings file_exists read_text upload_ok
                    merchant_id document_paths w
  = (Ok {| ndjson_path := None; document_count := 0;
           chunks_stored := None; skipped_files := Some document_paths |}, w).
Proof.
  intros Hskip. unfold convert_documents.
  rewrite (convert_all_skipped file_exists read_text document_paths Hskip).
  reflexivity.
Qed.

Lemma convert_documents_all_skipped_witness :
  convert_documents Examples.never Examples.service
    (fun p => Py.str_eqb p (lit "kb/broken.pdf")) (fun p => None) (fun p => true)
    Examples.merchant [lit "kb/missing.pdf"; lit "kb/broken.pdf"]
    {| db := Examples.connection; artifacts := [] |}
  = (Ok {| ndjson_path := None; document_count := 0; chunks_stored := None;
           skipped_files := Some [lit "kb/missing.pdf"; lit "kb/broken.pdf"] |},
     {| db := Examples.connection; artifacts := [] |}).
Proof.
  apply (convert_documents_all_skipped (list Z) Examples.never Examples.service
           (fun p => Py.str_eqb p (lit "kb/broken.pdf")) (fun p => None)
           (fun p => true)).
  intros p Hp. right. reflexivity.
Defined.

(* ================================================================== *)
(** * Further properties of the handlers *)

(** ** Chunker: shape of the result *)

Section ChunkerShape.
Variable f : ascii -> bool.

Lemma lstrip_by_idem (s : str) : lstrip_by f (lstrip_by f s) = lstrip_by f s.
Proof.
  induction s as [|c s IH]; [reflexivity|].
  simpl. destruct (f c) eqn:E; [exact IH|]. simpl. rewrite E. reflexivity.
Qed.

Lemma rstrip_by_idem (s : str) : rstrip_by f (rstrip_by f s) = rstrip_by f s.
Proof. unfold rstrip_by. rewrite rev_involutive, lstrip_by_idem. reflexivity. Qed.

Lemma lstrip_by_app_keep (a b : str) :
  lstrip_by f a <> [] -> lstrip_by f (a ++ b) = lstrip_by f a ++ b.
Proof.
  induction a as [|c a IH]; simpl; [congruence|].
  destruct (f c); [exact IH | reflexivity].
Qed.

Lemma rstrip_by_app_keep (w y : str) :
  rstrip_by f y <> [] -> rstrip_by f (w ++ y) = w ++ rstrip_by f y.
Proof.
  unfold rstrip_by. intros Hy. rewrite rev_app_distr.
  rewrite lstrip_by_app_keep.
  - rewrite rev_app_distr, rev_involutive. reflexivity.
  - intros Hnil. apply Hy. rewrite Hnil. reflexivity.
Qed.

Lemma rstrip_by_head (c : ascii) (y : str) :
  f c = false -> rstrip_by f (c :: y) <> [].
Proof.
  intros Hc. unfold rstrip_by. simpl rev.
  rewrite (lstrip_by_stop f (rev y) [] c Hc).
  intros H. apply (f_equal (@length ascii)) in H.
  rewrite length_rev, length_app in H. simpl in H. lia.
Qed.

(** Stripping twice is stripping once. *)
Lemma strip_by_idem (s : str) : strip_by f (strip_by f s) = strip_by f s.
Proof.
  unfold strip_by. set (z := rstrip_by f s).
  assert (Hz : rstrip_by f z = z) by apply rstrip_by_idem.
  destruct (lstrip_by_split f z) as [w [Hw Hsplit]].
  destruct (lstrip_by f z) as [|c y] eqn:Ey.
  - reflexivity.
  - assert (Hc : f c = false).
    { pose proof (lstrip_by_idem z) as Hi. rewrite Ey in Hi. simpl in Hi.
      destruct (f c) eqn:E; [|reflexivity].
      exfalso. apply (f_equal (@length ascii)) in Hi.
      pose proof (lstrip_by_len f y) as Hl. unfold len in Hl. simpl in Hi. lia. }
    assert (Hr : rstrip_by f (c :: y) = c :: y).
    { clearbody z. rewrite Hsplit in Hz.
      rewrite rstrip_by_app_keep in Hz by (apply rstrip_by_head; exact Hc).
      apply app_inv_head in Hz. exact Hz. }
    rewrite Hr. simpl. rewrite Hc. reflexivity.
Qed.

End ChunkerShape.

Section ChunkerNonEmpty.

Lemma split2_from_nonempty (a b : ascii) (s : str) :
  forall cur, split2_from a b s cur <> [].
Proof.
  assert (H : forall n s cur, (length s <= n)%nat -> split2_from a b s cur <> []).
  { induction n as [|n IH]; intros s0 cur Hn.
    - destruct s0; [discriminate | simpl in Hn; lia].
    - destruct s0 as [|c [|d s0]]; try discriminate.
      change (split2_from a b (c :: d :: s0) cur)
        with (if Ascii.eqb c a && Ascii.eqb d b
              then rev cur :: split2_from a b s0 []
              else split2_from a b (d :: s0) (c :: cur)).
      destruct (Ascii.eqb c a && Ascii.eqb d b); [discriminate|].
      apply IH. simpl in *. lia. }
  intros cur. apply (H (length s)). lia.
Qed.

Lemma sentence_step_current (max_size : Z) (st : list str * str) (s : str) :
  snd (sentence_step max_size st s) <> [].
Proof.
  destruct st as [segments current]. unfold sentence_step.
  destruct (len current + len s + 2 <=? max_size); simpl;
    intros H; apply (f_equal (@length ascii)) in H;
    rewrite !length_app in H; simpl in H; lia.
Qed.

Lemma fold_left_last {A B} (g : A -> B -> A) (l : list B) (x : B) (a : A) :
  fold_left g (l ++ [x]) a = g (fold_left g l a) x.
Proof. rewrite fold_left_app. reflexivity. Qed.

Lemma paragraph_step_current (max_size : Z) (st : list str * str) (p : str) :
  snd (paragraph_step max_size st p) <> [].
Proof.
  destruct st as [segments current]. unfold paragraph_step. cbv zeta.
  destruct (len current + len p + 2 <=? max_size).
  - simpl. intros H. apply (f_equal (@length ascii)) in H.
    rewrite !length_app in H. simpl in H. lia.
  - destruct (max_size <? len p).
    + destruct (exists_last (split2_from_nonempty "."%char " "%char p []))
        as [ss [s Hs]].
      unfold split2. rewrite Hs, fold_left_last. apply sentence_step_current.
    + simpl. intros H. apply (f_equal (@length ascii)) in H.
      rewrite !length_app in H. simpl in H. lia.
Qed.

Lemma flush_nonempty (segments : list str) (current : str) :
  current <> [] -> flush segments current <> [].
Proof.
  intros Hc. destruct current; [congruence|]. simpl.
  intros H. apply (f_equal (@length str)) in H.
  rewrite length_app in H. simpl in H. lia.
Qed.

Lemma first_pass_nonempty (text : str) (max_size : Z) :
  first_pass text max_size <> [].
Proof.
  unfold first_pass.
  destruct (exists_last (split2_from_nonempty NL NL text [])) as [ps [p Hp]].
  unfold split2. rewrite Hp, fold_left_last.
  pose proof (paragraph_step_current max_size
                (fold_left (paragraph_step max_size) ps ([], [])) p) as H.
  destruct (paragraph_step max_size _ p) as [segments current].
  apply flush_nonempty. exact H.
Qed.

Lemma add_overlap_length (max_size overlap : Z) (rest : list str) :
  forall prev, length (add_overlap prev rest max_size overlap) = length rest.
Proof.
  induction rest as [|seg rest IH]; intros prev; simpl; [reflexivity|].
  rewrite IH. reflexivity.
Qed.

Lemma flush_stripped (segments : list str) (current : str) :
  Forall (fun c => strip c = c) segments ->
  Forall (fun c => strip c = c) (flush segments current).
Proof.
  intros H. destruct current; simpl; [exact H|].
  apply Forall_app. split; [exact H|].
  constructor; [apply strip_by_idem | constructor].
Qed.

Lemma sentences_stripped (max_size : Z) (ss : list str) :
  forall st, Forall (fun c => strip c = c) (fst st) ->
    Forall (fun c => strip c = c) (fst (fold_left (sentence_step max_size) ss st)).
Proof.
  induction ss as [|s ss IH]; intros st Hst; [exact Hst|].
  cbn [fold_left]. apply IH. destruct st as [segments current].
  unfold sentence_step. destruct (len current + len s + 2 <=? max_size).
  - exact Hst.
  - simpl. apply flush_stripped. exact Hst.
Qed.

Lemma paragraphs_stripped (max_size : Z) (ps : list str) :
  forall st, Forall (fun c => strip c = c) (fst st) ->
    Forall (fun c => strip c = c) (fst (fold_left (paragraph_step max_size) ps st)).
Proof.
  induction ps as [|p ps IH]; intros st Hst; [exact Hst|].
  cbn [fold_left]. apply IH. destruct st as [segments current].
  unfold paragraph_step. cbv zeta.
  destruct (len current + len p + 2 <=? max_size); [exact Hst|].
  destruct (max_size <? len p).
  - apply sentences_stripped. simpl. apply flush_stripped. exact Hst.
  - simpl. apply flush_stripped. exact Hst.
Qed.

Lemma first_pass_stripped (text : str) (max_size : Z) :
  Forall (fun c => strip c = c) (first_pass text max_size).
Proof.
  unfold first_pass.
  pose proof (paragraphs_stripped max_size (split2 NL NL text) ([], [])
                (Forall_nil _)) as H.
  destruct (fold_left (paragraph_step max_size) (split2 NL NL text) ([], []))
    as [segments current].
  apply flush_stripped. exact H.
Qed.

Lemma add_overlap_stripped (max_size overlap : Z) (rest : list str) :
  forall prev, Forall (fun c => strip c = c) (add_overlap prev rest max_size overlap).
Proof.
  induction rest as [|seg rest IH]; intros prev; simpl; constructor.
  - unfold overlap_chunk. cbv zeta. apply strip_by_idem.
  - apply IH.
Qed.

End ChunkerNonEmpty.

Lemma split_text_never_empty_aux (text : str) (max_size overlap : Z) :
  _split_text text max_size overlap <> [].
Proof.
  unfold _split_text. destruct (len text <=? max_size); [discriminate|].
  cbv zeta. pose proof (first_pass_nonempty text max_size) as H.
  destruct ((overlap <=? 0) || (len (first_pass text max_size) <=? 1));
    [exact H|].
  destruct (first_pass text max_size); [congruence | discriminate].
Qed.

(** X1.  [_split_text] never returns an empty list: whatever the text, the
    maximum size and the overlap, there is at least one chunk. *)
Theorem split_text_never_empty (text : str) (max_size overlap : Z) :
  _split_text text max_size overlap <> [].
Proof. apply split_text_never_empty_aux. Qed.

(** X2.  The overlap changes the chunks, not their number: for every overlap
    [_split_text] returns as many chunks as without overlap. *)
Theorem split_text_count_without_overlap (text : str) (max_size overlap : Z) :
  length (_split_text text max_size overlap)
  = length (_split_text text max_size 0).
Proof.
  unfold _split_text. destruct (len text <=? max_size); [reflexivity|].
  cbv zeta. change (0 <=? 0) with true. cbn [orb].
  destruct ((overlap <=? 0) || (len (first_pass text max_size) <=? 1));
    [reflexivity|].
  destruct (first_pass text max_size) as [|s0 rest]; [reflexivity|].
  simpl. rewrite add_overlap_length. reflexivity.
Qed.

(** X3.  When the text is longer than [max_size], every returned chunk is
    stripped: it has no leading and no trailing whitespace. *)
Theorem split_text_chunks_stripped (text : str) (max_size overlap : Z) (c : str) :
  max_size < len text ->
  In c (_split_text text max_size overlap) -> strip c = c.
Proof.
  intros Hbig. unfold _split_text.
  replace (len text <=? max_size) with false
    by (symmetry; apply Z.leb_gt; exact Hbig).
  cbv zeta. pose proof (first_pass_stripped text max_size) as Hfp.
  destruct ((overlap <=? 0) || (len (first_pass text max_size) <=? 1)).
  - intros Hin. rewrite Forall_forall in Hfp. apply Hfp. exact Hin.
  - destruct (first_pass text max_size) as [|s0 rest]; [intros []|].
    intros [<- | Hin].
    + inversion Hfp. assumption.
    + pose proof (add_overlap_stripped max_size overlap rest s0) as Ha.
      rewrite Forall_forall in Ha. apply Ha. exact Hin.
Qed.

Lemma split_text_chunks_stripped_witness :
  strip (lit "bb cc dd") = lit "bb cc dd".
Proof.
  apply (split_text_chunks_stripped (lit "aa bb" ++ para_sep ++ lit "cc dd") 9 3).
  - reflexivity.
  - right. left. reflexivity.
Defined.

(** ** Chunk identifiers and documents *)

Section ChunkIdShape.

Lemma replace_invalid_valid_chars (s : str) :
  Forall (fun c => id_char c = true) (replace_invalid s).
Proof.
  induction s as [|c s IH]; simpl; constructor; [|exact IH].
  destruct (id_char c) eqn:E; [exact E | reflexivity].
Qed.

Lemma squeeze_hyphens_forall (P : ascii -> Prop) (s : str) :
  Forall P s -> Forall P (squeeze_hyphens s).
Proof.
  induction 1 as [|c s Hc Hs IH]; [constructor|].
  cbn [squeeze_hyphens]. destruct (is_hyphen c).
  - destruct s as [|d s]; [constructor; [exact Hc | constructor]|].
    destruct (is_hyphen d); [exact IH | constructor; [exact Hc | exact IH]].
  - constructor; [exact Hc | exact IH].
Qed.

Lemma lstrip_by_forall (f : ascii -> bool) (P : ascii -> Prop) (s : str) :
  Forall P s -> Forall P (lstrip_by f s).
Proof.
  intros H. destruct (lstrip_by_split f s) as [w [_ Hs]].
  rewrite Hs in H. apply Forall_app in H. apply H.
Qed.

Lemma lstrip_by_first (f : ascii -> bool) (s : str) (c : ascii) (rest : str) :
  lstrip_by f s = c :: rest -> f c = false.
Proof.
  induction s as [|a s IH]; simpl; [discriminate|].
  destruct (f a) eqn:E; [exact IH|]. intros H. injection H as <- _. exact E.
Qed.

End ChunkIdShape.

(** X4.  A chunk identifier is never empty, is made of the characters
    [a-zA-Z0-9-_] only, does not begin with a hyphen and ends with a digit;
    so the fall-back identifier "doc-<i>" is never used. *)
Theorem chunk_id_well_formed (filename : str) (i : nat) :
  Forall (fun c => id_char c = true) (chunk_id filename i)
  /\ (exists c rest, chunk_id filename i = c :: rest /\ is_hyphen c = false)
  /\ (exists body d, chunk_id filename i = body ++ [d] /\ is_digit d = true)
  /\ chunk_id filename i <> lit "doc-" ++ str_of_nat i.
Proof.
  rewrite chunk_id_shape.
  set (L := lstrip_by is_hyphen
              (squeeze_hyphens (replace_invalid (splitext_root filename)))).
  assert (HL : Forall (fun c => id_char c = true) L).
  { apply lstrip_by_forall, squeeze_hyphens_forall, replace_invalid_valid_chars. }
  assert (Hfirst : exists c rest,
            L ++ lit "_" ++ str_of_nat i = c :: rest /\ is_hyphen c = false).
  { destruct L as [|c rest] eqn:EL.
    - exists "_"%char, (str_of_nat i). split; reflexivity.
    - exists c, (rest ++ lit "_" ++ str_of_nat i). split; [reflexivity|].
      apply (lstrip_by_first is_hyphen _ c rest EL). }
  split; [|split; [|split]].
  - apply Forall_app. split; [exact HL|]. constructor; [reflexivity|].
    eapply Forall_impl; [|apply str_of_nat_digits]. apply digit_id_char.
  - exact Hfirst.
  - destruct (str_of_nat_last i) as [body [d [Hi Hd]]].
    exists (L ++ lit "_" ++ body), d. split; [|exact Hd].
    rewrite Hi. rewrite <- !app_assoc. reflexivity.
  - intros H. rewrite app_assoc in H. apply app_inv_tail in H.
    apply (f_equal (@rev ascii)) in H. rewrite rev_app_distr in H.
    simpl in H. discriminate H.
Qed.

Section DocumentsShape.

Lemma documents_of_nth (doc_path text : str) (i : nat) (d : document) :
  nth_error (documents_of doc_path text) i = Some d ->
  exists chunk,
    nth_error (_split_text text max_chunk_size DocId.overlap) i = Some chunk
    /\ d = make_document doc_path (basename doc_path)
                         (length (_split_text text max_chunk_size DocId.overlap))
                         (i, chunk).
Proof.
  unfold documents_of. cbv zeta. rewrite nth_error_map.
  pose proof (nth_error_enumerate (_split_text text max_chunk_size DocId.overlap) i)
    as He. unfold Catalog.enumerate in He. rewrite He.
  destruct (nth_error (_split_text text max_chunk_size DocId.overlap) i)
    as [chunk|]; [|discriminate].
  cbn [option_map]. intros H. apply some_eq in H. exists chunk. auto.
Qed.

Lemma documents_of_length (doc_path text : str) :
  length (documents_of doc_path text)
  = length (_split_text text max_chunk_size DocId.overlap).
Proof.
  unfold documents_of. cbv zeta.
  rewrite length_map, length_combine, length_seq. apply Nat.min_id.
Qed.

End DocumentsShape.

(** X5.  The documents built from one source file are never empty; the
    document at position [i] holds chunk [i] of the text, with
    [chunk_index = i], with [total_chunks] equal to the number of documents
    of the file, and with the path and the base name of the file. *)
Theorem documents_of_one_per_chunk (doc_path text : str) :
  documents_of doc_path text <> []
  /\ forall i d, nth_error (documents_of doc_path text) i = Some d ->
       nth_error (_split_text text max_chunk_size DocId.overlap) i
         = Some (d_content d)
       /\ d_chunk_index d = i
       /\ d_total_chunks d = length (documents_of doc_path text)
       /\ d_source d = doc_path
       /\ d_filename d = basename doc_path.
Proof.
  split.
  - intros H. apply (f_equal (@length document)) in H.
    rewrite documents_of_length in H.
    pose proof (split_text_never_empty_aux text max_chunk_size DocId.overlap) as Hne.
    destruct (_split_text text max_chunk_size DocId.overlap); [congruence|].
    discriminate H.
  - intros i d Hd. destruct (documents_of_nth doc_path text i d Hd)
      as [chunk [Hc ->]].
    rewrite documents_of_length. cbn. auto.
Qed.

(** ** Embedding batcher: what the service is asked *)

Section ServiceCalls.
Import Embed.
Variable V : Type.

Lemma in_batch_starts (n i : nat) :
  In i (batch_starts n) -> (i < n)%nat.
Proof.
  unfold batch_starts, batch_size. intros Hin.
  apply in_map_iff in Hin. destruct Hin as [k [<- Hk]].
  apply in_seq in Hk.
  pose proof (Nat.div_mod_eq (n + (25 - 1)) 25) as Hdm.
  pose proof (Nat.mod_upper_bound (n + (25 - 1)) 25 ltac:(lia)) as Hmod.
  lia.
Qed.

Lemma truncated_len (texts : list str) :
  Forall (fun t => len t <= 20000) (map (fun t => slice_to t 20000) texts).
Proof.
  induction texts as [|t texts IH]; simpl map; constructor; [|exact IH].
  apply slice_to_len. lia.
Qed.

Lemma batch_at_nonempty {A} (texts : list A) (i : nat) :
  (i < length texts)%nat -> batch_at texts i <> [].
Proof.
  intros Hi H. apply (f_equal (@length A)) in H.
  unfold batch_at, batch_size in H. rewrite length_firstn, length_skipn in H.
  cbn [length] in H. lia.
Qed.

Lemma batch_at_at_most {A} (texts : list A) (i : nat) :
  (length (batch_at texts i) <= 25)%nat.
Proof. unfold batch_at, batch_size. rewrite length_firstn. lia. Qed.

End ServiceCalls.

(** X6.  [_generate_all_embeddings] asks the service only for batches of 1
    to 25 texts of at most 20000 characters each: two services that agree on
    such batches give the same result on every list of texts. *)
Theorem embeddings_depend_on_admissible_calls
  (V : Type) (g g' : nat -> list str -> option (list V)) (texts : list str) :
  (forall k batch,
     batch <> [] -> (length batch <= 25)%nat ->
     Forall (fun t => len t <= 20000) batch ->
     g k batch = g' k batch) ->
  Embed._generate_all_embeddings g texts = Embed._generate_all_embeddings g' texts.
Proof.
  intros Hagree. unfold Embed._generate_all_embeddings.
  rewrite !flat_map_concat_map. f_equal. apply map_ext_in. intros i Hi.
  apply in_batch_starts in Hi.
  unfold Embed._generate_embeddings_batch. rewrite Hagree; [reflexivity | | |].
  - intros H. apply map_eq_nil in H. revert H. apply batch_at_nonempty. exact Hi.
  - rewrite length_map. apply batch_at_at_most.
  - apply truncated_len.
Qed.

Lemma embeddings_depend_on_admissible_calls_witness :
  Embed._generate_all_embeddings Examples.service [lit "red shirt"; lit "blue shirt"]
  = Embed._generate_all_embeddings Examples.capped_service
      [lit "red shirt"; lit "blue shirt"].
Proof.
  apply (embeddings_depend_on_admissible_calls (list Z) Examples.service
           Examples.capped_service).
  intros k batch _ Hlen _. unfold Examples.capped_service.
  apply Nat.leb_le in Hlen. unfold str in *. rewrite Hlen. reflexivity.
Defined.

(** ** Catalog: column look-up, grouping, slugs *)

Section ColumnLookup.

Lemma str_eqb_eq (a b : str) : str_eqb a b = true <-> a = b.
Proof.
  revert b. induction a as [|c a IH]; intros [|d b]; simpl; split;
    try discriminate; try reflexivity.
  - intros H. apply andb_true_iff in H. destruct H as [Hc Ha].
    apply Ascii.eqb_eq in Hc. apply IH in Ha. congruence.
  - intros H. injection H as -> ->. rewrite Ascii.eqb_refl. apply IH. reflexivity.
Qed.

Lemma str_eqb_neq (a b : str) : a <> b -> str_eqb a b = false.
Proof.
  intros H. destruct (str_eqb a b) eqn:E; [|reflexivity].
  apply str_eqb_eq in E. congruence.
Qed.

Lemma row_lower_get_from_absent (r : row) (key : str) :
  (forall kv, In kv r -> strip (lower (fst kv)) <> key) ->
  forall acc,
    fold_left (fun acc kv => if str_eqb (strip (lower (fst kv))) key
                             then snd kv else acc) r acc = acc.
Proof.
  induction r as [|kv r IH]; intros Habs acc; [reflexivity|].
  cbn [fold_left]. rewrite str_eqb_neq by (apply Habs; left; reflexivity).
  apply IH. intros kv' Hin. apply Habs. right. exact Hin.
Qed.

Lemma row_lower_get_same (r r' : row) (key : str) :
  Forall2 (fun kv kv' => strip (lower (fst kv)) = strip (lower (fst kv'))
                         /\ snd kv = snd kv') r r' ->
  row_lower_get r key = row_lower_get r' key.
Proof.
  unfold row_lower_get. intros H. generalize (CStr []).
  induction H as [|kv kv' r r' [Hk Hv] _ IH]; intros acc; [reflexivity|].
  cbn [fold_left]. rewrite Hk, Hv. apply IH.
Qed.

End ColumnLookup.

(** X7.  [_get_col] returns the empty string when the row has no column
    whose name, lower-cased and stripped, is one of the keys. *)
Theorem get_col_absent (r : row) (keys : list str) :
  (forall key kv, In key keys -> In kv r ->
     strip (lower (fst kv)) <> strip (lower key)) ->
  _get_col r keys = [].
Proof.
  induction keys as [|key keys IH]; intros Habs; [reflexivity|].
  cbn [_get_col]. unfold row_lower_get.
  rewrite row_lower_get_from_absent
    by (intros kv Hin; apply (Habs key kv); [left; reflexivity | exact Hin]).
  change (strip []) with (@nil ascii).
  apply IH. intros key' kv Hk Hin. apply Habs; [right; exact Hk | exact Hin].
Qed.

Lemma get_col_absent_witness :
  _get_col [(lit "Title", CStr (lit "Red Mug"))] [lit "handle"; lit "slug"] = [].
Proof.
  apply (get_col_absent [(lit "Title", CStr (lit "Red Mug"))]
           [lit "handle"; lit "slug"]).
  intros key kv Hk Hin. each_member Hk; each_member Hin; discriminate.
Defined.

(** X8.  [_get_col] reads column names and keys without regard to case and
    to surrounding whitespace: rows with the same cells under names that are
    equal once lower-cased and stripped, asked with keys that are equal once
    lower-cased and stripped, give the same value. *)
Theorem get_col_ignores_case_and_padding (r r' : row) (keys keys' : list str) :
  Forall2 (fun kv kv' => strip (lower (fst kv)) = strip (lower (fst kv'))
                         /\ snd kv = snd kv') r r' ->
  map (fun k => strip (lower k)) keys = map (fun k => strip (lower k)) keys' ->
  _get_col r keys = _get_col r' keys'.
Proof.
  intros Hrows. revert keys'.
  induction keys as [|key keys IH]; intros [|key' keys'] Hkeys;
    try discriminate Hkeys; [reflexivity|].
  cbn [map] in Hkeys. injection Hkeys as Hk Hks.
  cbn [_get_col]. rewrite Hk, (row_lower_get_same r r' _ Hrows).
  rewrite (IH keys' Hks). reflexivity.
Qed.

Lemma get_col_ignores_case_and_padding_witness :
  _get_col [(lit "Title", CStr (lit "Red Mug"))] [lit "title"]
  = _get_col [(lit " TITLE ", CStr (lit "Red Mug"))] [lit "Title "].
Proof.
  apply (get_col_ignores_case_and_padding
           [(lit "Title", CStr (lit "Red Mug"))]
           [(lit " TITLE ", CStr (lit "Red Mug"))] [lit "title"] [lit "Title "]).
  - constructor; [split; reflexivity | constructor].
  - reflexivity.
Defined.

Section Grouping.

Lemma group_add_known (groups : list (str * list row)) (h : str) (r : row) :
  In h (map fst groups) ->
  map fst (group_add groups h r) = map fst groups
  /\ forall h' rs',
       NoDup (map fst groups) ->
       In (h', rs') (group_add groups h r) ->
       (h' <> h /\ In (h', rs') groups)
       \/ (h' = h /\ exists rs, In (h, rs) groups /\ rs' = rs ++ [r]).
Proof.
  induction groups as [|[k rs] groups IH]; intros Hin; [destruct Hin|].
  cbn [group_add]. destruct (str_eqb k h) eqn:E.
  - apply str_eqb_eq in E. subst k. split; [reflexivity|].
    intros h' rs' Hnd [Heq | Hin'].
    + injection Heq as <- <-. right. split; [reflexivity|].
      exists rs. split; [left; reflexivity | reflexivity].
    + left. split; [|right; exact Hin'].
      intros ->. inversion Hnd as [|x l Hnot _]. apply Hnot.
      apply (in_map fst) in Hin'. exact Hin'.
  - assert (Hk : k <> h) by (intros ->; rewrite str_eqb_refl in E; discriminate).
    destruct Hin as [Hin | Hin]; [simpl in Hin; congruence|].
    destruct (IH Hin) as [Hkeys Hmem]. split.
    + cbn [map fst]. rewrite Hkeys. reflexivity.
    + intros h' rs' Hnd [Heq | Hin'].
      * injection Heq as <- <-. left. split; [exact Hk | left; reflexivity].
      * inversion Hnd as [|x l _ Hnd']. subst.
        destruct (Hmem h' rs' Hnd' Hin') as [[Hne Hg] | [-> [rs0 [Hg ->]]]].
        -- left. split; [exact Hne | right; exact Hg].
        -- right. split; [reflexivity|]. exists rs0. split; [right; exact Hg|].
           reflexivity.
Qed.

Lemma group_add_new (groups : list (str * list row)) (h : str) (r : row) :
  ~ In h (map fst groups) -> group_add groups h r = groups ++ [(h, [r])].
Proof.
  induction groups as [|[k rs] groups IH]; intros Hnot; [reflexivity|].
  cbn [group_add]. rewrite str_eqb_neq.
  - rewrite IH; [reflexivity|]. intros Hin. apply Hnot. right. exact Hin.
  - intros ->. apply Hnot. left. reflexivity.
Qed.

Lemma filter_none {A} (f : A -> bool) (l : list A) :
  (forall x, In x l -> f x = false) -> filter f l = [].
Proof.
  induction l as [|a l IH]; intros H; [reflexivity|].
  simpl. rewrite (H a (or_introl eq_refl)). apply IH.
  intros x Hx. apply H. right. exact Hx.
Qed.

(** What the grouping loop keeps true of the rows read so far. *)
Lemma group_by_handle_spec (rows : list row) :
  NoDup (map fst (group_by_handle rows))
  /\ (forall h rs, In (h, rs) (group_by_handle rows) ->
        h <> [] /\ rs <> []
        /\ rs = filter (fun r => str_eqb (_get_col r [lit "Handle"]) h) rows)
  /\ (forall r, In r rows -> _get_col r [lit "Handle"] <> [] ->
        In (_get_col r [lit "Handle"]) (map fst (group_by_handle rows))).
Proof.
  unfold group_by_handle.
  induction rows as [|r rows IH] using rev_ind.
  - simpl. split; [constructor|]. split; [intros h rs [] | intros r []].
  - rewrite fold_left_last.
    set (groups := fold_left _ rows []) in *.
    destruct IH as [Hnd [Hgrp Hall]].
    destruct (_get_col r [lit "Handle"]) as [|c h0] eqn:Eh.
    + split; [exact Hnd|]. split.
      * intros h rs Hin. destruct (Hgrp h rs Hin) as [Hne [Hrs Heq]].
        split; [exact Hne|]. split; [exact Hrs|].
        rewrite filter_app. cbn [filter]. rewrite Eh.
        destruct h; [congruence|]. cbn [str_eqb]. rewrite app_nil_r. exact Heq.
      * intros r' Hin Hr'. apply in_app_or in Hin.
        destruct Hin as [Hin | [<- | []]]; [apply Hall; assumption | congruence].
    + set (h := c :: h0) in *.
      destruct (in_dec (list_eq_dec ascii_dec) h (map fst groups)) as [Hknown | Hnew].
      * destruct (group_add_known groups h r Hknown) as [Hkeys Hmem].
        split; [rewrite Hkeys; exact Hnd|]. split.
        -- intros h' rs' Hin.
           destruct (Hmem h' rs' Hnd Hin) as [[Hne Hg] | [-> [rs [Hg ->]]]].
           ++ destruct (Hgrp h' rs' Hg) as [Hh [Hrs Heq]].
              split; [exact Hh|]. split; [exact Hrs|].
              rewrite filter_app. cbn [filter]. rewrite Eh.
              fold h. rewrite (str_eqb_neq h h') by congruence.
              rewrite app_nil_r. exact Heq.
           ++ destruct (Hgrp h rs Hg) as [Hh [Hrs Heq]].
              split; [exact Hh|]. split.
              ** intros H. apply app_eq_nil in H. destruct H; discriminate.
              ** rewrite filter_app. cbn [filter]. rewrite Eh. fold h.
                 rewrite str_eqb_refl. rewrite <- Heq. reflexivity.
        -- intros r' Hin Hr'. rewrite Hkeys. apply in_app_or in Hin.
           destruct Hin as [Hin | [<- | []]]; [apply Hall; assumption|].
           rewrite Eh. exact Hknown.
      * rewrite (group_add_new groups h r Hnew).
        split; [|split].
        -- rewrite map_app. cbn [map fst].
           apply NoDup_app; [exact Hnd | repeat constructor; intros [] |].
           intros k Hk [<- | []]. exact (Hnew Hk).
        -- intros h' rs' Hin. apply in_app_or in Hin.
           destruct Hin as [Hg | [Heq | []]].
           ++ destruct (Hgrp h' rs' Hg) as [Hh [Hrs Heq]].
              split; [exact Hh|]. split; [exact Hrs|].
              rewrite filter_app. cbn [filter]. rewrite Eh. fold h.
              rewrite (str_eqb_neq h h').
              ** rewrite app_nil_r. exact Heq.
              ** intros ->. apply Hnew. apply (in_map fst) in Hg. exact Hg.
           ++ injection Heq as <- <-.
              split; [discriminate|]. split; [discriminate|].
              rewrite filter_app. cbn [filter]. rewrite Eh. fold h.
              rewrite str_eqb_refl.
              rewrite filter_none; [reflexivity|].
              intros x Hx.
              destruct (str_eqb (_get_col x [lit "Handle"]) h) eqn:E; [|reflexivity].
              apply str_eqb_eq in E. exfalso. apply Hnew. rewrite <- E.
              apply Hall; [exact Hx|]. rewrite E. discriminate.
        -- intros r' Hin Hr'. rewrite map_app. apply in_or_app.
           apply in_app_or in Hin.
           destruct Hin as [Hin | [<- | []]].
           ++ left. apply Hall; assumption.
           ++ right. rewrite Eh. left. reflexivity.
Qed.

Lemma from_csv_handles (rows : list row) :
  map sp_handle (_build_shopify_products_from_csv rows)
  = map fst (group_by_handle rows).
Proof.
  unfold _build_shopify_products_from_csv, enumerate. rewrite map_map.
  generalize (group_by_handle rows) as gs. intros gs. generalize 0%nat.
  induction gs as [|[h rs] gs IH]; intros s; [reflexivity|].
  cbn [length seq combine map fst]. f_equal. apply IH.
Qed.

End Grouping.

(** X9.  The grouped-export builder makes one product for each distinct
    non-empty handle of the file: the handles of the products are pairwise
    different, every row with a handle has a product, and a product has as
    many variants as there are rows with its handle and a variant price. *)
Theorem one_product_per_handle (rows : list row) :
  let products := _build_shopify_products_from_csv rows in
  NoDup (map sp_handle products)
  /\ (forall r, In r rows -> _get_col r [lit "Handle"] <> [] ->
        exists p, In p products /\ sp_handle p = _get_col r [lit "Handle"])
  /\ (forall p, In p products ->
        sp_handle p <> []
        /\ exists r, In r rows /\ _get_col r [lit "Handle"] = sp_handle p)
  /\ (forall p, In p products ->
        length (sp_variants p)
        = length (filter has_price
                    (filter (fun r => str_eqb (_get_col r [lit "Handle"]) (sp_handle p))
                            rows))).
Proof.
  cbv zeta. destruct (group_by_handle_spec rows) as [Hnd [Hgrp Hall]].
  assert (Hsrc : forall p, In p (_build_shopify_products_from_csv rows) ->
            exists i h rs, In (h, rs) (group_by_handle rows)
                           /\ p = build_group (i, (h, rs))).
  { intros p Hp. apply In_nth_error in Hp. destruct Hp as [i Hi].
    destruct (from_csv_nth rows i p Hi) as [[h rs] [Hg ->]].
    exists i, h, rs. split; [apply (nth_error_In _ _ Hg) | reflexivity]. }
  split; [rewrite from_csv_handles; exact Hnd|]. split; [|split].
  - intros r Hr Hh. pose proof (Hall r Hr Hh) as Hin.
    rewrite <- from_csv_handles in Hin. apply in_map_iff in Hin.
    destruct Hin as [p [Hp Hin]]. exists p. auto.
  - intros p Hp. destruct (Hsrc p Hp) as [i [h [rs [Hg ->]]]].
    cbn [build_group sp_handle]. destruct (Hgrp h rs Hg) as [Hh [Hrs Heq]].
    split; [exact Hh|].
    destruct rs as [|r rs]; [congruence|].
    assert (Hin : In r (filter (fun r => str_eqb (_get_col r [lit "Handle"]) h) rows))
      by (rewrite <- Heq; left; reflexivity).
    apply filter_In in Hin. destruct Hin as [Hr He].
    exists r. split; [exact Hr | apply str_eqb_eq; exact He].
  - intros p Hp. destruct (Hsrc p Hp) as [i [h [rs [Hg ->]]]].
    cbn [build_group sp_handle sp_variants]. rewrite build_variants_length.
    destruct (Hgrp h rs Hg) as [_ [_ <-]]. reflexivity.
Qed.

(** ** Slugs *)

Section Slugs.

Lemma slug_char_not_hyphen (c : ascii) : slug_char c = true -> is_hyphen c = false.
Proof.
  destruct c as [[] [] [] [] [] [] [] []]; vm_compute; congruence.
Qed.

Lemma lower_char_slug (c : ascii) :
  slug_char c || is_hyphen c = true -> lower_char c = c.
Proof.
  destruct c as [[] [] [] [] [] [] [] []]; vm_compute; congruence.
Qed.

Lemma is_hyphen_eq (c : ascii) : is_hyphen c = true -> c = "-"%char.
Proof. unfold is_hyphen. apply Ascii.eqb_eq. Qed.

Lemma hyphenate_slug_head (c : ascii) (s : str) :
  slug_char c = true -> hyphenate (c :: s) = c :: hyphenate s.
Proof. intros H. cbn [hyphenate]. rewrite H. reflexivity. Qed.

Lemma hyphenate_chars (s : str) :
  Forall (fun c => slug_char c || is_hyphen c = true) (hyphenate s).
Proof.
  induction s as [|c s IH]; [constructor|].
  cbn [hyphenate]. destruct (slug_char c) eqn:Ec.
  - constructor; [rewrite Ec; reflexivity | exact IH].
  - destruct s as [|d s']; [repeat constructor|].
    destruct (slug_char d); [constructor; [reflexivity | exact IH] | exact IH].
Qed.

Lemma hyphenate_squeezed (s x y : str) : hyphenate s <> x ++ lit "--" ++ y.
Proof.
  revert x. induction s as [|c s IH]; intros x.
  - destruct x; discriminate.
  - cbn [hyphenate]. destruct (slug_char c) eqn:Ec.
    + destruct x as [|a x]; intros H; injection H as Ha H.
      * subst c. discriminate Ec.
      * exact (IH x H).
    + destruct s as [|d s'].
      * destruct x as [|a [|b x]]; discriminate.
      * destruct (slug_char d) eqn:Ed; [|apply IH].
        destruct x as [|a x]; intros H.
        -- change ([] ++ lit "--" ++ y) with ("-"%char :: "-"%char :: y) in H.
           apply (f_equal (@tl ascii)) in H. cbn [tl] in H.
           rewrite (hyphenate_slug_head d s' Ed) in H.
           apply (f_equal (@hd_error ascii)) in H. cbn [hd_error] in H.
           apply some_eq in H. subst d. discriminate Ed.
        -- injection H as _ H. exact (IH x H).
Qed.

Lemma hyphenate_hyphens (s : str) :
  Forall (fun c => is_hyphen c = true) (hyphenate s)
  <-> Forall (fun c => slug_char c = false) s.
Proof.
  induction s as [|c s IH]; [split; constructor|].
  cbn [hyphenate]. destruct (slug_char c) eqn:Ec.
  - split; intros H; inversion H; subst.
    + rewrite (slug_char_not_hyphen c Ec) in *. discriminate.
    + congruence.
  - destruct s as [|d s'].
    + split; intros _; repeat constructor. exact Ec.
    + destruct (slug_char d) eqn:Ed.
      * split; intros H; inversion H as [|? ? H1 H2]; subst.
        -- constructor; [exact Ec | apply IH; exact H2].
        -- constructor; [reflexivity | apply IH; exact H2].
      * split; intros H.
        -- constructor; [exact Ec | apply IH; exact H].
        -- inversion H; subst. apply IH. assumption.
Qed.

Lemma strip_by_parts (f : ascii -> bool) (s : str) :
  exists w1 w2, Forall (fun c => f c = true) w1
                /\ Forall (fun c => f c = true) w2
                /\ s = w1 ++ strip_by f s ++ w2.
Proof.
  destruct (rstrip_by_split f s) as [w2 [H2 Hs]].
  destruct (lstrip_by_split f (rstrip_by f s)) as [w1 [H1 Hr]].
  exists w1, w2. split; [exact H1|]. split; [exact H2|].
  unfold strip_by. rewrite app_assoc, <- Hr. exact Hs.
Qed.

Lemma strip_by_nil (f : ascii -> bool) (s : str) :
  strip_by f s = [] <-> Forall (fun c => f c = true) s.
Proof.
  split.
  - intros H. destruct (strip_by_parts f s) as [w1 [w2 [H1 [H2 Hs]]]].
    rewrite H in Hs. rewrite Hs. apply Forall_app. split; assumption.
  - intros H. unfold strip_by.
    change s with ([] ++ s) at 1.
    rewrite (rstrip_by_all f [] s H). reflexivity.
Qed.

Lemma strip_by_last (f : ascii -> bool) (s body : str) (c : ascii) :
  strip_by f s = body ++ [c] -> f c = false.
Proof.
  unfold strip_by. intros H.
  destruct (lstrip_by_split f (rstrip_by f s)) as [w [_ Hr]].
  rewrite H in Hr. unfold rstrip_by in Hr.
  apply (f_equal (@rev ascii)) in Hr.
  rewrite rev_involutive, app_assoc, rev_app_distr in Hr. cbn [rev app] in Hr.
  exact (lstrip_by_first f _ c _ Hr).
Qed.

Lemma strip_by_fixed (f : ascii -> bool) (s : str) :
  (forall c rest, s = c :: rest -> f c = false) ->
  (forall body c, s = body ++ [c] -> f c = false) ->
  strip_by f s = s.
Proof.
  intros Hfirst Hlast. unfold strip_by.
  assert (Hr : rstrip_by f s = s).
  { destruct s as [|a s'] using rev_ind; [reflexivity|].
    apply rstrip_by_stop. apply (Hlast s' a). reflexivity. }
  rewrite Hr. destruct s as [|c rest]; [reflexivity|].
  cbn [lstrip_by]. rewrite (Hfirst c rest eq_refl). reflexivity.
Qed.

(** A string that has the form of a slug is left as it is. *)
Lemma hyphenate_fixed (s : str) :
  Forall (fun c => slug_char c || is_hyphen c = true) s ->
  (forall x y, s <> x ++ lit "--" ++ y) ->
  hyphenate s = s.
Proof.
  induction s as [|c s IH]; intros Hc Hd; [reflexivity|].
  inversion Hc as [|? ? H1 H2]; subst.
  assert (IH' : hyphenate s = s).
  { apply IH; [exact H2|]. intros x y H. apply (Hd (c :: x) y).
    rewrite H. reflexivity. }
  cbn [hyphenate]. destruct (slug_char c) eqn:Ec; [rewrite IH'; reflexivity|].
  cbn [orb] in H1. apply is_hyphen_eq in H1. subst c.
  destruct s as [|d s']; [reflexivity|].
  destruct (slug_char d) eqn:Ed; [rewrite IH'; reflexivity|].
  exfalso. inversion H2 as [|? ? H3 _]; subst. rewrite Ed in H3.
  cbn [orb] in H3. apply is_hyphen_eq in H3. subst d.
  apply (Hd [] s'). reflexivity.
Qed.

Lemma lower_fixed (s : str) :
  Forall (fun c => slug_char c || is_hyphen c = true) s -> lower s = s.
Proof.
  induction 1 as [|c s Hc _ IH]; [reflexivity|].
  unfold lower in *. cbn [map]. rewrite IH, (lower_char_slug c Hc). reflexivity.
Qed.

Lemma slugify_chars (title : str) :
  Forall (fun c => slug_char c || is_hyphen c = true) (slugify title).
Proof.
  unfold slugify.
  destruct (strip_by_parts is_hyphen (hyphenate (lower title)))
    as [w1 [w2 [_ [_ Hs]]]].
  pose proof (hyphenate_chars (lower title)) as H. rewrite Hs in H.
  apply Forall_app in H. destruct H as [_ H].
  apply Forall_app in H. apply H.
Qed.

Lemma slugify_squeezed (title x y : str) : slugify title <> x ++ lit "--" ++ y.
Proof.
  unfold slugify. intros H.
  destruct (strip_by_parts is_hyphen (hyphenate (lower title)))
    as [w1 [w2 [_ [_ Hs]]]].
  rewrite H in Hs. apply (hyphenate_squeezed (lower title) (w1 ++ x) (y ++ w2)).
  rewrite Hs. rewrite <- !app_assoc. reflexivity.
Qed.

Lemma slugify_first (title : str) (c : ascii) (rest : str) :
  slugify title = c :: rest -> is_hyphen c = false.
Proof. unfold slugify, strip_by. apply lstrip_by_first. Qed.

Lemma slugify_last (title body : str) (c : ascii) :
  slugify title = body ++ [c] -> is_hyphen c = false.
Proof. unfold slugify. apply strip_by_last. Qed.

End Slugs.

Lemma ascii_letter_or_digit_kept (c : ascii) :
  between 65 90 c || slug_char c = true -> slug_char (lower_char c) = true.
Proof.
  destruct c as [[] [] [] [] [] [] [] []]; vm_compute; congruence.
Qed.

(** X10.  The handle made from a title uses only lower-case letters a-z,
    digits and hyphens, neither begins nor ends with a hyphen and has no two
    hyphens in a row; it is not empty when the title holds a letter A-Z or
    a-z or a digit. *)
Theorem slugify_shape (title : str) :
  Forall (fun c => slug_char c || is_hyphen c = true) (slugify title)
  /\ (forall c rest, slugify title = c :: rest -> is_hyphen c = false)
  /\ (forall body c, slugify title = body ++ [c] -> is_hyphen c = false)
  /\ (forall x y, slugify title <> x ++ lit "--" ++ y)
  /\ (forall c, In c title -> between 65 90 c || slug_char c = true ->
        slugify title <> []).
Proof.
  split; [apply slugify_chars|].
  split; [apply slugify_first|].
  split; [apply slugify_last|].
  split; [intros x y; apply slugify_squeezed|].
  intros c Hin Hc Hempty. unfold slugify in Hempty.
  rewrite strip_by_nil, hyphenate_hyphens in Hempty.
  unfold lower in Hempty. rewrite Forall_map, Forall_forall in Hempty.
  specialize (Hempty c Hin). rewrite (ascii_letter_or_digit_kept c Hc) in Hempty.
  discriminate Hempty.
Qed.

(** X11.  Making a handle out of a handle changes nothing: the slug of a
    slug is the slug itself. *)
Theorem slugify_idempotent (title : str) :
  slugify (slugify title) = slugify title.
Proof.
  unfold slugify at 1.
  rewrite (lower_fixed _ (slugify_chars title)).
  rewrite (hyphenate_fixed _ (slugify_chars title))
    by (intros x y; apply slugify_squeezed).
  apply strip_by_fixed; [apply slugify_first | apply slugify_last].
Qed.

(** ** What a run leaves alone *)

Section Frames.
Import Store Frame.
Variable V : Type.
Variable fails : nat -> bool.

Section Respect.
Variable R : tables V -> tables V -> Prop.
Hypothesis R_refl : forall t, R t t.
Hypothesis R_trans : forall a b c, R a b -> R b c -> R a c.

Lemma respects_ret {A} (a : A) : respects R (ret (V := V) a).
Proof. intros c. apply R_refl. Qed.

Lemma respects_raise {A} (e : exn) : respects R (raise (V := V) (A := A) e).
Proof. intros c. apply R_refl. Qed.

Lemma respects_execute (stmt : tables V -> tables V) :
  (forall t, R t (stmt t)) -> respects R (execute fails stmt).
Proof.
  intros H c. unfold execute. destruct (fails (executed c)); cbn; auto.
Qed.

Lemma respects_execute_insert (stmt : Z -> tables V -> tables V) :
  (forall id t, R t (stmt id t)) -> respects R (execute_insert fails stmt).
Proof.
  intros H c. unfold execute_insert. destruct (fails (executed c)); cbn; auto.
Qed.

Lemma respects_fetchone {A} (q : tables V -> option A) :
  respects R (fetchone fails q).
Proof. intros c. unfold fetchone. destruct (fails (executed c)); cbn; auto. Qed.

Lemma respects_commit : respects R (commit (V := V) fails).
Proof. intros c. unfold commit. destruct (fails (executed c)); cbn; auto. Qed.

Lemma respects_bind {A B} (m : M V A) (k : A -> M V B) :
  respects R m -> (forall a, respects R (k a)) -> respects R (bind m k).
Proof.
  intros Hm Hk c. unfold bind. specialize (Hm c).
  destruct (m c) as [[a | e] c1]; cbn [snd] in Hm.
  - eapply R_trans; [exact Hm | apply Hk].
  - exact Hm.
Qed.

End Respect.

Variable get_embeddings : nat -> list str -> option (list V).
Variable strip_html : str -> str.

Lemma filter_filter {A} (f : A -> bool) (l : list A) :
  filter f (filter f l) = filter f l.
Proof.
  induction l as [|a l IH]; [reflexivity|].
  simpl. destruct (f a) eqn:E; simpl; rewrite ?E, IH; reflexivity.
Qed.

Section ImportFrame.
Variable merchant_id : str.

Lemma import_frame_refl (pf : platform) (t : tables V) : import_frame pf merchant_id t t.
Proof. split; reflexivity. Qed.

Lemma import_frame_trans (pf : platform) (a b c : tables V) :
  import_frame pf merchant_id a b -> import_frame pf merchant_id b c ->
  import_frame pf merchant_id a c.
Proof. intros [H1 H2] [H3 H4]. split; congruence. Qed.

Lemma frame_set_stores (pf : platform) (f : tables V -> list store_row) (t : tables V) :
  import_frame pf merchant_id t (set_stores t (f t)).
Proof. split; reflexivity. Qed.

Lemma frame_delete_products (pf : platform) (t : tables V) :
  import_frame pf merchant_id t (delete_products pf merchant_id t).
Proof.
  split.
  - unfold other_products, delete_products.
    destruct pf; cbn [products set_products set_sq_variants]; apply filter_filter.
  - unfold delete_products. destruct pf; reflexivity.
Qed.

Lemma frame_insert_product (pf : platform) (it : item) (store_id : Z) (e : option V) (id : Z)
  (t : tables V) :
  platform_of it = pf ->
  import_frame pf merchant_id t (insert_product it store_id merchant_id e id t).
Proof.
  intros Hpf. split; [|reflexivity].
  unfold other_products, insert_product. cbn [products set_products].
  rewrite filter_app. cbn [filter]. unfold of_merchant at 2.
  cbn [pr_item pr_merchant_id]. rewrite Hpf, platform_eqb_refl, str_eqb_refl.
  cbn [andb negb]. apply app_nil_r.
Qed.

Lemma frame_ensure_store_entry (pf : platform) (shop_url shop_name : option str) :
  respects (import_frame pf merchant_id)
    (_ensure_store_entry (V := V) fails merchant_id pf shop_url shop_name).
Proof.
  pose proof (import_frame_refl pf) as Hr. pose proof (import_frame_trans pf) as Ht.
  unfold _ensure_store_entry. cbv zeta.
  destruct pf;
    (apply respects_bind; [assumption | | intros _];
     [apply respects_execute_insert; [assumption|]; intros id t; split; reflexivity|];
     apply respects_bind; [assumption | apply respects_fetchone; assumption |];
     intros [id|]; [apply respects_ret | apply respects_raise]; assumption).
Qed.

Lemma frame_insert_items (pf : platform) (store_id : Z) (items : list (item * option V)) :
  Forall (fun ie => platform_of (fst ie) = pf) items ->
  forall inserted,
    respects (import_frame pf merchant_id)
             (insert_items fails store_id merchant_id items inserted).
Proof.
  induction 1 as [|[it e] items Hit _ IH]; intros inserted; cbn [insert_items].
  - apply respects_ret, import_frame_refl.
  - apply respects_bind; [apply import_frame_trans | | intros _; apply IH].
    apply respects_execute_insert; [apply import_frame_refl|].
    intros id t. apply frame_insert_product. exact Hit.
Qed.

Lemma frame_insert_sq_items (pf : platform) (store_id : Z)
  (items : list (Catalog.sq_product * option V)) :
  pf = Squarespace ->
  forall inserted,
    respects (import_frame pf merchant_id)
             (insert_sq_items fails store_id merchant_id items inserted).
Proof.
  intros Hpf.
  induction items as [|[p e] items IH]; intros inserted; cbn [insert_sq_items].
  - apply respects_ret, import_frame_refl.
  - apply respects_bind; [apply import_frame_trans | | intros _].
    { apply respects_execute_insert; [apply import_frame_refl|].
      intros id t. apply frame_insert_product. rewrite Hpf. reflexivity. }
    apply respects_bind;
      [apply import_frame_trans | apply respects_fetchone, import_frame_refl |].
    intros row.
    apply respects_bind; [apply import_frame_trans | | intros _; apply IH].
    destruct row as [id|]; [|apply respects_ret, import_frame_refl].
    destruct (id =? 0); [apply respects_ret, import_frame_refl|].
    apply respects_execute; [apply import_frame_refl|].
    intros t. split; reflexivity.
Qed.

Lemma combine_fst_forall {A B} (P : A -> Prop) (l : list A) (l' : list B) :
  Forall P l -> Forall (fun ab => P (fst ab)) (combine l l').
Proof.
  intros H. apply Forall_forall. intros [a b] Hin.
  apply in_combine_l in Hin. rewrite Forall_forall in H. apply H. exact Hin.
Qed.

Lemma frame_import_body (pf : platform) (rows : list Catalog.row) (shop_url shop_name : option str) :
  respects (import_frame pf merchant_id)
    (import_body fails get_embeddings strip_html merchant_id pf rows
                 shop_url shop_name).
Proof.
  pose proof (import_frame_refl pf) as Hr. pose proof (import_frame_trans pf) as Ht.
  unfold import_body.
  apply respects_bind; [assumption | apply frame_ensure_store_entry |].
  intros sid. apply respects_bind; [assumption | | intros n].
  2:{ apply respects_bind; [assumption | apply respects_commit; assumption |].
      intros _. apply respects_ret. assumption. }
  assert (Hdel : respects (import_frame pf merchant_id)
                   (execute fails (delete_products (V := V) pf merchant_id))).
  { apply respects_execute; [assumption|]. apply frame_delete_products. }
  destruct pf.
  - unfold _import_shopify.
    apply respects_bind; [assumption | exact Hdel | intros _].
    destruct (Catalog.shopify_products rows) as [|p ps];
      [apply respects_ret; assumption|].
    apply frame_insert_items.
    apply (combine_fst_forall (fun it => platform_of it = _)).
    apply Forall_forall. intros it Hin. apply in_map_iff in Hin.
    destruct Hin as [q [<- _]]. reflexivity.
  - unfold _import_woocommerce.
    apply respects_bind; [assumption | exact Hdel | intros _].
    destruct (Catalog.woocommerce_products rows) as [|p ps];
      [apply respects_ret; assumption|].
    apply frame_insert_items.
    apply (combine_fst_forall (fun it => platform_of it = _)).
    apply Forall_forall. intros it Hin. apply in_map_iff in Hin.
    destruct Hin as [q [<- _]]. reflexivity.
  - unfold _import_squarespace.
    apply respects_bind; [assumption | exact Hdel | intros _].
    destruct (Catalog.squarespace_products rows) as [|p ps];
      [apply respects_ret; assumption|].
    apply frame_insert_sq_items. reflexivity.
Qed.

End ImportFrame.

Section ChunkFrame.
Variable merchant_id : str.

Lemma chunk_frame_refl (t : tables V) : chunk_frame merchant_id t t.
Proof. repeat split; reflexivity. Qed.

Lemma chunk_frame_trans (a b c : tables V) :
  chunk_frame merchant_id a b -> chunk_frame merchant_id b c ->
  chunk_frame merchant_id a c.
Proof.
  intros [H1 [H2 [H3 H4]]] [H5 [H6 [H7 H8]]]. repeat split; congruence.
Qed.

Lemma frame_delete_chunks (t : tables V) :
  chunk_frame merchant_id t (delete_chunks merchant_id t).
Proof.
  split; [|repeat split; reflexivity].
  unfold other_chunks, delete_chunks. cbn [document_chunks set_document_chunks].
  apply filter_filter.
Qed.

Lemma frame_insert_chunk (chunk : chunk_data) (e : V) (t : tables V) :
  chunk_frame merchant_id t (insert_chunk merchant_id chunk e t).
Proof.
  split; [|repeat split; reflexivity].
  unfold other_chunks, insert_chunk. cbn [document_chunks set_document_chunks].
  rewrite filter_app. cbn [filter chunk_row_of cr_merchant_id].
  rewrite str_eqb_refl. cbn [negb]. apply app_nil_r.
Qed.

Lemma frame_insert_chunks (items : list (chunk_data * option V)) :
  forall stored c,
    chunk_frame merchant_id (working c)
      (working (snd (insert_chunks fails merchant_id items stored c))).
Proof.
  induction items as [|[chunk [e|]] items IH]; intros stored c; cbn [insert_chunks].
  - apply chunk_frame_refl.
  - pose proof (respects_execute (chunk_frame merchant_id) chunk_frame_refl
                  (insert_chunk merchant_id chunk e)
                  (frame_insert_chunk chunk e) c) as H.
    destruct (execute fails (insert_chunk merchant_id chunk e) c) as [[u | x] c1];
      cbn [snd] in H.
    + eapply chunk_frame_trans; [exact H | apply IH].
    + exact H.
  - apply IH.
Qed.

Lemma frame_store_batches (chunks : list chunk_data) (starts : list nat) :
  forall stored c,
    chunk_frame merchant_id (working c)
      (working (snd (store_batches fails get_embeddings merchant_id chunks
                                   starts stored c))).
Proof.
  induction starts as [|i starts IH]; intros stored c; cbn [store_batches].
  - apply chunk_frame_refl.
  - cbv zeta.
    pose proof (frame_insert_chunks
                  (combine (batch_at chunks i)
                     (_generate_embeddings_batch get_embeddings (i / batch_size)
                        (map cd_content (batch_at chunks i)))) stored c) as H.
    destruct (insert_chunks fails merchant_id _ stored c) as [[[u | x] n] c1];
      cbn [snd] in H.
    + eapply chunk_frame_trans; [exact H | apply IH].
    + exact H.
Qed.

End ChunkFrame.

End Frames.

(** X12.  A product import touches the product rows of its own merchant and
    platform only.  Started on a connection without pending changes, and
    whatever statements of the store fail, it leaves the committed product
    rows of every other merchant and of the other platforms, and the
    committed document chunks, exactly as they were. *)
Theorem import_products_leaves_others
  (V : Type) (fails : nat -> bool)
  (get_embeddings : nat -> list str -> option (list V))
  (strip_html : str -> str)
  (merchant_id : str) (pf : platform) (rows : list row)
  (shop_url shop_name : option str) (c : conn V) :
  working c = committed c ->
  let c' := snd (import_products fails get_embeddings strip_html
                                 merchant_id pf rows shop_url shop_name c) in
  Frame.other_products pf merchant_id (committed c')
    = Frame.other_products pf merchant_id (committed c)
  /\ document_chunks (committed c') = document_chunks (committed c).
Proof.
  intros Hclean. cbv zeta.
  destruct rows as [|r rows]; [split; reflexivity|].
  pose proof (import_products_all_or_nothing V fails get_embeddings strip_html
                merchant_id pf (r :: rows) shop_url shop_name c) as Hall.
  pose proof (frame_import_body V fails get_embeddings strip_html merchant_id pf
                (r :: rows) shop_url shop_name c) as Hframe.
  unfold import_products in *.
  destruct (import_body fails get_embeddings strip_html merchant_id pf (r :: rows)
              shop_url shop_name c) as [[s | e] c1].
  - cbn [snd] in *. specialize (Hall ltac:(discriminate)). cbn in Hall.
    rewrite Hall, <- Hclean. exact Hframe.
  - specialize (Hall ltac:(discriminate)). cbn [all_or_nothing] in Hall.
    destruct Hall as [Hc _]. cbn [snd]. rewrite Hc. split; reflexivity.
Qed.

Lemma import_products_leaves_others_witness :
  let c' := snd (import_products (Examples.fail_at 4) Examples.service
                   Examples.no_html Examples.merchant Shopify
                   [Examples.red_mug; Examples.green_tea] None None
                   Examples.connection) in
  Frame.other_products Shopify Examples.merchant (committed c')
    = Frame.other_products Shopify Examples.merchant (committed Examples.connection)
  /\ document_chunks (committed c') = document_chunks (committed Examples.connection).
Proof.
  apply (import_products_leaves_others (list Z) (Examples.fail_at 4)
           Examples.service Examples.no_html Examples.merchant Shopify
           [Examples.red_mug; Examples.green_tea] None None Examples.connection).
  reflexivity.
Defined.

(** X13.  The chunk storage touches the chunk rows of its own merchant only.
    Started on a connection without pending changes, and whatever
    statements of the store fail, it leaves the committed chunk rows of
    every other merchant, the product rows, the store rows and the variant
    rows exactly as they were. *)
Theorem store_document_embeddings_leaves_others
  (V : Type) (fails : nat -> bool)
  (get_embeddings : nat -> list str -> option (list V))
  (merchant_id : str) (documents : list document) (c : conn V) :
  working c = committed c ->
  let c' := snd (_store_document_embeddings fails get_embeddings
                                            merchant_id documents c) in
  Frame.other_chunks merchant_id (committed c')
    = Frame.other_chunks merchant_id (committed c)
  /\ products (committed c') = products (committed c)
  /\ stores (committed c') = stores (committed c)
  /\ sq_variants (committed c') = sq_variants (committed c).
Proof.
  intros Hclean. cbv zeta.
  change (Frame.chunk_frame merchant_id (committed c)
            (committed (snd (_store_document_embeddings fails get_embeddings
                                                        merchant_id documents c)))).
  assert (Hback : forall c1 : conn V, committed c1 = committed c ->
            Frame.chunk_frame merchant_id (committed c) (committed (rollback c1))).
  { intros c1 H. unfold rollback. cbn [committed with_working]. rewrite H.
    apply chunk_frame_refl. }
  unfold _store_document_embeddings.
  pose proof (keeps_execute V fails (delete_chunks merchant_id) c) as K1.
  pose proof (respects_execute V fails (Frame.chunk_frame merchant_id)
                (chunk_frame_refl V merchant_id)
                (delete_chunks merchant_id)
                (frame_delete_chunks V merchant_id) c) as F1.
  destruct (execute fails (delete_chunks merchant_id) c) as [[u | e] c1];
    cbn [snd] in K1, F1; [|apply Hback; exact K1].
  rewrite Hclean in F1.
  destruct (flat_map chunk_data_of documents) as [|ch chunks].
  - unfold commit. destruct (fails (executed c1)); cbn [snd].
    + apply Hback. cbn [committed sent]. exact K1.
    + exact F1.
  - pose proof (keeps_store_batches V fails get_embeddings merchant_id (ch :: chunks)
                  (batch_starts (length (ch :: chunks))) 0 c1) as K2.
    pose proof (frame_store_batches V fails get_embeddings merchant_id (ch :: chunks)
                  (batch_starts (length (ch :: chunks))) 0 c1) as F2.
    destruct (store_batches fails get_embeddings merchant_id (ch :: chunks)
                (batch_starts (length (ch :: chunks))) 0 c1) as [[[u2 | e] n] c2];
      cbn [snd] in K2, F2.
    + unfold commit. destruct (fails (executed c2)); cbn [snd].
      * apply Hback. cbn [committed sent]. congruence.
      * cbn [committed]. eapply chunk_frame_trans; [exact F1 | exact F2].
    + cbn [snd]. apply Hback. congruence.
Qed.

Lemma store_document_embeddings_leaves_others_witness :
  let c' := snd (_store_document_embeddings (Examples.fail_at 2) Examples.service
                   (lit "m2") Examples.two_documents Examples.connection) in
  Frame.other_chunks (lit "m2") (committed c') = [Examples.old_chunk]
  /\ products (committed c') = products (committed Examples.connection)
  /\ stores (committed c') = stores (committed Examples.connection)
  /\ sq_variants (committed c') = sq_variants (committed Examples.connection).
Proof.
  apply (store_document_embeddings_leaves_others (list Z) (Examples.fail_at 2)
           Examples.service (lit "m2") Examples.two_documents Examples.connection).
  reflexivity.
Defined.

(** ** The store entry of a merchant *)

Section StoreEntry.
Import Store.
Variable V : Type.
Variable fails : nat -> bool.
Hypothesis Hno : forall n, fails n = false.

Lemma platform_eqb_eq (a b : platform) : platform_eqb a b = true -> a = b.
Proof. destruct a, b; simpl; congruence. Qed.

(** The two statements of [_ensure_store_entry], when the store accepts
    them. *)
Lemma upsert_then_select (P : store_row -> bool)
  (stmt : Z -> tables V -> tables V) (c : conn V) :
  bind (execute_insert fails stmt)
    (fun _ =>
       bind (fetchone fails (fun t => option_map st_id (find P (stores t))))
         (fun row => match row with
                     | None => raise ValueError
                     | Some id => ret id
                     end)) c
  = (match find P (stores (stmt (next_id c) (working c))) with
     | Some r => Ok (st_id r)
     | None => Raised ValueError
     end,
     {| committed := committed c;
        working := stmt (next_id c) (working c);
        executed := S (S (executed c));
        next_id := next_id c + 1 |}).
Proof.
  unfold bind, execute_insert, fetchone. rewrite Hno.
  cbn [executed working]. rewrite Hno.
  destruct (find P (stores (stmt (next_id c) (working c)))); reflexivity.
Qed.

Lemma upserted_rows (merchant_id domain : str) (id : Z) (t : tables V)
  (r : store_row) :
  In r (stores (upsert_shopify_store merchant_id domain id t)) ->
  store_by_url Shopify domain r = true ->
  r = {| st_platform := Shopify; st_id := st_id r; st_merchant_id := merchant_id;
         st_url := st_url r; st_name := st_name r |}.
Proof.
  unfold upsert_shopify_store. cbn [stores set_stores].
  destruct (existsb (store_by_url Shopify domain) (stores t)) eqn:E.
  - intros Hin Hr. apply in_map_iff in Hin. destruct Hin as [r0 [Heq Hin]].
    destruct (store_by_url Shopify domain r0) eqn:E0.
    + subst r. reflexivity.
    + subst r. congruence.
  - intros Hin Hr. apply in_app_or in Hin. destruct Hin as [Hin | [<- | []]].
    + exfalso. assert (Hex : existsb (store_by_url Shopify domain) (stores t) = true)
        by (apply existsb_exists; exists r; auto).
      congruence.
    + reflexivity.
Qed.

Lemma upsert_found (merchant_id domain : str) (id : Z) (t : tables V) :
  existsb (store_by_url Shopify domain)
          (stores (upsert_shopify_store merchant_id domain id t)) = true.
Proof.
  unfold upsert_shopify_store. cbn [stores set_stores].
  destruct (existsb (store_by_url Shopify domain) (stores t)) eqn:E.
  - apply existsb_exists in E. destruct E as [x [Hin Hx]].
    apply existsb_exists. eexists. split.
    + apply in_map. exact Hin.
    + cbv beta. rewrite Hx. unfold store_by_url in *. cbn [st_platform st_url].
      apply andb_true_iff in Hx. destruct Hx as [_ Hu]. rewrite Hu. reflexivity.
  - rewrite existsb_app. cbn [existsb]. unfold store_by_url at 2.
    cbn [st_platform st_url]. rewrite str_eqb_refl.
    cbn [platform_eqb andb orb]. apply orb_true_r.
Qed.

Lemma upsert_twice (merchant_id domain : str) (id id' : Z) (t : tables V) :
  stores (upsert_shopify_store merchant_id domain id'
            (upsert_shopify_store merchant_id domain id t))
  = stores (upsert_shopify_store merchant_id domain id t).
Proof.
  pose proof (upserted_rows merchant_id domain id t) as Hrows.
  pose proof (upsert_found merchant_id domain id t) as Hfound.
  set (t1 := upsert_shopify_store merchant_id domain id t) in *.
  unfold upsert_shopify_store at 1. cbn [stores set_stores]. rewrite Hfound.
  rewrite <- (map_id (stores t1)) at 2. apply map_ext_in.
  intros r Hin. destruct (store_by_url Shopify domain r) eqn:E; [|reflexivity].
  symmetry. apply Hrows; assumption.
Qed.

Lemma insert_once_found (pf : platform) (merchant_id url name : str) (id : Z)
  (t : tables V) :
  existsb (store_by_merchant pf merchant_id)
          (stores (insert_store_once pf merchant_id url name id t)) = true.
Proof.
  unfold insert_store_once. cbn [stores set_stores].
  destruct (existsb (store_by_merchant pf merchant_id) (stores t)) eqn:E;
    [exact E|].
  rewrite existsb_app. cbn [existsb]. unfold store_by_merchant at 2.
  cbn [st_platform st_merchant_id]. rewrite platform_eqb_refl, str_eqb_refl.
  cbn [andb orb]. apply orb_true_r.
Qed.

Lemma insert_once_twice (pf : platform) (merchant_id url name : str) (id id' : Z)
  (t : tables V) :
  stores (insert_store_once pf merchant_id url name id'
            (insert_store_once pf merchant_id url name id t))
  = stores (insert_store_once pf merchant_id url name id t).
Proof.
  pose proof (insert_once_found pf merchant_id url name id t) as Hfound.
  set (t1 := insert_store_once pf merchant_id url name id t) in *.
  unfold insert_store_once at 1. cbn [stores set_stores]. rewrite Hfound.
  reflexivity.
Qed.

Lemma ensure_store_entry_twice (merchant_id : str) (pf : platform)
  (shop_url shop_name : option str) (c : conn V) :
  exists sid c1 c2,
    _ensure_store_entry fails merchant_id pf shop_url shop_name c = (Ok sid, c1)
    /\ _ensure_store_entry fails merchant_id pf shop_url shop_name c1 = (Ok sid, c2)
    /\ stores (working c2) = stores (working c1)
    /\ exists r, In r (stores (working c1))
                 /\ st_id r = sid /\ st_platform r = pf
                 /\ st_merchant_id r = merchant_id.
Proof.
  unfold _ensure_store_entry. cbv zeta.
  set (url := or_default shop_url _). set (name := or_default shop_name _).
  destruct pf.
  - rewrite upsert_then_select.
    pose proof (upsert_found merchant_id (shop_domain url) (next_id c) (working c))
      as Hfound.
    destruct (find_of_existsb _ _ Hfound) as [r Hr].
    rewrite Hr. eexists. eexists. eexists.
    split; [reflexivity|]. rewrite upsert_then_select.
    cbn [working next_id]. rewrite upsert_twice, Hr.
    split; [reflexivity|]. cbn [working]. split; [apply upsert_twice|].
    apply find_some in Hr. destruct Hr as [Hin Hp].
    exists r. split; [exact Hin|]. split; [reflexivity|].
    pose proof (upserted_rows _ _ _ _ r Hin Hp) as Heq.
    rewrite Heq. split; reflexivity.
  - rewrite upsert_then_select.
    pose proof (insert_once_found WooCommerce merchant_id url name (next_id c)
                  (working c)) as Hfound.
    destruct (find_of_existsb _ _ Hfound) as [r Hr].
    rewrite Hr. eexists. eexists. eexists.
    split; [reflexivity|]. rewrite upsert_then_select.
    cbn [working next_id]. rewrite insert_once_twice, Hr.
    split; [reflexivity|]. cbn [working]. split; [apply insert_once_twice|].
    apply find_some in Hr. destruct Hr as [Hin Hp].
    exists r. split; [exact Hin|]. split; [reflexivity|].
    unfold store_by_merchant in Hp. apply andb_true_iff in Hp.
    destruct Hp as [Hp Hm]. split.
    + apply platform_eqb_eq. exact Hp.
    + apply str_eqb_eq. exact Hm.
  - rewrite upsert_then_select.
    pose proof (insert_once_found Squarespace merchant_id url name (next_id c)
                  (working c)) as Hfound.
    destruct (find_of_existsb _ _ Hfound) as [r Hr].
    rewrite Hr. eexists. eexists. eexists.
    split; [reflexivity|]. rewrite upsert_then_select.
    cbn [working next_id]. rewrite insert_once_twice, Hr.
    split; [reflexivity|]. cbn [working]. split; [apply insert_once_twice|].
    apply find_some in Hr. destruct Hr as [Hin Hp].
    exists r. split; [exact Hin|]. split; [reflexivity|].
    unfold store_by_merchant in Hp. apply andb_true_iff in Hp.
    destruct Hp as [Hp Hm]. split.
    + apply platform_eqb_eq. exact Hp.
    + apply str_eqb_eq. exact Hm.
Qed.

End StoreEntry.

(** X14.  When the store accepts every statement, [_ensure_store_entry]
    returns the row id of a store row of the platform that belongs to the
    merchant, and asking again changes nothing: the second call returns the
    same id and leaves the store rows as the first call left them. *)
Theorem ensure_store_entry_stable
  (V : Type) (fails : nat -> bool)
  (merchant_id : str) (pf : platform) (shop_url shop_name : option str)
  (c : conn V) :
  (forall n, fails n = false) ->
  exists sid c1 c2,
    _ensure_store_entry fails merchant_id pf shop_url shop_name c = (Ok sid, c1)
    /\ _ensure_store_entry fails merchant_id pf shop_url shop_name c1 = (Ok sid, c2)
    /\ stores (working c2) = stores (working c1)
    /\ exists r, In r (stores (working c1))
                 /\ st_id r = sid /\ st_platform r = pf
                 /\ st_merchant_id r = merchant_id.
Proof.
  intros Hno. apply ensure_store_entry_twice. exact Hno.
Qed.

Lemma ensure_store_entry_stable_witness :
  exists sid c1 c2,
    _ensure_store_entry Examples.never Examples.merchant Shopify
      (Some (lit "https://shop.example.com/")) None Examples.connection
    = (Ok sid, c1)
    /\ _ensure_store_entry Examples.never Examples.merchant Shopify
         (Some (lit "https://shop.example.com/")) None c1 = (Ok sid, c2)
    /\ stores (working c2) = stores (working c1)
    /\ exists r, In r (stores (working c1))
                 /\ st_id r = sid /\ st_platform r = Shopify
                 /\ st_merchant_id r = Examples.merchant.
Proof.
  apply (ensure_store_entry_stable (list Z) Examples.never Examples.merchant
           Shopify (Some (lit "https://shop.example.com/")) None
           Examples.connection).
  intros n. reflexivity.
Defined.

Section ShopDomain.
Import Store.

Lemma starts_with_app (pat d : str) : starts_with pat (pat ++ d) = true.
Proof.
  induction pat as [|p pat IH]; [reflexivity|].
  cbn [app starts_with]. rewrite Ascii.eqb_refl. exact IH.
Qed.

Lemma remove_from_skip (pat x d : str) :
  remove_from pat (x ++ d) (length x) = remove_from pat d 0.
Proof.
  induction x as [|a x IH]; [reflexivity|].
  cbn [app length remove_from]. exact IH.
Qed.

(** An occurrence at the very beginning is removed. *)
Lemma remove_all_prefix (p : ascii) (pat d : str) :
  remove_all (p :: pat) ((p :: pat) ++ d) = remove_all (p :: pat) d.
Proof.
  unfold remove_all. change ((p :: pat) ++ d) with (p :: (pat ++ d)).
  cbn [remove_from].
  change (p :: pat ++ d) with ((p :: pat) ++ d). rewrite starts_with_app.
  replace (length (p :: pat) - 1)%nat with (length pat) by (cbn [length]; lia).
  apply remove_from_skip.
Qed.

Lemma remove_https_http (d : str) :
  remove_all (lit "https://") (lit "http://" ++ d)
  = lit "http://" ++ remove_all (lit "https://") d.
Proof. reflexivity. Qed.

Lemma rstrip_by_last (f : ascii -> bool) (s body : str) (c : ascii) :
  rstrip_by f s = body ++ [c] -> f c = false.
Proof.
  unfold rstrip_by. intros H. apply (f_equal (@rev ascii)) in H.
  rewrite rev_involutive, rev_app_distr in H. cbn [rev app] in H.
  exact (lstrip_by_first f _ c _ H).
Qed.

End ShopDomain.

(** X15.  The Shopify store row is keyed by the domain of the shop URL:
    the scheme of the URL does not count, whether https or http, and the
    domain never ends with a slash. *)
Theorem shop_domain_ignores_scheme (d : str) :
  shop_domain (lit "https://" ++ d) = shop_domain d
  /\ shop_domain (lit "http://" ++ d) = shop_domain d
  /\ forall body c, shop_domain d = body ++ [c] -> c <> "/"%char.
Proof.
  unfold shop_domain. split; [|split].
  - change (lit "https://") with ("h"%char :: lit "ttps://").
    rewrite remove_all_prefix. reflexivity.
  - rewrite remove_https_http.
    change (lit "http://") with ("h"%char :: lit "ttp://").
    rewrite remove_all_prefix. reflexivity.
  - intros body c H. apply rstrip_by_last in H. intros ->. discriminate H.
Qed.

(** ** The summary of a conversion *)

Section ConversionReport.
Import Store Report.
Variable file_exists : str -> bool.
Variable read_text : str -> option str.

Lemma convert_fold (document_paths : list str) :
  forall all_documents skipped,
    fold_left (convert_step file_exists read_text) document_paths
              (all_documents, skipped)
    = (all_documents ++ converted_documents file_exists read_text document_paths,
       skipped ++ filter (is_skipped file_exists read_text) document_paths).
Proof.
  induction document_paths as [|p paths IH]; intros docs skipped.
  - cbn. rewrite !app_nil_r. reflexivity.
  - cbn [fold_left]. unfold convert_step at 2.
    unfold converted_documents. cbn [flat_map filter]. unfold is_skipped at 1 3.
    destruct (file_exists p); cbn [negb orb].
    + destruct (read_text p) as [text|].
      * rewrite IH. rewrite <- app_assoc. reflexivity.
      * rewrite IH. rewrite <- app_assoc. reflexivity.
    + rewrite IH. rewrite <- app_assoc. reflexivity.
Qed.

Lemma converted_none (document_paths : list str) :
  converted_documents file_exists read_text document_paths = []
  <-> forall p, In p document_paths -> is_skipped file_exists read_text p = true.
Proof.
  unfold converted_documents.
  induction document_paths as [|p paths IH]; [split; [intros _ q [] | reflexivity]|].
  cbn [flat_map]. split.
  - intros H. apply app_eq_nil in H. destruct H as [Hp Hrest].
    intros q [<- | Hq]; [|apply IH; assumption].
    destruct (is_skipped file_exists read_text p) eqn:E; [reflexivity|].
    unfold is_skipped in E. destruct (read_text p) as [text|];
      [|rewrite orb_true_r in E; discriminate].
    exfalso. apply (f_equal (@length document)) in Hp.
    rewrite documents_of_length in Hp.
    pose proof (split_text_never_empty_aux text max_chunk_size DocId.overlap) as Hne.
    destruct (_split_text text max_chunk_size DocId.overlap);
      [congruence | discriminate].
  - intros H. rewrite (H p (or_introl eq_refl)). cbn [app].
    apply IH. intros q Hq. apply H. right. exact Hq.
Qed.

Lemma converted_at_least (document_paths : list str) :
  (length (filter (fun p => negb (is_skipped file_exists read_text p)) document_paths)
   <= length (converted_documents file_exists read_text document_paths))%nat.
Proof.
  unfold converted_documents.
  induction document_paths as [|p paths IH]; [apply Nat.le_refl|].
  cbn [flat_map filter]. rewrite length_app.
  destruct (is_skipped file_exists read_text p) eqn:E; cbn [negb].
  - cbn [length]. exact IH.
  - unfold is_skipped in E. destruct (read_text p) as [text|];
      [|rewrite orb_true_r in E; discriminate].
    rewrite documents_of_length.
    pose proof (split_text_never_empty_aux text max_chunk_size DocId.overlap) as Hne.
    destruct (_split_text text max_chunk_size DocId.overlap) as [|ch chs];
      [congruence|].
    cbn [length]. lia.
Qed.

End ConversionReport.

(** X16.  The summary of [convert_documents] accounts for every source
    path, whatever the store does.  When it returns, the skipped files it
    reports are the paths that are missing or unreadable, in order; the
    document count is the number of documents of the other paths, at least
    one for each of them; so the count is 0, and no NDJSON path is given,
    exactly when every path was skipped.  When it raises, the upload was
    refused, some path had been converted, and the blob store and the
    connection are as they were. *)
Theorem convert_documents_report
  (V : Type) (fails : nat -> bool)
  (get_embeddings : nat -> list str -> option (list V))
  (file_exists : str -> bool) (read_text : str -> option str)
  (upload_ok : str -> bool)
  (merchant_id : str) (document_paths : list str) (w : world V) :
  let res := convert_documents fails get_embeddings file_exists read_text
                               upload_ok merchant_id document_paths w in
  let skipped := Report.is_skipped file_exists read_text in
  match fst res with
  | Ok r =>
      Report.skipped_of r = filter skipped document_paths
      /\ document_count r
         = length (Report.converted_documents file_exists read_text document_paths)
      /\ (length (filter (fun p => negb (skipped p)) document_paths)
          <= document_count r)%nat
      /\ (document_count r = 0%nat
          <-> forall p, In p document_paths -> skipped p = true)
      /\ (ndjson_path r = None <-> document_count r = 0%nat)
  | Raised e =>
      e = BlobError /\ snd res = w
      /\ exists p, In p document_paths /\ skipped p = false
  end.
Proof.
  cbv zeta. unfold convert_documents.
  rewrite convert_fold. cbn [app].
  pose proof (converted_none file_exists read_text document_paths) as Hnone.
  pose proof (converted_at_least file_exists read_text document_paths) as Hleast.
  destruct (Report.converted_documents file_exists read_text document_paths)
    as [|d docs] eqn:E.
  - cbn [fst document_count ndjson_path Report.skipped_of skipped_files length].
    split; [reflexivity|]. split; [reflexivity|]. split; [exact Hleast|].
    split; [|split; reflexivity].
    split; intros _; [apply Hnone; reflexivity | reflexivity].
  - destruct (upload_ok _).
    + destruct (_store_document_embeddings fails get_embeddings merchant_id
                  (d :: docs) (db w)) as [stored c'].
      cbn [fst document_count ndjson_path].
      split; [unfold Report.skipped_of; cbn [skipped_files];
              destruct (filter (Report.is_skipped file_exists read_text)
                               document_paths); reflexivity|].
      split; [reflexivity|]. split; [exact Hleast|].
      split; [|split; discriminate].
      split; [discriminate|]. intros H. apply Hnone in H. discriminate H.
    + cbn [fst snd]. split; [reflexivity|]. split; [reflexivity|].
      destruct (existsb (fun p => negb (Report.is_skipped file_exists read_text p))
                        document_paths) eqn:Eex.
      * apply existsb_exists in Eex. destruct Eex as [p [Hin Hp]].
        exists p. split; [exact Hin|]. apply negb_true_iff. exact Hp.
      * exfalso. assert (Hall : d :: docs = []); [|discriminate Hall].
        apply Hnone. intros p Hin.
        destruct (Report.is_skipped file_exists read_text p) eqn:Ep; [reflexivity|].
        assert (Hex : existsb (fun p => negb (Report.is_skipped file_exists read_text p))
                        document_paths = true)
          by (apply existsb_exists; exists p; rewrite Ep; auto).
        congruence.
Qed.

(** ** The document step of the onboarding *)

Section DocumentStep.
Import Store Report Onboarding.
Variable V : Type.
Variable fails : nat -> bool.
Variable get_embeddings : nat -> list str -> option (list V).
Variable file_exists : str -> bool.
Variable read_text : str -> option str.
Variable upload_ok : str -> bool.

(** [convert_documents], by the documents of the paths that are not passed
    over. *)
Lemma convert_documents_cases (merchant_id : str) (document_paths : list str)
  (w : world V) :
  let res := convert_documents fails get_embeddings file_exists read_text
                               upload_ok merchant_id document_paths w in
  let path := lit "merchants/" ++ merchant_id
              ++ lit "/training_files/documents.ndjson" in
  match converted_documents file_exists read_text document_paths with
  | [] => exists r, res = (Ok r, w) /\ document_count r = 0%nat
  | d :: docs =>
      if upload_ok path
      then exists r w', res = (Ok r, w')
                        /\ document_count r = length (d :: docs)
      else exists e, res = (Raised e, w)
  end.
Proof.
  cbv zeta. unfold convert_documents. rewrite convert_fold. cbn [app].
  destruct (converted_documents file_exists read_text document_paths)
    as [|d docs].
  - eexists. split; reflexivity.
  - destruct (upload_ok _).
    + destruct (_store_document_embeddings fails get_embeddings merchant_id
                  (d :: docs) (db w)) as [stored c'].
      eexists. eexists. split; reflexivity.
    + eexists. reflexivity.
Qed.

Lemma some_converted (document_paths : list str) :
  converted_documents file_exists read_text document_paths <> []
  <-> exists p, In p document_paths /\ is_skipped file_exists read_text p = false.
Proof.
  split.
  - intros H.
    destruct (existsb (fun p => negb (is_skipped file_exists read_text p))
                      document_paths) eqn:E.
    + apply existsb_exists in E. destruct E as [p [Hin Hp]].
      exists p. split; [exact Hin | apply negb_true_iff; exact Hp].
    + exfalso. apply H. apply converted_none. intros p Hin.
      destruct (is_skipped file_exists read_text p) eqn:Ep; [reflexivity|].
      assert (Hex : existsb (fun p => negb (is_skipped file_exists read_text p))
                      document_paths = true)
        by (apply existsb_exists; exists p; rewrite Ep; auto).
      congruence.
  - intros [p [Hin Hp]] H.
    pose proof (proj1 (converted_none file_exists read_text document_paths) H p Hin).
    congruence.
Qed.

End DocumentStep.

(** X17.  The document step of the onboarding, end to end.  The step ends
    COMPLETED exactly when some file of the knowledge-base folder that is
    not a product file, a category file or a .keep marker could be read and
    the upload of the NDJSON file went through; the count it then writes to
    the merchants table is the number of documents built, which is not 0.
    It ends FAILED exactly when such a file could be read and the upload was
    refused, and SKIPPED when there is no such file.  It never ends
    IN_PROGRESS, and unless it ends COMPLETED the blob store and the
    connection are left as they were. *)
Theorem document_step_outcome
  (V : Type) (fails : nat -> bool)
  (get_embeddings : nat -> list str -> option (list V))
  (file_exists : str -> bool) (read_text : str -> option str)
  (upload_ok : str -> bool)
  (files_in_kb : option (list str)) (merchant_id : str) (w : world V) :
  let res := Onboarding.document_step fails get_embeddings file_exists read_text
               upload_ok files_in_kb merchant_id w in
  let files := match files_in_kb with Some l => l | None => [] end in
  let documents :=
    Report.converted_documents file_exists read_text
      (filter Onboarding.is_document files) in
  let readable :=
    exists p, In p files /\ Onboarding.is_document p = true
              /\ Report.is_skipped file_exists read_text p = false in
  let uploaded :=
    upload_ok (lit "merchants/" ++ merchant_id
               ++ lit "/training_files/documents.ndjson") = true in
  exists status,
    Onboarding.final_status (fst res) = Some status
    /\ status <> Onboarding.IN_PROGRESS
    /\ (status = Onboarding.COMPLETED <-> readable /\ uploaded)
    /\ (status = Onboarding.FAILED <-> readable /\ ~ uploaded)
    /\ (status = Onboarding.SKIPPED <-> ~ readable)
    /\ (status = Onboarding.COMPLETED ->
        Onboarding.recorded_count (fst res) = Some (length documents)
        /\ documents <> [])
    /\ (status <> Onboarding.COMPLETED ->
        snd res = w /\ Onboarding.recorded_count (fst res) = None).
Proof.
  cbv zeta.
  set (files := match files_in_kb with Some l => l | None => [] end).
  assert (Hpaths : match files_in_kb with
                   | Some files => filter Onboarding.is_document files
                   | None => []
                   end = filter Onboarding.is_document files).
  { subst files. destruct files_in_kb; reflexivity. }
  assert (Hreadable :
    (exists p, In p files /\ Onboarding.is_document p = true
               /\ Report.is_skipped file_exists read_text p = false)
    <-> Report.converted_documents file_exists read_text
          (filter Onboarding.is_document files) <> []).
  { rewrite some_converted. split.
    - intros [p [Hin [Hd Hs]]]. exists p. split; [|exact Hs].
      apply filter_In. auto.
    - intros [p [Hin Hs]]. apply filter_In in Hin. destruct Hin as [Hin Hd].
      exists p. auto. }
  unfold Onboarding.document_step. cbv zeta. rewrite Hpaths.
  destruct (filter Onboarding.is_document files) as [|p0 paths] eqn:Ef.
  - assert (Hnot : ~ (exists p, In p files /\ Onboarding.is_document p = true
               /\ Report.is_skipped file_exists read_text p = false)).
    { rewrite Hreadable. intros H. apply H. reflexivity. }
    exists Onboarding.SKIPPED. cbn [fst snd Onboarding.final_status fold_left
      Onboarding.recorded_count].
    split; [reflexivity|]. split; [discriminate|].
    split; [split; [discriminate | tauto]|].
    split; [split; [discriminate | tauto]|].
    split; [tauto|]. split; [discriminate | auto].
  - pose proof (convert_documents_cases V fails get_embeddings file_exists read_text
                  upload_ok merchant_id (p0 :: paths) w) as Hcases.
    cbv zeta in Hcases.
    destruct (Report.converted_documents file_exists read_text (p0 :: paths))
      as [|d docs] eqn:Ec.
    + destruct Hcases as [r [Hres Hcount]]. rewrite Hres, Hcount.
      assert (Hnot : ~ (exists p, In p files /\ Onboarding.is_document p = true
                 /\ Report.is_skipped file_exists read_text p = false)).
      { rewrite Hreadable. intros H. apply H. reflexivity. }
      exists Onboarding.SKIPPED.
      cbn [Nat.ltb Nat.leb fst snd Onboarding.final_status fold_left
           Onboarding.recorded_count].
      split; [reflexivity|]. split; [discriminate|].
      split; [split; [discriminate | tauto]|].
      split; [split; [discriminate | tauto]|].
      split; [tauto|]. split; [discriminate | auto].
    + assert (Hyes : exists p, In p files /\ Onboarding.is_document p = true
                 /\ Report.is_skipped file_exists read_text p = false).
      { rewrite Hreadable. discriminate. }
      destruct (upload_ok _) eqn:Eu.
      * destruct Hcases as [r [w' [Hres Hcount]]]. rewrite Hres, Hcount.
        exists Onboarding.COMPLETED.
        cbn [length Nat.ltb Nat.leb fst snd Onboarding.final_status fold_left
             Onboarding.recorded_count].
        split; [reflexivity|]. split; [discriminate|].
        split; [tauto|].
        split; [split; [discriminate | intros [_ H]; congruence]|].
        split; [split; [discriminate | tauto]|].
        split; [intros _; split; [reflexivity | discriminate] | congruence].
      * destruct Hcases as [e Hres]. rewrite Hres.
        exists Onboarding.FAILED.
        cbn [fst snd Onboarding.final_status fold_left Onboarding.recorded_count].
        split; [reflexivity|]. split; [discriminate|].
        split; [split; [discriminate | intros [_ H]; congruence]|].
        split; [split; [intros _; split; [exact Hyes | congruence] | reflexivity]|].
        split; [split; [discriminate | tauto]|].
        split; [discriminate | auto].
Qed.

(** ** The default variants of a Squarespace import *)

Section SquarespaceVariants.
Import Store Variants.
Variable V : Type.
Variable fails : nat -> bool.
Variable get_embeddings : nat -> list str -> option (list V).
Variable strip_html : str -> str.
Hypothesis Hno : forall n, fails n = false.

Lemma find_last_only {A} (P : A -> bool) (l : list A) (a : A) :
  (forall x, In x l -> P x = false) -> P a = true -> find P (l ++ [a]) = Some a.
Proof.
  induction l as [|x l IH]; intros Hl Ha; cbn [app find].
  - rewrite Ha. reflexivity.
  - rewrite (Hl x (or_introl eq_refl)). apply IH; [|exact Ha].
    intros y Hy. apply Hl. right. exact Hy.
Qed.

Lemma insert_sq_items_variants (store_id : Z) (merchant_id : str)
  (items : list (sq_product * option V)) :
  forall inserted c,
    0 < next_id c ->
    NoDup (map (fun pe => squarespace_product_id (fst pe)) items) ->
    (forall r pe, In r (products (working c)) -> In pe items ->
       is_sq_product (squarespace_product_id (fst pe)) merchant_id r = false) ->
    exists c',
      insert_sq_items fails store_id merchant_id items inserted c
      = (Ok (inserted + length items)%nat, c')
      /\ sq_variants (working c')
         = sq_variants (working c) ++ default_variants (next_id c) (map fst items).
Proof.
  induction items as [|[p e] items IH]; intros inserted c Hid Hnd Hfresh.
  - exists c. cbn [insert_sq_items length map default_variants]. unfold ret.
    rewrite Nat.add_0_r, app_nil_r. auto.
  - cbn [insert_sq_items]. unfold bind at 1. unfold execute_insert. rewrite Hno.
    unfold bind at 1. unfold fetchone. cbn [executed]. rewrite Hno.
    cbn [working products insert_product set_products].
    rewrite find_last_only.
    2:{ intros r Hr. apply (Hfresh r (p, e) Hr). left. reflexivity. }
    2:{ unfold is_sq_product. cbn [pr_item pr_merchant_id].
        rewrite !str_eqb_refl. reflexivity. }
    cbn [option_map pr_id].
    destruct (next_id c =? 0) eqn:Ez; [apply Z.eqb_eq in Ez; lia|].
    unfold bind at 1. unfold execute. cbn [executed sent]. rewrite Hno.
    match goal with
    | |- context [insert_sq_items fails store_id merchant_id items ?n ?c2] =>
        destruct (IH n c2) as [c' [Hrun Hv]]
    end.
    + cbn [next_id with_working sent]. lia.
    + inversion Hnd. assumption.
    + cbn [working with_working sent products insert_default_variant
           set_sq_variants set_products].
      intros r pe Hr Hpe. apply in_app_or in Hr. destruct Hr as [Hr | [<- | []]].
      * apply (Hfresh r pe Hr). right. exact Hpe.
      * unfold is_sq_product. cbn [pr_item pr_merchant_id].
        rewrite str_eqb_neq; [reflexivity|].
        intros Heq. inversion Hnd as [|x l Hnot _]. subst. apply Hnot.
        apply in_map_iff. exists pe. split; [symmetry; exact Heq | exact Hpe].
    + exists c'. rewrite Hrun. split; [f_equal; f_equal; cbn [length]; lia|].
      rewrite Hv.
      cbn [working with_working sent sq_variants insert_default_variant
           set_sq_variants set_products next_id map fst default_variants].
      rewrite <- app_assoc. reflexivity.
Qed.

Lemma squarespace_ids_nodup (rows : list row) :
  NoDup (map squarespace_product_id (squarespace_products rows)).
Proof.
  unfold squarespace_products.
  apply (row_indexed_nodup build_sq squarespace_product_id
           (fun i => str_of_Z (BASE_PRODUCT_ID + Z.of_nat i))).
  - intros i r p. apply build_sq_spec.
  - apply build_sq_one.
  - apply base_str_inj.
Qed.

Lemma map_fst_combine_le {A B} (l : list A) (l' : list B) :
  length l = length l' -> map fst (combine l l') = l.
Proof.
  revert l'. induction l as [|a l IH]; intros [|b l'] H; try discriminate;
    [reflexivity|].
  cbn [combine map fst]. rewrite IH; [reflexivity|]. simpl in H. lia.
Qed.

End SquarespaceVariants.

Section AllEmbeddingsLength.
Import Embed.
Variable V : Type.
Variable get_embeddings : nat -> list str -> option (list V).
Hypothesis Hsvc : one_per_text get_embeddings.

Lemma generate_all_length (texts : list str) :
  length (_generate_all_embeddings get_embeddings texts) = length texts.
Proof.
  rewrite generate_all_by_number.
  set (n := length texts). set (m := ((n + 24) / 25)%nat).
  pose proof (Nat.div_mod_eq (n + 24) 25) as Hdm.
  pose proof (Nat.mod_upper_bound (n + 24) 25 ltac:(lia)) as Hmod.
  fold m in Hdm.
  set (F := fun k => _generate_embeddings_batch get_embeddings k
                       (batch_at texts (k * 25))).
  assert (HF : forall k, length (F k) = Nat.min 25 (n - k * 25)).
  { intros k. unfold F.
    rewrite (generate_embeddings_batch_length V get_embeddings Hsvc).
    apply batch_at_length. }
  destruct m as [|m'] eqn:Em.
  - simpl. lia.
  - rewrite flat_map_seq_S, length_app.
    rewrite length_full_blocks by (intros k Hk; rewrite HF; lia).
    rewrite HF. lia.
Qed.

End AllEmbeddingsLength.

(** X18.  A Squarespace import that meets no failure gives every product of
    the run one default variant, tied to the product row just inserted.  When
    the embedding service answers one vector per text and the row ids are
    positive: after the variants of the merchant's old products are gone,
    the variant rows added are the default variants of the products of the
    file, in order, the [k]-th one pointing at row id [next_id + k], which
    is the row id of the [k]-th product row added; its price is the number
    read from the digits and dots of the price cell, and 0 when no number
    can be read from them. *)
Theorem squarespace_default_variants
  (V : Type) (fails : nat -> bool)
  (get_embeddings : nat -> list str -> option (list V))
  (strip_html : str -> str)
  (merchant_id : str) (sid : Z) (rows : list row) (c : conn V) :
  (forall n, fails n = false) ->
  one_per_text get_embeddings ->
  0 < next_id c ->
  exists c',
    _import_squarespace fails get_embeddings strip_html merchant_id sid rows c
    = (Ok (length (squarespace_products rows)), c')
    /\ sq_variants (working c')
       = sq_variants (delete_products Squarespace merchant_id (working c))
         ++ Variants.default_variants (next_id c) (squarespace_products rows)
    /\ products (working c')
       = products (delete_products Squarespace merchant_id (working c))
         ++ product_rows sid merchant_id (next_id c)
              (platform_items get_embeddings strip_html Squarespace rows).
Proof.
  intros Hno Hsvc Hid.
  destruct (import_platform_ok V fails get_embeddings strip_html Hno
              merchant_id Squarespace sid rows c) as [c2 [Hrun2 Hp2]].
  cbv beta iota in Hrun2.
  assert (Hlen : length (platform_items get_embeddings strip_html Squarespace rows)
                 = length (squarespace_products rows)).
  { unfold platform_items. rewrite length_map, length_combine.
    rewrite (generate_all_length V get_embeddings Hsvc), length_map.
    apply Nat.min_id. }
  exists c2. rewrite Hrun2, Hlen. split; [reflexivity|].
  split; [|exact Hp2].
  revert Hrun2. unfold _import_squarespace, bind, execute. rewrite Hno.
  destruct (squarespace_products rows) as [|p ps] eqn:Eprod.
  - unfold ret. intros H. injection H as _ <-.
    cbn [working with_working sent Variants.default_variants].
    rewrite app_nil_r. reflexivity.
  - cbv zeta.
    match goal with
    | |- context [insert_sq_items fails sid merchant_id ?items 0 ?c1] =>
        destruct (insert_sq_items_variants V fails Hno sid merchant_id items 0%nat c1)
          as [c' [Hrun Hv]]
    end.
    + exact Hid.
    + rewrite <- (map_map fst squarespace_product_id).
      rewrite map_fst_combine_le
        by (rewrite (generate_all_length V get_embeddings Hsvc), length_map;
            reflexivity).
      rewrite <- Eprod. apply squarespace_ids_nodup.
    + cbn [working with_working sent]. intros r pe Hr _.
      unfold delete_products in Hr. cbn [products set_sq_variants set_products] in Hr.
      apply filter_In in Hr. destruct Hr as [_ Hr].
      unfold is_sq_product. unfold of_merchant in Hr.
      destruct (pr_item r) as [q | q | q]; try reflexivity.
      cbn [platform_of platform_eqb andb] in Hr.
      apply negb_true_iff in Hr. rewrite Hr. apply andb_false_r.
    + rewrite Hrun. intros H. injection H as _ <-. rewrite Hv.
      cbn [working with_working sent next_id].
      rewrite map_fst_combine_le
        by (rewrite (generate_all_length V get_embeddings Hsvc), length_map;
            reflexivity).
      reflexivity.
Qed.

Lemma squarespace_default_variants_witness :
  exists c',
    _import_squarespace Examples.never Examples.service Examples.no_html
      Examples.merchant 1 [Examples.red_mug; Examples.mystery_box]
      Examples.connection
    = (Ok (length (squarespace_products [Examples.red_mug; Examples.mystery_box])),
       c')
    /\ sq_variants (working c')
       = sq_variants (delete_products Squarespace Examples.merchant
                        (working Examples.connection))
         ++ Variants.default_variants (next_id Examples.connection)
              (squarespace_products [Examples.red_mug; Examples.mystery_box])
    /\ products (working c')
       = products (delete_products Squarespace Examples.merchant
                     (working Examples.connection))
         ++ product_rows 1 Examples.merchant (next_id Examples.connection)
              (platform_items Examples.service Examples.no_html Squarespace
                 [Examples.red_mug; Examples.mystery_box]).
Proof.
  apply (squarespace_default_variants (list Z) Examples.never Examples.service
           Examples.no_html Examples.merchant 1
           [Examples.red_mug; Examples.mystery_box] Examples.connection).
  - intros n. reflexivity.
  - apply failing_on_one_per_text.
  - reflexivity.
Defined.

(** The prices of the default variants of two rows, one with the price 12
    and one whose price cell holds no digit. *)
Example default_variant_prices :
  map (fun v => (vr_product_id v, vr_variant_id v, vr_price v))
      (Variants.default_variants 1
         (squarespace_products [Examples.red_mug; Examples.mystery_box]))
  = [(1, lit "var-9900000000001", Float (lit "12"));
     (2, lit "var-9900000000002", Zero)].
Proof. vm_compute. reflexivity. Qed.

(** ** Variant identifiers of a run *)

Section VariantIds.

Lemma nodup_tagged {A B K} (f : A -> list B) (key : A -> K) (tag : B -> K)
  (l : list A) :
  (forall p, In p l -> NoDup (f p)) ->
  (forall p x, In p l -> In x (f p) -> tag x = key p) ->
  NoDup (map key l) ->
  NoDup (flat_map f l).
Proof.
  induction l as [|p l IH]; intros Hblk Htag Hkeys; [constructor|].
  cbn [flat_map]. inversion Hkeys as [|k ks Hnot Hrest]. subst.
  apply NoDup_app.
  - apply Hblk. left. reflexivity.
  - apply IH.
    + intros q Hq. apply Hblk. right. exact Hq.
    + intros q x Hq Hx. apply Htag; [right; exact Hq | exact Hx].
    + exact Hrest.
  - intros x Hx Hx'. apply in_flat_map in Hx'. destruct Hx' as [q [Hq Hxq]].
    apply Hnot. apply in_map_iff. exists q. split; [|exact Hq].
    rewrite <- (Htag p x (or_introl eq_refl) Hx). symmetry.
    apply Htag; [right; exact Hq | exact Hxq].
Qed.

Lemma nodup_by_position {A} (key : A -> Z) (base : Z) (l : list A) :
  (forall j v, nth_error l j = Some v -> key v = base + Z.of_nat j) ->
  NoDup (map key l).
Proof.
  intros H. apply NoDup_nth_error. intros i j Hi Heq.
  rewrite length_map in Hi.
  rewrite !nth_error_map in Heq.
  destruct (nth_error l i) as [a|] eqn:Ea;
    [|apply nth_error_None in Ea; lia].
  destruct (nth_error l j) as [b|] eqn:Eb; [|discriminate].
  cbn [option_map] in Heq. apply some_eq in Heq.
  rewrite (H i a Ea), (H j b Eb) in Heq. lia.
Qed.

Lemma shopify_product_ids_nodup (rows : list row) :
  NoDup (map shopify_product_id (shopify_products rows)).
Proof.
  unfold shopify_products. destruct (has_handle rows).
  - rewrite from_csv_ids. apply Injective_map_NoDup; [apply base_plus_inj|].
    apply seq_NoDup.
  - unfold _build_shopify_products_generic.
    apply (row_indexed_nodup build_generic shopify_product_id
             (fun i => BASE_PRODUCT_ID + Z.of_nat i)).
    + intros i r p Hp. apply (build_generic_spec i r p Hp).
    + apply build_generic_one.
    + apply base_plus_inj.
Qed.

Lemma shopify_variant_ids (rows : list row) (p : shopify_product) :
  In p (shopify_products rows) ->
  exists idx,
    shopify_product_id p = BASE_PRODUCT_ID + Z.of_nat idx
    /\ forall j v, nth_error (sp_variants p) j = Some v ->
         v_id v = BASE_VARIANT_ID + Z.of_nat idx * 100 + Z.of_nat j.
Proof.
  unfold shopify_products. destruct (has_handle rows); intros Hp.
  - apply In_nth_error in Hp. destruct Hp as [i Hi].
    destruct (from_csv_nth rows i p Hi) as [[h rs] [_ ->]].
    exists i. cbn [build_group shopify_product_id sp_variants].
    split; [reflexivity|]. intros j v Hv.
    apply build_variants_nth in Hv. destruct Hv as [Hv _].
    rewrite Hv. reflexivity.
  - unfold _build_shopify_products_generic in Hp.
    apply in_flat_map in Hp. destruct Hp as [[i r] [_ Hp]].
    destruct (build_generic_spec i r p Hp) as [Hid [v [Hvs [Hv _]]]].
    exists i. split; [exact Hid|]. intros j v' Hv'. rewrite Hvs in Hv'.
    destruct j as [|j]; [|destruct j; discriminate Hv'].
    cbn [nth_error] in Hv'. apply some_eq in Hv'. subst v'.
    rewrite Hv. cbn [Z.of_nat]. reflexivity.
Qed.

End VariantIds.

(** X19.  The variant identifiers of a Shopify run are pairwise different
    as long as no product has more than 100 variants: the identifiers of a
    product are taken from a block of 100 of its own. *)
Theorem variant_ids_distinct (rows : list row) :
  (forall p, In p (shopify_products rows) -> (length (sp_variants p) <= 100)%nat) ->
  NoDup (flat_map (fun p => map v_id (sp_variants p)) (shopify_products rows)).
Proof.
  intros Hmax.
  apply (nodup_tagged (fun p => map v_id (sp_variants p)) shopify_product_id
           (fun x => BASE_PRODUCT_ID + (x - BASE_VARIANT_ID) / 100)).
  - intros p Hp. destruct (shopify_variant_ids rows p Hp) as [idx [_ Hv]].
    apply (nodup_by_position v_id (BASE_VARIANT_ID + Z.of_nat idx * 100)).
    exact Hv.
  - intros p x Hp Hx. destruct (shopify_variant_ids rows p Hp) as [idx [Hid Hv]].
    apply in_map_iff in Hx. destruct Hx as [v [<- Hin]].
    apply In_nth_error in Hin. destruct Hin as [j Hj].
    assert (Hlt : (j < length (sp_variants p))%nat)
      by (apply nth_error_Some; rewrite Hj; discriminate).
    specialize (Hmax p Hp). rewrite (Hv j v Hj), Hid. f_equal.
    symmetry. apply (Z.div_unique _ 100 _ (Z.of_nat j)); lia.
  - apply shopify_product_ids_nodup.
Qed.

Lemma variant_ids_distinct_witness :
  NoDup (flat_map (fun p => map v_id (sp_variants p))
                  (shopify_products [Examples.red_mug; Examples.green_tea])).
Proof.
  apply (variant_ids_distinct [Examples.red_mug; Examples.green_tea]).
  intros p Hp. each_member Hp; vm_compute; lia.
Defined.

(** ** Chunks and their vectors *)

Section ChunkVectors.
Import Embed Store.
Variable V : Type.
Variable embed : str -> V.
Variable get_embeddings : nat -> list str -> option (list V).
Hypothesis Hworks : forall k batch, get_embeddings k batch = Some (map embed batch).

Lemma combine_map_self {A B} (g : A -> B) (l : list A) :
  combine l (map g l) = map (fun a => (a, g a)) l.
Proof. induction l as [|a l IH]; [reflexivity|]. simpl. rewrite IH. reflexivity. Qed.

(** The batches of a list, one after the other, make up the list. *)
Lemma batches_make_up {A} (m : nat) :
  forall l : list A,
    (length l <= m * 25)%nat ->
    flat_map (fun k => batch_at l (k * 25)) (seq 0 m) = l.
Proof.
  unfold batch_at, batch_size. induction m as [|m IH]; intros l Hl.
  - destruct l; [reflexivity | simpl in Hl; lia].
  - cbn [seq flat_map]. rewrite <- seq_shift, flat_map_map.
    cbn [Nat.mul skipn].
    rewrite (flat_map_ext _ (fun k => firstn 25 (skipn (k * 25) (skipn 25 l)))).
    + rewrite IH by (rewrite length_skipn; lia). apply firstn_skipn.
    + intros k. rewrite skipn_skipn. f_equal. f_equal. lia.
Qed.

Lemma batch_starts_make_up {A} (l : list A) :
  flat_map (batch_at l) (batch_starts (length l)) = l.
Proof.
  unfold batch_starts, batch_size. rewrite flat_map_map.
  apply batches_make_up.
  pose proof (Nat.div_mod_eq (length l + (25 - 1)) 25) as Hdm.
  pose proof (Nat.mod_upper_bound (length l + (25 - 1)) 25 ltac:(lia)) as Hmod.
  lia.
Qed.

Lemma chunk_items_by_batches (chunks : list chunk_data) (starts : list nat) :
  embedded (chunk_items get_embeddings chunks starts)
  = map (fun ch => (ch, embed (Py.slice_to (cd_content ch) 20000)))
        (flat_map (batch_at chunks) starts).
Proof.
  unfold chunk_items.
  induction starts as [|i starts IH]; [reflexivity|].
  cbn [flat_map]. rewrite embedded_app, map_app, IH. f_equal.
  unfold _generate_embeddings_batch. rewrite Hworks.
  rewrite !map_map. rewrite combine_map_self. unfold embedded.
  induction (batch_at chunks i) as [|ch l IHl]; [reflexivity|].
  cbn [map flat_map snd fst app]. rewrite IHl. reflexivity.
Qed.

Lemma chunk_items_working (chunks : list chunk_data) :
  embedded (chunk_items get_embeddings chunks (batch_starts (length chunks)))
  = map (fun ch => (ch, embed (Py.slice_to (cd_content ch) 20000))) chunks.
Proof.
  rewrite chunk_items_by_batches, batch_starts_make_up. reflexivity.
Qed.

End ChunkVectors.

(** X20.  With an embedding service that answers every call and a store
    that accepts every statement, the chunk storage leaves for the merchant
    exactly one row for every chunk whose content is not blank, in the order
    of the documents, each with the vector of its own content (cut to 20000
    characters); the number it returns is the number of these rows. *)
Theorem chunks_stored_with_their_vectors
  (V : Type) (fails : nat -> bool) (embed : str -> V)
  (get_embeddings : nat -> list str -> option (list V))
  (merchant_id : str) (documents : list document) (c : conn V) :
  (forall n, fails n = false) ->
  (forall k batch, get_embeddings k batch = Some (map embed batch)) ->
  let chunks := flat_map chunk_data_of documents in
  exists c',
    _store_document_embeddings fails get_embeddings merchant_id documents c
    = (length chunks, c')
    /\ document_chunks (committed c')
       = Frame.other_chunks merchant_id (working c)
         ++ map (fun ch => chunk_row_of merchant_id ch
                             (embed (Py.slice_to (cd_content ch) 20000)))
                chunks.
Proof.
  intros Hno Hworks. cbv zeta.
  destruct (store_document_embeddings_refreshes V fails get_embeddings Hno
              merchant_id documents c) as [c' [Hrun Hrows]].
  rewrite (chunk_items_working V embed get_embeddings Hworks) in Hrun, Hrows.
  exists c'. split.
  - rewrite Hrun, length_map. reflexivity.
  - rewrite Hrows, map_map. reflexivity.
Qed.

Lemma chunks_stored_with_their_vectors_witness :
  let embed := fun t : str => [len t] in
  let get_embeddings := fun (k : nat) (batch : list str) => Some (map embed batch) in
  let chunks := flat_map chunk_data_of Examples.two_documents in
  exists c',
    _store_document_embeddings Examples.never get_embeddings Examples.merchant
                               Examples.two_documents Examples.connection
    = (length chunks, c')
    /\ document_chunks (committed c')
       = Frame.other_chunks Examples.merchant (working Examples.connection)
         ++ map (fun ch => chunk_row_of Examples.merchant ch
                             (embed (Py.slice_to (cd_content ch) 20000)))
                chunks.
Proof.
  cbv zeta.
  apply (chunks_stored_with_their_vectors (list Z) Examples.never
           (fun t : str => [len t])
           (fun (k : nat) (batch : list str) => Some (map (fun t : str => [len t]) batch))
           Examples.merchant Examples.two_documents Examples.connection).
  - intros n. reflexivity.
  - intros k batch. reflexivity.
Defined.

(** ** Products and their vectors *)

Section ProductVectors.
Import Embed Store.
Variable V : Type.
Variable embed : str -> V.
Variable get_embeddings : nat -> list str -> option (list V).
Variable strip_html : str -> str.
Hypothesis Hworks : forall k batch, get_embeddings k batch = Some (map embed batch).

Lemma generate_all_working (texts : list str) :
  _generate_all_embeddings get_embeddings texts
  = map (fun t => Some (embed (Py.slice_to t 20000))) texts.
Proof.
  unfold _generate_all_embeddings.
  rewrite <- (batch_starts_make_up texts) at 2.
  generalize (batch_starts (length texts)) as starts.
  induction starts as [|i starts IH]; [reflexivity|].
  cbn [flat_map]. rewrite map_app, IH. f_equal.
  unfold _generate_embeddings_batch. rewrite Hworks, !map_map. reflexivity.
Qed.

Lemma combine_map_map {A B C} (g : A -> B) (h : A -> C) (l : list A) :
  combine (map g l) (map h l) = map (fun a => (g a, h a)) l.
Proof. induction l as [|a l IH]; [reflexivity|]. simpl. rewrite IH. reflexivity. Qed.

(** The items of a run, each product with the vector of its own text. *)
Lemma platform_items_working (pf : platform) (rows : list row) :
  platform_items get_embeddings strip_html pf rows
  = match pf with
    | Shopify =>
        map (fun p => (ShopifyItem p,
                       Some (embed (Py.slice_to (shopify_embed_text strip_html p) 20000))))
            (shopify_products rows)
    | WooCommerce =>
        map (fun p => (WcItem p,
                       Some (embed (Py.slice_to (wc_embed_text strip_html p) 20000))))
            (woocommerce_products rows)
    | Squarespace =>
        map (fun p => (SqItem p,
                       Some (embed (Py.slice_to (sq_embed_text strip_html p) 20000))))
            (squarespace_products rows)
    end.
Proof.
  unfold platform_items. destruct pf; cbv zeta; rewrite generate_all_working, map_map.
  - apply combine_map_map.
  - apply combine_map_map.
  - rewrite <- (map_id (squarespace_products rows)) at 1.
    rewrite combine_map_map, map_map. reflexivity.
Qed.

End ProductVectors.

Section SurplusFields.
Import Store.
Variable V : Type.
Variable fails : nat -> bool.
Hypothesis Hno : forall n, fails n = false.

(** On rows that [_get_col] cannot read the import deletes, raises and
    rolls back. *)
Lemma import_unreadable_rows (merchant_id : str) (pf : platform)
  (shop_url shop_name : option str) (c : conn V) :
  exists c1,
    (let (o, c') :=
       bind (_ensure_store_entry fails merchant_id pf shop_url shop_name)
            (fun _ => bind (execute fails (delete_products pf merchant_id))
                           (fun _ => raise (A := summary) AttributeError)) c in
     match o with
     | Ok r => (Ok r, c')
     | Raised e => (Raised e, rollback c')
     end) = (Raised AttributeError, c1)
    /\ committed c1 = committed c /\ working c1 = committed c.
Proof.
  pose proof (keeps_ensure_store_entry V fails merchant_id pf shop_url shop_name c)
    as Hkeep.
  destruct (ensure_store_entry_ok V fails Hno merchant_id pf shop_url shop_name c)
    as [sid [c1 [Hrun _]]].
  unfold bind at 1. rewrite Hrun in *. cbn [snd] in Hkeep.
  unfold bind, execute, raise. rewrite Hno.
  eexists. split; [reflexivity|].
  unfold rollback. cbn [committed working with_working sent]. auto.
Qed.

End SurplusFields.

(** X21.  With an embedding service that answers every call and a store
    that accepts every statement: when every key of every parsed row is a
    string, a product import leaves for the merchant, on the platform,
    exactly one row for every product built from the file, in order, each
    with the vector of its own text (title, description text, tags and type,
    cut to 20000 characters), and the count it reports is the number of these
    products; when some row has a key that is not a string (a line of a CSV
    file with a surplus field), the import raises [AttributeError] and rolls
    back, and the committed tables are those of before. *)
Theorem products_stored_with_their_vectors
  (V : Type) (fails : nat -> bool) (embed : str -> V)
  (get_embeddings : nat -> list str -> option (list V))
  (strip_html : str -> str)
  (merchant_id : str) (pf : platform) (rows : list parsed_row)
  (shop_url shop_name : option str) (c : conn V) :
  (forall n, fails n = false) ->
  (forall k batch, get_embeddings k batch = Some (map embed batch)) ->
  rows <> [] ->
  let res := import_parsed_rows fails get_embeddings strip_html
                                merchant_id pf rows shop_url shop_name c in
  match named_rows rows with
  | Some named =>
      let vector := fun text : str => Some (embed (Py.slice_to text 20000)) in
      let items :=
        match pf with
        | Shopify =>
            map (fun p => (ShopifyItem p, vector (shopify_embed_text strip_html p)))
                (shopify_products named)
        | WooCommerce =>
            map (fun p => (WcItem p, vector (wc_embed_text strip_html p)))
                (woocommerce_products named)
        | Squarespace =>
            map (fun p => (SqItem p, vector (sq_embed_text strip_html p)))
                (squarespace_products named)
        end in
      exists sid c',
        res = (Ok {| product_count := length items; store_id := Some sid;
                     summary_platform := Some pf |}, c')
        /\ products (committed c')
           = Frame.other_products pf merchant_id (working c)
             ++ product_rows sid merchant_id (next_id c + 1) items
  | None =>
      exists c',
        res = (Raised AttributeError, c')
        /\ committed c' = committed c /\ working c' = committed c
  end.
Proof.
  intros Hno Hworks Hrows. cbv zeta. unfold import_parsed_rows.
  destruct (named_rows rows) as [named|] eqn:Enamed.
  - assert (Hnamed : named <> []).
    { intros ->. destruct rows as [|r rows]; [congruence|].
      cbn [named_rows] in Enamed.
      destruct (named_row r); [|discriminate Enamed].
      destruct (named_rows rows); discriminate Enamed. }
    destruct (import_products_refreshes V fails get_embeddings strip_html Hno
                merchant_id pf named shop_url shop_name c Hnamed)
      as [sid [c' [Hrun Hp]]].
    rewrite (platform_items_working V embed get_embeddings strip_html Hworks)
      in Hrun, Hp.
    exists sid, c'. split; [exact Hrun | exact Hp].
  - apply (import_unreadable_rows V fails Hno).
Qed.

Lemma products_stored_with_their_vectors_witness :
  let embed := fun t : str => [len t] in
  let get_embeddings := fun (k : nat) (batch : list str) => Some (map embed batch) in
  let named := [Examples.red_mug; Examples.green_tea] in
  let rows := map (map (fun kv => (Some (fst kv), snd kv))) named in
  let items :=
    map (fun p => (WcItem p,
                   Some (embed (Py.slice_to (wc_embed_text Examples.no_html p) 20000))))
        (woocommerce_products named) in
  exists sid c',
    import_parsed_rows Examples.never get_embeddings Examples.no_html
                       Examples.merchant WooCommerce rows None None
                       Examples.connection
    = (Ok {| product_count := length items; store_id := Some sid;
             summary_platform := Some WooCommerce |}, c')
    /\ products (committed c')
       = Frame.other_products WooCommerce Examples.merchant
           (working Examples.connection)
         ++ product_rows sid Examples.merchant (next_id Examples.connection + 1) items.
Proof.
  cbv zeta.
  apply (products_stored_with_their_vectors (list Z) Examples.never
           (fun t : str => [len t])
           (fun (k : nat) (batch : list str) => Some (map (fun t : str => [len t]) batch))
           Examples.no_html Examples.merchant WooCommerce
           (map (map (fun kv => (Some (fst kv), snd kv)))
                [Examples.red_mug; Examples.green_tea])
           None None Examples.connection).
  - intros n. reflexivity.
  - intros k batch. reflexivity.
  - discriminate.
Defined.

(** A line with a surplus field: the import of the file raises, and the
    chunk row stored before is still there. *)
Example import_surplus_field_raises :
  let res := import_parsed_rows Examples.never Examples.service Examples.no_html
               Examples.merchant WooCommerce
               [[(Some (lit "title"), CStr (lit "Red Mug"));
                 (None, CStr (lit "12"))]]
               None None Examples.connection in
  fst res = Raised AttributeError
  /\ committed (snd res) = committed Examples.connection
  /\ working (snd res) = committed Examples.connection.
Proof. cbv zeta. repeat split; reflexivity. Qed.

(** ** The white-space clean-up of extracted HTML text *)

Section HtmlCleanUp.
Import Py Chunker Html.

Lemma linebreak_isspace (c : ascii) : is_linebreak c = true -> isspace c = true.
Proof. destruct c as [[] [] [] [] [] [] [] []]; vm_compute; congruence. Qed.

Lemma words_cons_space (c : ascii) (s : str) :
  isspace c = true -> words (c :: s) = words s.
Proof.
  intros Hc. apply (words_blank_app [c]). constructor; [exact Hc | constructor].
Qed.

(** The lines of a text hold its words. *)
Lemma words_splitlines_from (n : nat) :
  forall s cur, (length s <= n)%nat ->
    concat (map words (splitlines_from s cur)) = words (rev cur ++ s).
Proof.
  induction n as [|n IH]; intros s cur Hn.
  - destruct s; [|simpl in Hn; lia]. rewrite app_nil_r.
    destruct cur as [|c cur]; [reflexivity|].
    cbn [splitlines_from map concat]. apply app_nil_r.
  - destruct s as [|c s'].
    + rewrite app_nil_r. destruct cur as [|c cur]; [reflexivity|].
      cbn [splitlines_from map concat]. apply app_nil_r.
    + cbn [splitlines_from]. destruct (is_linebreak c) eqn:Ec.
      * pose proof (linebreak_isspace c Ec) as Hc.
        unfold words at 2. rewrite words_from_space by exact Hc.
        cbn [map concat]. f_equal.
        destruct s' as [|d s'']; [reflexivity|].
        destruct (Ascii.eqb c CR && Ascii.eqb d NL) eqn:E.
        -- apply andb_true_iff in E. destruct E as [_ Ed].
           apply Ascii.eqb_eq in Ed. subst d.
           rewrite IH by (simpl in Hn |- *; lia). cbn [rev app].
           symmetry. apply words_cons_space. reflexivity.
        -- rewrite IH by (simpl in Hn |- *; lia). reflexivity.
      * rewrite IH by (simpl in Hn |- *; lia). cbn [rev].
        rewrite <- app_assoc. reflexivity.
Qed.

Lemma words_join_lines (chunks : list str) :
  words (Catalog.join [NL] chunks) = concat (map words chunks).
Proof.
  induction chunks as [|p [|q rest] IH]; [reflexivity | |].
  - cbn [Catalog.join map concat]. rewrite app_nil_r. reflexivity.
  - change (Catalog.join [NL] (p :: q :: rest))
      with (p ++ NL :: Catalog.join [NL] (q :: rest)).
    unfold words at 1. rewrite words_from_space by reflexivity.
    rewrite IH. reflexivity.
Qed.

Lemma words_filter_nonempty (chunks : list str) :
  concat (map words (filter (fun chunk => match chunk with
                                           | [] => false
                                           | _ => true
                                           end) chunks))
  = concat (map words chunks).
Proof.
  induction chunks as [|[|c ch] chunks IH]; [reflexivity | exact IH |].
  cbn [filter map concat]. rewrite IH. reflexivity.
Qed.

Lemma concat_words_flat_map {A} (g : A -> list str) (l : list A) :
  concat (map words (flat_map g l))
  = concat (map (fun x => concat (map words (g x))) l).
Proof.
  induction l as [|x l IH]; [reflexivity|].
  cbn [flat_map map concat]. rewrite map_app, concat_app, IH. reflexivity.
Qed.

Lemma words_stripped_pieces (pieces : list str) :
  concat (map words (map strip pieces)) = concat (map words pieces).
Proof.
  rewrite map_map. f_equal. apply map_ext. intros x. apply words_strip.
Qed.

Lemma clean_text_words (text : str) : words (clean_text text) = words text.
Proof.
  unfold clean_text, clean_chunks. cbv zeta.
  rewrite words_join_lines, words_filter_nonempty, concat_words_flat_map.
  rewrite (map_ext _ words).
  - rewrite words_stripped_pieces. unfold splitlines.
    rewrite (words_splitlines_from (length text)) by lia. reflexivity.
  - intros line. rewrite words_stripped_pieces.
    apply words_split2; reflexivity.
Qed.

(** *** The form of the pieces *)

Section NoPair.
Variables a b : ascii.

Lemma snoc_no_pair (cur : str) (c : ascii) :
  (forall u v, rev cur <> u ++ a :: b :: v) ->
  match cur with c0 :: _ => ~ (c0 = a /\ c = b) | [] => True end ->
  forall u v, rev cur ++ [c] <> u ++ a :: b :: v.
Proof.
  intros HP Hlast u v. destruct v as [|z v] using rev_ind.
  - change (u ++ [a; b]) with (u ++ [a] ++ [b]). rewrite app_assoc.
    intros H. apply app_inj_tail in H. destruct H as [Hr Hc].
    apply (f_equal (@rev ascii)) in Hr.
    rewrite rev_involutive, rev_app_distr in Hr. cbn [rev app] in Hr.
    subst cur. apply Hlast. auto.
  - clear IHv. intros H.
    change (u ++ a :: b :: v ++ [z]) with (u ++ (a :: b :: v) ++ [z]) in H.
    rewrite app_assoc in H. apply app_inj_tail in H. destruct H as [Hr _].
    exact (HP u v Hr).
Qed.

Lemma split2_from_no_pair (n : nat) :
  forall s cur, (length s <= n)%nat ->
    (forall u v, rev cur <> u ++ a :: b :: v) ->
    match cur, s with
    | c0 :: _, d :: _ => ~ (c0 = a /\ d = b)
    | _, _ => True
    end ->
    Forall (fun x => forall u v, x <> u ++ a :: b :: v) (split2_from a b s cur).
Proof.
  induction n as [|n IH]; intros s cur Hn HP Hlast.
  - destruct s; [|simpl in Hn; lia]. constructor; [exact HP | constructor].
  - destruct s as [|c [|d s]].
    + constructor; [exact HP | constructor].
    + cbn [split2_from]. constructor; [|constructor].
      cbn [rev]. apply snoc_no_pair; [exact HP|].
      destruct cur; [exact I | exact Hlast].
    + change (split2_from a b (c :: d :: s) cur)
        with (if Ascii.eqb c a && Ascii.eqb d b
              then rev cur :: split2_from a b s []
              else split2_from a b (d :: s) (c :: cur)).
      destruct (Ascii.eqb c a && Ascii.eqb d b) eqn:E.
      * constructor; [exact HP|]. apply IH.
        -- simpl in Hn. lia.
        -- intros u v H. destruct u; discriminate H.
        -- exact I.
      * apply IH.
        -- simpl in Hn |- *. lia.
        -- cbn [rev]. apply snoc_no_pair; [exact HP|].
           destruct cur; [exact I | exact Hlast].
        -- intros [-> ->]. rewrite !Ascii.eqb_refl in E. discriminate E.
Qed.

Lemma split2_no_pair (s : str) :
  Forall (fun x => forall u v, x <> u ++ a :: b :: v) (split2 a b s).
Proof.
  unfold split2. apply (split2_from_no_pair (length s)).
  - lia.
  - intros u v H. destruct u; discriminate H.
  - exact I.
Qed.

End NoPair.

Lemma split2_from_chars (Q : ascii -> Prop) (a b : ascii) (n : nat) :
  forall s cur, (length s <= n)%nat -> Forall Q s -> Forall Q cur ->
    Forall (Forall Q) (split2_from a b s cur).
Proof.
  induction n as [|n IH]; intros s cur Hn Hs Hcur.
  - destruct s; [|simpl in Hn; lia].
    constructor; [apply Forall_rev; exact Hcur | constructor].
  - destruct s as [|c [|d s]].
    + constructor; [apply Forall_rev; exact Hcur | constructor].
    + cbn [split2_from]. constructor; [|constructor].
      apply Forall_rev. constructor; [|exact Hcur]. inversion Hs. assumption.
    + change (split2_from a b (c :: d :: s) cur)
        with (if Ascii.eqb c a && Ascii.eqb d b
              then rev cur :: split2_from a b s []
              else split2_from a b (d :: s) (c :: cur)).
      inversion Hs as [|? ? Hc Hs']. subst. inversion Hs' as [|? ? Hd Hs'']. subst.
      destruct (Ascii.eqb c a && Ascii.eqb d b).
      * constructor; [apply Forall_rev; exact Hcur|].
        apply IH; [simpl in Hn; lia | exact Hs'' | constructor].
      * apply IH; [simpl in Hn |- *; lia | exact Hs' |].
        constructor; assumption.
Qed.

Lemma splitlines_from_chars :
  forall s cur,
    Forall (fun c => is_linebreak c = false) cur ->
    Forall (Forall (fun c => is_linebreak c = false)) (splitlines_from s cur).
Proof.
  assert (Hstrong : forall n s cur, (length s <= n)%nat ->
            Forall (fun c => is_linebreak c = false) cur ->
            Forall (Forall (fun c => is_linebreak c = false))
                   (splitlines_from s cur)).
  { induction n as [|n IH]; intros s cur Hn Hcur.
    - destruct s; [|simpl in Hn; lia].
      destruct cur; [constructor|].
      constructor; [apply Forall_rev; exact Hcur | constructor].
    - destruct s as [|c s'].
      + destruct cur; [constructor|].
        constructor; [apply Forall_rev; exact Hcur | constructor].
      + cbn [splitlines_from]. destruct (is_linebreak c) eqn:Ec.
        * constructor; [apply Forall_rev; exact Hcur|].
          destruct s' as [|d s'']; [constructor|].
          destruct (Ascii.eqb c CR && Ascii.eqb d NL);
            apply IH; try constructor; simpl in Hn |- *; lia.
        * apply IH; [simpl in Hn; lia|]. constructor; assumption. }
  intros s cur. apply (Hstrong (length s)). lia.
Qed.

Lemma strip_by_forall (f : ascii -> bool) (Q : ascii -> Prop) (s : str) :
  Forall Q s -> Forall Q (strip_by f s).
Proof.
  intros H. destruct (strip_by_parts f s) as [w1 [w2 [_ [_ Hs]]]].
  rewrite Hs in H. apply Forall_app in H. destruct H as [_ H].
  apply Forall_app in H. apply H.
Qed.

Lemma strip_by_no_pair (f : ascii -> bool) (a b : ascii) (s : str) :
  (forall u v, s <> u ++ a :: b :: v) ->
  forall u v, strip_by f s <> u ++ a :: b :: v.
Proof.
  intros HP u v H. destruct (strip_by_parts f s) as [w1 [w2 [_ [_ Hs]]]].
  rewrite H in Hs. apply (HP (w1 ++ u) (v ++ w2)). rewrite Hs.
  rewrite <- !app_assoc. reflexivity.
Qed.

Lemma clean_chunks_form (text : str) :
  Forall (fun chunk =>
            chunk <> []
            /\ strip chunk = chunk
            /\ (forall u v, chunk <> u ++ lit "  " ++ v)
            /\ Forall (fun c => is_linebreak c = false) chunk)
         (clean_chunks text).
Proof.
  unfold clean_chunks. cbv zeta. apply Forall_forall. intros chunk Hin.
  apply filter_In in Hin. destruct Hin as [Hin Hne].
  apply in_flat_map in Hin. destruct Hin as [line [Hline Hin]].
  apply in_map_iff in Hin. destruct Hin as [piece [<- Hpiece]].
  apply in_map_iff in Hline. destruct Hline as [raw [<- Hraw]].
  split; [destruct (strip piece); [discriminate Hne | discriminate]|].
  split; [apply strip_by_idem|].
  split.
  - apply strip_by_no_pair.
    pose proof (split2_no_pair " "%char " "%char (strip raw)) as HP.
    rewrite Forall_forall in HP. apply HP. exact Hpiece.
  - apply strip_by_forall.
    assert (Hraw' : Forall (fun c => is_linebreak c = false) (strip raw)).
    { apply strip_by_forall.
      pose proof (splitlines_from_chars text [] (Forall_nil _)) as HL.
      rewrite Forall_forall in HL. apply HL. exact Hraw. }
    pose proof (split2_from_chars (fun c => is_linebreak c = false)
                  " "%char " "%char (length (strip raw)) (strip raw) []
                  (Nat.le_refl _) Hraw' (Forall_nil _)) as HS.
    rewrite Forall_forall in HS. apply HS. exact Hpiece.
Qed.

End HtmlCleanUp.

(** X22.  The white-space clean-up of extracted HTML text keeps every word
    of the text, in order, and leaves a text made of lines (joined by line
    feeds) that are not empty, have no white space at either end, hold no
    two spaces in a row and no line boundary of their own. *)
Theorem html_clean_up (text : str) :
  words (Html.clean_text text) = words text
  /\ Html.clean_text text = join [NL] (Html.clean_chunks text)
  /\ Forall (fun line =>
               line <> []
               /\ strip line = line
               /\ (forall u v, line <> u ++ lit "  " ++ v)
               /\ Forall (fun c => Html.is_linebreak c = false) line)
            (Html.clean_chunks text).
Proof.
  split; [apply clean_text_words|]. split; [reflexivity|].
  apply clean_chunks_form.
Qed.

(** ** Which files of the knowledge base are documents *)

Section DocumentFiles.
Import Onboarding.

Lemma last_segment_from (s cur : str) :
  ~ In "/"%char s ->
  fold_left (fun cur c => if Ascii.eqb c "/"%char then [] else cur ++ [c]) s cur
  = cur ++ s.
Proof.
  revert cur. induction s as [|c s IH]; intros cur Hno.
  - rewrite app_nil_r. reflexivity.
  - cbn [fold_left]. destruct (Ascii.eqb c "/"%char) eqn:E.
    + apply Ascii.eqb_eq in E. exfalso. apply Hno. left. auto.
    + rewrite IH by (intros H; apply Hno; right; exact H).
      rewrite <- app_assoc. reflexivity.
Qed.

Lemma last_segment_of_path (folder name : str) :
  ~ In "/"%char name -> last_segment (folder ++ lit "/" ++ name) = name.
Proof.
  intros Hno. unfold last_segment. rewrite fold_left_app.
  change (lit "/" ++ name) with ("/"%char :: name). cbn [fold_left].
  rewrite last_segment_from by exact Hno. reflexivity.
Qed.

End DocumentFiles.

(** X23.  Whether a file of the knowledge base is handed to the converter
    depends on its file name alone, read without regard to letter case: in
    whatever folder it lies, a file whose lower-cased name is one of the
    product or category file names, or ends with ".keep", is not a document,
    and every other file is. *)
Theorem is_document_by_file_name (folder name : str) :
  ~ In "/"%char name ->
  Onboarding.is_document (folder ++ lit "/" ++ name)
  = negb (existsb (str_eqb (lower name)) Onboarding.excluded_files)
    && negb (Onboarding.endswith (lower name) (lit ".keep")).
Proof.
  intros Hno. unfold Onboarding.is_document. cbv zeta.
  rewrite last_segment_of_path by exact Hno. reflexivity.
Qed.

Lemma is_document_by_file_name_witness :
  Onboarding.is_document (lit "merchants/m1/knowledge_base" ++ lit "/" ++ lit "Products.CSV")
  = negb (existsb (str_eqb (lower (lit "Products.CSV"))) Onboarding.excluded_files)
    && negb (Onboarding.endswith (lower (lit "Products.CSV")) (lit ".keep")).
Proof.
  apply (is_document_by_file_name (lit "merchants/m1/knowledge_base")
           (lit "Products.CSV")).
  vm_compute. intros H. repeat (destruct H as [H | H]; [discriminate H|]). exact H.
Defined.

(** ** Chunks of a run, by source and index *)

Section SourceIndex.
Import Report.
Variable file_exists : str -> bool.
Variable read_text : str -> option str.

Lemma make_document_source_index (doc_path filename : str) (total : nat)
  (chunks : list str) :
  forall s,
    map (fun ic => (d_source (make_document doc_path filename total ic),
                    d_chunk_index (make_document doc_path filename total ic)))
        (combine (seq s (length chunks)) chunks)
    = map (fun i => (doc_path, i)) (seq s (length chunks)).
Proof.
  induction chunks as [|ch chunks IH]; intros s; [reflexivity|].
  cbn [length seq combine map]. f_equal. apply IH.
Qed.

Lemma documents_of_source_index (doc_path text : str) :
  map (fun d => (d_source d, d_chunk_index d)) (documents_of doc_path text)
  = map (fun i => (doc_path, i))
        (seq 0 (length (_split_text text max_chunk_size DocId.overlap))).
Proof.
  unfold documents_of. cbv zeta. rewrite map_map.
  apply make_document_source_index.
Qed.

Lemma map_of_flat_map {A B C} (g : B -> C) (f : A -> list B) (l : list A) :
  map g (flat_map f l) = flat_map (fun a => map g (f a)) l.
Proof.
  induction l as [|a l IH]; [reflexivity|].
  cbn [flat_map]. rewrite map_app, IH. reflexivity.
Qed.

Lemma converted_source_index (document_paths : list str) :
  NoDup document_paths ->
  NoDup (map (fun d => (d_source d, d_chunk_index d))
             (converted_documents file_exists read_text document_paths)).
Proof.
  intros Hnd. unfold converted_documents.
  rewrite map_of_flat_map.
  apply (nodup_tagged _ (fun p : str => p) (@fst str nat)).
  - intros p _. destruct (is_skipped file_exists read_text p); [constructor|].
    destruct (read_text p) as [text|]; [|constructor].
    rewrite documents_of_source_index.
    apply Injective_map_NoDup; [|apply seq_NoDup].
    intros i j H. injection H as ->. reflexivity.
  - intros p x _ Hx. destruct (is_skipped file_exists read_text p); [destruct Hx|].
    destruct (read_text p) as [text|]; [|destruct Hx].
    rewrite documents_of_source_index in Hx. apply in_map_iff in Hx.
    destruct Hx as [i [<- _]]. reflexivity.
  - rewrite map_id. exact Hnd.
Qed.

End SourceIndex.

(** X24.  When the source paths of a run are pairwise different, the source
    path together with the chunk index tells the documents of the run
    apart: no two of them have the same source and the same chunk index
    (their identifiers, made from the file name alone, may still be the
    same). *)
Theorem documents_told_apart_by_source_and_index
  (file_exists : str -> bool) (read_text : str -> option str)
  (document_paths : list str) :
  NoDup document_paths ->
  NoDup (map (fun d => (d_source d, d_chunk_index d))
             (Report.converted_documents file_exists read_text document_paths)).
Proof. apply converted_source_index. Qed.

Lemma documents_told_apart_by_source_and_index_witness :
  NoDup (map (fun d => (d_source d, d_chunk_index d))
             (Report.converted_documents (fun p => true) (fun p => Some (lit "alpha"))
                [lit "kb/a.txt"; lit "kb2/a.txt"])).
Proof.
  apply (documents_told_apart_by_source_and_index (fun p => true)
           (fun p => Some (lit "alpha")) [lit "kb/a.txt"; lit "kb2/a.txt"]).
  constructor; [|constructor; [intros [] | constructor]].
  intros [H | []]. discriminate H.
Defined.

(** X25.  Of two columns whose names are the same once lower-cased and
    stripped, the later one counts: when the last column of a row has the
    normalised name of the first key and a value that is not blank,
    [_get_col] returns that value, stripped, whatever the columns before
    it hold. *)
Theorem get_col_last_column_wins
  (r : row) (column key : str) (keys : list str) (value : str) :
  strip (lower column) = strip (lower key) ->
  strip value <> [] ->
  _get_col (r ++ [(column, CStr value)]) (key :: keys) = strip value.
Proof.
  intros Hname Hvalue. cbn [_get_col].
  unfold row_lower_get. rewrite fold_left_app. cbn [fold_left fst snd].
  rewrite Hname, str_eqb_refl.
  destruct (strip value); [congruence | reflexivity].
Qed.

Lemma get_col_last_column_wins_witness :
  _get_col ([(lit "Title", CStr (lit "Red Mug"))]
            ++ [(lit " title ", CStr (lit " Blue Mug "))])
           [lit "TITLE"; lit "name"]
  = strip (lit " Blue Mug ").
Proof.
  apply (get_col_last_column_wins [(lit "Title", CStr (lit "Red Mug"))]
           (lit " title ") (lit "TITLE") [lit "name"] (lit " Blue Mug ")).
  - reflexivity.
  - vm_compute. discriminate.
Defined.

(** ** Pages and paragraphs *)

Section PagesAndParagraphs.
Import Py Chunker Extract Parts.

Lemma whole_single (c : ascii) : Parts.whole [c] = true -> Ascii.eqb c NL = false.
Proof.
  unfold Parts.whole. cbn [Parts.has_para_sep Parts.ends_with_NL negb andb].
  apply negb_true_iff.
Qed.

Lemma whole_step (c d : ascii) (part : str) :
  Parts.whole (c :: d :: part) = true ->
  Ascii.eqb c NL && Ascii.eqb d NL = false /\ Parts.whole (d :: part) = true.
Proof.
  unfold Parts.whole.
  change (Parts.has_para_sep (c :: d :: part))
    with ((Ascii.eqb c NL && Ascii.eqb d NL) || Parts.has_para_sep (d :: part)).
  change (Parts.ends_with_NL (c :: d :: part)) with (Parts.ends_with_NL (d :: part)).
  destruct (Ascii.eqb c NL && Ascii.eqb d NL); cbn [orb negb andb];
    [discriminate | auto].
Qed.

Lemma split2_from_whole (part rest cur : str) :
  whole part = true ->
  split2_from NL NL (part ++ NL :: NL :: rest) cur
  = (rev cur ++ part) :: split2_from NL NL rest [].
Proof.
  revert cur. induction part as [|c part IH]; intros cur Hw.
  - cbn [app split2_from]. rewrite Ascii.eqb_refl. cbn [andb].
    rewrite app_nil_r. reflexivity.
  - destruct part as [|d part'].
    + pose proof (whole_single c Hw) as Hc.
      change ([c] ++ NL :: NL :: rest) with (c :: NL :: NL :: rest).
      change (split2_from NL NL (c :: NL :: NL :: rest) cur)
        with (if Ascii.eqb c NL && Ascii.eqb NL NL
              then rev cur :: split2_from NL NL (NL :: rest) []
              else split2_from NL NL (NL :: NL :: rest) (c :: cur)).
      rewrite Hc. cbn [andb].
      change (split2_from NL NL (NL :: NL :: rest) (c :: cur))
        with (if Ascii.eqb NL NL && Ascii.eqb NL NL
              then rev (c :: cur) :: split2_from NL NL rest []
              else split2_from NL NL (NL :: rest) (NL :: c :: cur)).
      rewrite Ascii.eqb_refl. reflexivity.
    + destruct (whole_step c d part' Hw) as [Hcd Hw'].
      change ((c :: d :: part') ++ NL :: NL :: rest)
        with (c :: d :: (part' ++ NL :: NL :: rest)).
      change (split2_from NL NL (c :: d :: (part' ++ NL :: NL :: rest)) cur)
        with (if Ascii.eqb c NL && Ascii.eqb d NL
              then rev cur :: split2_from NL NL (part' ++ NL :: NL :: rest) []
              else split2_from NL NL (d :: (part' ++ NL :: NL :: rest)) (c :: cur)).
      rewrite Hcd.
      change (d :: (part' ++ NL :: NL :: rest))
        with ((d :: part') ++ NL :: NL :: rest).
      rewrite IH by exact Hw'.
      cbn [rev]. rewrite <- app_assoc. reflexivity.
Qed.

Lemma split2_from_last (part cur : str) :
  whole part = true -> split2_from NL NL part cur = [rev cur ++ part].
Proof.
  revert cur. induction part as [|c part IH]; intros cur Hw.
  - cbn [split2_from]. rewrite app_nil_r. reflexivity.
  - destruct part as [|d part'].
    + cbn [split2_from rev]. reflexivity.
    + destruct (whole_step c d part' Hw) as [Hcd Hw'].
      change (split2_from NL NL (c :: d :: part') cur)
        with (if Ascii.eqb c NL && Ascii.eqb d NL
              then rev cur :: split2_from NL NL part' []
              else split2_from NL NL (d :: part') (c :: cur)).
      rewrite Hcd. rewrite IH by exact Hw'.
      cbn [rev]. rewrite <- app_assoc. reflexivity.
Qed.

Lemma split_join_whole (parts : list str) :
  parts <> [] ->
  Forall (fun part => whole part = true) parts ->
  split2 NL NL (Catalog.join para_sep parts) = parts.
Proof.
  unfold split2. intros Hne Hall.
  induction Hall as [|p parts Hp Hall IH]; [congruence|].
  destruct parts as [|q parts].
  - cbn [Catalog.join]. apply (split2_from_last p [] Hp).
  - change (Catalog.join para_sep (p :: q :: parts))
      with (p ++ NL :: NL :: Catalog.join para_sep (q :: parts)).
    rewrite (split2_from_whole p _ [] Hp). cbn [rev app].
    rewrite IH by discriminate. reflexivity.
Qed.

End PagesAndParagraphs.

(** X26.  The paragraphs the chunker reads from the text of a PDF are the
    pages of the file, and those it reads from the text of a DOCX are the
    paragraphs of the file that are not blank: joining with two line feeds
    and cutting at two line feeds gives back the parts, provided no part
    holds two line feeds in a row or ends with a line feed. *)
Theorem paragraphs_are_the_parts (parts : list str) :
  forallb Parts.whole parts = true ->
  (parts <> [] ->
   split2 NL NL (Extract._extract_pdf_text parts) = parts)
  /\ (Forall (fun part => strip part = []) parts \/
      split2 NL NL (Extract._extract_docx_text parts)
      = filter (fun text => match strip text with [] => false | _ => true end) parts).
Proof.
  intros Hall. rewrite forallb_forall in Hall. split.
  - intros Hne. apply split_join_whole; [exact Hne|].
    apply Forall_forall. exact Hall.
  - set (keep := fun text : str => match strip text with [] => false | _ => true end).
    destruct (filter keep parts) as [|p kept] eqn:E.
    + left. apply Forall_forall. intros part Hin.
      destruct (strip part) as [|c s] eqn:Es; [reflexivity|].
      assert (Hk : In part (filter keep parts)).
      { apply filter_In. split; [exact Hin|]. unfold keep. rewrite Es. reflexivity. }
      rewrite E in Hk. destruct Hk.
    + right. unfold Extract._extract_docx_text. fold keep. rewrite E.
      apply split_join_whole; [discriminate|].
      rewrite <- E. apply Forall_forall. intros part Hin.
      apply filter_In in Hin. destruct Hin as [Hin _].
      apply Hall. exact Hin.
Qed.

Lemma paragraphs_are_the_parts_witness :
  split2 NL NL (Extract._extract_pdf_text
                  [lit "page one"; NL :: lit "page two"; lit "page three"])
  = [lit "page one"; NL :: lit "page two"; lit "page three"].
Proof.
  apply (paragraphs_are_the_parts
           [lit "page one"; NL :: lit "page two"; lit "page three"]);
    [reflexivity | discriminate].
Defined.
